(** * libndts: sort, reorder, snapshot boundaries, the Gorilla XOR codec,
      filters, searches, conversions and aggregates

    A shallow embedding of [ndtsdb/native/ndts.c].

    Buffers are lists addressed by a 0-based index.  A read or a write past
    the end of a caller-provided buffer is undefined behaviour in C; the
    model returns [None] there, so every function whose source indexes a
    buffer at a computed position returns an [option]. *)

From stdpp Require Import base numbers option list.
From Stdlib Require Import ZArith Lia.

Local Open Scope Z_scope.

(** ** Machine integers *)

(** [(int32_t)x]: reduction to the two's complement range.  It is also
    what the result of [int32_t] arithmetic is reduced with: an overflowing
    [count[b]++] is undefined in C and wraps on the targets of the library;
    the theorems below keep the row count under 2^31, where neither
    happens. *)
Definition to_int32 (x : Z) : Z := (x + 2 ^ 31) mod 2 ^ 32 - 2 ^ 31.

(** [(uint64_t)x], wrap-around of [size_t] and [uint64_t] arithmetic. *)
Definition to_uint64 (x : Z) : Z := x mod 2 ^ 64.

(** ** IEEE-754 binary64 *)

Module F64.

(** A [double] is its 64-bit pattern: sign (bit 63), biased exponent
    (bits 62..52), fraction (bits 51..0). *)
Definition double := Z.

(** The number a pattern denotes.  A finite double is an integer multiple
    of 2^-1074 (the smallest subnormal), so [Fin v] stands for
    v * 2^-1074; both zeros decode to [Fin 0]. *)
Inductive value :=
  | NaN
  | Inf (neg : bool)
  | Fin (v : Z).

Definition ulp_exp : Z := 1074.
Definition unit : Z := 2 ^ ulp_exp.

Definition decode (d : double) : value :=
  let s := Z.testbit d 63 in
  let e := Z.land (Z.shiftr d 52) 0x7FF in
  let m := Z.land d (2 ^ 52 - 1) in
  if e =? 0x7FF then (if m =? 0 then Inf s else NaN)
  else
    let mag := if e =? 0 then m else (2 ^ 52 + m) * 2 ^ (e - 1) in
    Fin (if s then - mag else mag).

Definition is_finite (d : double) : bool :=
  match decode d with Fin _ => true | _ => false end.

(** [a < b] on doubles: false as soon as one side is NaN. *)
Definition value_lt (a b : value) : bool :=
  match a, b with
  | NaN, _ | _, NaN => false
  | Inf true, Inf true => false
  | Inf true, _ => true
  | _, Inf true => false
  | Inf false, _ => false
  | _, Inf false => true
  | Fin x, Fin y => x <? y
  end.

(** [a == b] on doubles: NaN differs from everything, -0 equals +0. *)
Definition value_eq (a b : value) : bool :=
  match a, b with
  | Inf s, Inf t => Bool.eqb s t
  | Fin x, Fin y => x =? y
  | _, _ => false
  end.

Definition lt (a b : double) : bool := value_lt (decode a) (decode b).
Definition gt (a b : double) : bool := value_lt (decode b) (decode a).
Definition le (a b : double) : bool :=
  value_lt (decode a) (decode b) || value_eq (decode a) (decode b).
Definition eq (a b : double) : bool := value_eq (decode a) (decode b).
Definition ne (a b : double) : bool := negb (eq a b).

(** Round to nearest, ties to even, of a magnitude given in units of
    2^-1074.  [round_quot k n] is the quotient of [n] by 2^k rounded that
    way: the half-way point is decided by the parity of the quotient. *)
Definition round_quot (k n : Z) : Z :=
  let q := n / 2 ^ k in
  let r := n mod 2 ^ k in
  let h := 2 ^ (k - 1) in
  if r <? h then q
  else if h <? r then q + 1
  else if Z.even q then q else q + 1.

(** Magnitudes below 2^53 units are representable as they are (they are
    subnormal or in the lowest binades); above, the low [k] bits are
    dropped, where [k] leaves a 53-bit significand. *)
Definition round_mag (n : Z) : Z :=
  let k := Z.log2 n - 52 in
  if k <=? 0 then n else round_quot k n * 2 ^ k.

(** 2^1024 in units of 2^-1074: a rounded magnitude that reaches it
    overflows to infinity. *)
Definition overflow_threshold : Z := 2 ^ 2098.

Definition round (n : Z) : value :=
  let m := round_mag (Z.abs n) in
  if overflow_threshold <=? m then Inf (n <? 0)
  else Fin (Z.sgn n * m).

(** [a - b] in the default rounding mode.  Its result is only ever cast
    to an integer by the code below, so it is kept as a [value]. *)
Definition sub (a b : double) : value :=
  match decode a, decode b with
  | NaN, _ | _, NaN => NaN
  | Inf s, Inf t => if Bool.eqb s t then NaN else Inf s
  | Inf s, Fin _ => Inf s
  | Fin _, Inf t => Inf (negb t)
  | Fin x, Fin y => round (x - y)
  end.

(** [(size_t)v]: truncation toward zero.  The conversion is undefined
    when the truncated value does not fit (and for NaN and infinities). *)
Definition cast_size_t (v : value) : option Z :=
  match v with
  | Fin n =>
      let t := Z.quot n unit in
      if (0 <=? t) && (t <? 2 ^ 64) then Some t else None
  | _ => None
  end.

End F64.

Abbreviation double := F64.double.

Arguments F64.decode : simpl never.
Arguments F64.round_quot : simpl never.
Arguments F64.round_mag : simpl never.
Arguments F64.round : simpl never.
Arguments F64.sub : simpl never.
Arguments F64.lt : simpl never.
Arguments F64.gt : simpl never.
Arguments F64.eq : simpl never.
Arguments F64.is_finite : simpl never.

(** ** Counting sort *)

(** One iteration of the min/max scan: both comparisons are made against
    the running values, in the order of the source. *)
Definition minmax_step (acc : double * double) (x : double) : double * double :=
  let min_val := if F64.lt x acc.1 then x else acc.1 in
  let max_val := if F64.gt x acc.2 then x else acc.2 in
  (min_val, max_val).

Definition minmax_scan (d0 : double) (rest : list double) : double * double :=
  fold_left minmax_step rest (d0, d0).

(** What [counting_sort_argsort_f64] leaves behind: the index buffer it was
    handed, the two output cells and the returned [size_t]. *)
Record argsort_result := {
  ar_out_indices : list Z;
  ar_min : double;
  ar_max : double;
  ar_range : Z
}.

(** [counting_sort_argsort_f64(data, n, out_indices, out_min, out_max)]
    with [n = length data].  The body has no statement that stores to
    [out_indices]. *)
Definition counting_sort_argsort_f64
    (data : list double) (out_indices : list Z) : option argsort_result :=
  match data with
  | [] =>
      Some {| ar_out_indices := out_indices; ar_min := 0; ar_max := 0;
              ar_range := 0 |}
  | d0 :: rest =>
      let '(min_val, max_val) := minmax_scan d0 rest in
      r ← F64.cast_size_t (F64.sub max_val min_val);
      Some {| ar_out_indices := out_indices; ar_min := min_val;
              ar_max := max_val; ar_range := to_uint64 (r + 1) |}
  end.

(** [(size_t)(x - min_val)] *)
Definition bucket_of (min_val x : double) : option Z :=
  F64.cast_size_t (F64.sub x min_val).

(** [memset(count, 0, range * sizeof(int32_t))]: the first [range] cells
    are cleared, the cells of a larger buffer beyond them are not. *)
Definition clear_counts (count : list Z) (range : nat) : option (list Z) :=
  if decide (range ≤ length count)%nat
  then Some (replicate range 0 ++ drop range count)
  else None.

(** [for (i = 0; i < n; i++) count[(size_t)(data[i] - min_val)]++;] *)
Fixpoint count_pass (min_val : double) (data : list double) (count : list Z)
    : option (list Z) :=
  match data with
  | [] => Some count
  | x :: rest =>
      b ← bucket_of min_val x;
      c ← count !! Z.to_nat b;
      count_pass min_val rest (<[Z.to_nat b := to_int32 (c + 1)]> count)
  end.

(** [for (i = 1; i < range; i++) count[i] += count[i - 1];] with [todo]
    iterations left, the next one at index [i]. *)
Fixpoint prefix_pass (todo : nat) (i : nat) (count : list Z) : option (list Z) :=
  match todo with
  | O => Some count
  | S todo' =>
      c ← count !! i;
      p ← count !! (i - 1)%nat;
      prefix_pass todo' (S i) (<[i := to_int32 (c + p)]> count)
  end.

(** [for (i = n; i > 0; i--) { idx = i - 1; bucket = ...;
      out_indices[--count[bucket]] = (int32_t)idx; }] *)
Fixpoint place_pass (min_val : double) (data : list double) (i : nat)
    (count out_indices : list Z) : option (list Z * list Z) :=
  match i with
  | O => Some (count, out_indices)
  | S idx =>
      x ← data !! idx;
      b ← bucket_of min_val x;
      c ← count !! Z.to_nat b;
      let c' := to_int32 (c - 1) in
      if (0 <=? c') && (c' <? Z.of_nat (length out_indices)) then
        place_pass min_val data idx
          (<[Z.to_nat b := c']> count)
          (<[Z.to_nat c' := to_int32 (Z.of_nat idx)]> out_indices)
      else None
  end.

(** [counting_sort_apply(data, n, min_val, count, range, out_indices)]
    with [n = length data]; the result is the pair of the counting buffer
    and the index buffer after the call. *)
Definition counting_sort_apply
    (data : list double) (min_val : double) (count : list Z) (range : nat)
    (out_indices : list Z) : option (list Z * list Z) :=
  count ← clear_counts count range;
  count ← count_pass min_val data count;
  count ← prefix_pass (range - 1) 1 count;
  place_pass min_val data (length data) count out_indices.

(** ** Gather *)

(** [buf[i] = v] on a caller-provided buffer. *)
Definition store {A} (buf : list A) (i : nat) (v : A) : option (list A) :=
  if decide (i < length buf)%nat then Some (<[i := v]> buf) else None.

(** [src[idx]] for an [int32_t idx]: a negative index is outside the
    buffer as well. *)
Definition load_at {A} (src : list A) (idx : Z) : option A :=
  if idx <? 0 then None else src !! Z.to_nat idx.

Section Gather.
Context {A : Type}.

(** [out[i] = src[indices[i]];] *)
Definition gather_one (src : list A) (indices : list Z) (i : nat)
    (out : list A) : option (list A) :=
  idx ← indices !! i;
  v ← load_at src idx;
  store out i v.

(** [for (; i < n; i++) out[i] = src[indices[i]];] with [todo = n - i]. *)
Fixpoint gather_tail (src : list A) (indices : list Z) (todo i : nat)
    (out : list A) : option (list A) :=
  match todo with
  | O => Some out
  | S todo' =>
      out ← gather_one src indices i out;
      gather_tail src indices todo' (S i) out
  end.

(** The loop unrolled four times, [for (; i + 4 <= n; i += 4)], followed
    by the loop over what is left.  [fuel] bounds the iterations of the
    unrolled loop; [n] is enough, since [i] grows by four each time. *)
Fixpoint gather_unrolled (fuel : nat) (src : list A) (indices : list Z)
    (n i : nat) (out : list A) : option (list A) :=
  if decide (i + 4 ≤ n)%nat then
    match fuel with
    | O => None
    | S fuel' =>
        out ← gather_one src indices i out;
        out ← gather_one src indices (i + 1) out;
        out ← gather_one src indices (i + 2) out;
        out ← gather_one src indices (i + 3) out;
        gather_unrolled fuel' src indices n (i + 4) out
    end
  else gather_tail src indices (n - i) i out.

Definition gather (src : list A) (indices : list Z) (n : nat)
    (out : list A) : option (list A) :=
  gather_unrolled n src indices n 0 out.
End Gather.

(** [gather_f64(src, indices, n, out)] and [gather_i32(src, indices, n, out)]:
    the same body at the two element types. *)
Definition gather_f64 : list double → list Z → nat → list double → option (list double) :=
  gather.
Definition gather_i32 : list Z → list Z → nat → list Z → option (list Z) :=
  gather.

(** The four output buffers of [gather_batch4]. *)
Record batch4 := {
  b_ts : list double;
  b_sym : list Z;
  b_price : list double;
  b_vol : list Z
}.

(** [for (i = 0; i < n; i++) { idx = indices[i]; ts_out[i] = ts_src[idx];
      sym_out[i] = sym_src[idx]; price_out[i] = price_src[idx];
      vol_out[i] = vol_src[idx]; }] with [todo = n - i]. *)
Fixpoint gather_batch4_loop (src : batch4) (indices : list Z) (todo i : nat)
    (out : batch4) : option batch4 :=
  match todo with
  | O => Some out
  | S todo' =>
      idx ← indices !! i;
      t ← load_at (b_ts src) idx;
      ts_out ← store (b_ts out) i t;
      s ← load_at (b_sym src) idx;
      sym_out ← store (b_sym out) i s;
      p ← load_at (b_price src) idx;
      price_out ← store (b_price out) i p;
      v ← load_at (b_vol src) idx;
      vol_out ← store (b_vol out) i v;
      gather_batch4_loop src indices todo' (S i)
        {| b_ts := ts_out; b_sym := sym_out; b_price := price_out;
           b_vol := vol_out |}
  end.

Definition gather_batch4 (src : batch4) (indices : list Z) (n : nat)
    (out : batch4) : option batch4 :=
  gather_batch4_loop src indices n 0 out.

(** ** Snapshot boundaries *)

(** The loop of [find_snapshot_boundaries] over [sorted_ts[i..n)]. *)
Fixpoint boundary_scan (rest : list double) (i : nat) (prev : double)
    (count : nat) (out_starts : list Z) : option (nat * list Z) :=
  match rest with
  | [] => Some (count, out_starts)
  | x :: rest' =>
      if F64.ne x prev then
        out_starts ← store out_starts count (to_int32 (Z.of_nat i));
        boundary_scan rest' (S i) x (S count) out_starts
      else boundary_scan rest' (S i) prev count out_starts
  end.

(** [find_snapshot_boundaries(sorted_ts, n, out_starts)] with
    [n = length sorted_ts]: the returned count and the buffer after the
    call. *)
Definition find_snapshot_boundaries (sorted_ts : list double)
    (out_starts : list Z) : option (nat * list Z) :=
  match sorted_ts with
  | [] => Some (O, out_starts)
  | t0 :: rest =>
      out_starts ← store out_starts 0 0;
      '(count, out_starts) ← boundary_scan rest 1 t0 1 out_starts;
      out_starts ← store out_starts count
                     (to_int32 (Z.of_nat (length sorted_ts)));
      Some (count, out_starts)
  end.

(** ** Gorilla XOR codec *)

Module Gorilla.

(** [__builtin_clzll] and [__builtin_ctzll] behind the zero test of
    [clz64] and [ctz64], on a 64-bit pattern. *)
Definition clz64 (x : Z) : Z :=
  if x =? 0 then 64 else 63 - Z.log2 x.

Fixpoint ctz_pos (p : positive) : Z :=
  match p with
  | xO q => 1 + ctz_pos q
  | _ => 0
  end.

Definition ctz64 (x : Z) : Z :=
  match x with
  | Zpos p => ctz_pos p
  | _ => 64
  end.

(** The union reinterpretations: a [double] already is its pattern. *)
Definition double_to_bits (v : double) : Z := v.
Definition bits_to_double (bits : Z) : double := bits.

(** [v << s] on [uint64_t].  C defines it for [0 <= s < 64] only; outside,
    the model takes what the shift instructions of x86-64 and AArch64 do,
    which use the count modulo 64. *)
Definition shl64 (v s : Z) : Z := to_uint64 (Z.shiftl v (s mod 64)).

(** *** Encoder *)

Record bit_writer := {
  w_buffer : list Z;
  w_byte_pos : nat;
  w_bit_pos : Z
}.

(** The [WRITE_BIT(b)] macro. *)
Definition WRITE_BIT (b : Z) (w : bit_writer) : option bit_writer :=
  buf ← (if w_bit_pos w =? 0 then store (w_buffer w) (w_byte_pos w) 0
         else Some (w_buffer w));
  buf ← (if b =? 0 then Some buf
         else
           cur ← buf !! w_byte_pos w;
           store buf (w_byte_pos w)
             (Z.lor cur (Z.shiftl 1 (7 - w_bit_pos w))));
  let bit_pos := w_bit_pos w + 1 in
  if bit_pos =? 8
  then Some {| w_buffer := buf; w_byte_pos := S (w_byte_pos w); w_bit_pos := 0 |}
  else Some {| w_buffer := buf; w_byte_pos := w_byte_pos w; w_bit_pos := bit_pos |}.

(** The [WRITE_BITS(val, bits)] macro: [_i] runs from [bits - 1] down
    to 0. *)
Fixpoint WRITE_BITS (v : Z) (bits : nat) (w : bit_writer) : option bit_writer :=
  match bits with
  | O => Some w
  | S i =>
      w ← WRITE_BIT (Z.land (Z.shiftr v (Z.of_nat i)) 1) w;
      WRITE_BITS v i w
  end.

Record enc_state := {
  e_writer : bit_writer;
  e_prev_value : Z;
  e_prev_leading : Z;
  e_prev_trailing : Z
}.

(** The body of the loop over [data[1..n)]. *)
Definition compress_value (st : enc_state) (d : double) : option enc_state :=
  let curr := double_to_bits d in
  let xor_val := Z.lxor curr (e_prev_value st) in
  if xor_val =? 0 then
    w ← WRITE_BIT 0 (e_writer st);
    Some {| e_writer := w; e_prev_value := curr;
            e_prev_leading := e_prev_leading st;
            e_prev_trailing := e_prev_trailing st |}
  else
    w ← WRITE_BIT 1 (e_writer st);
    let leading := clz64 xor_val in
    let trailing := ctz64 xor_val in
    if negb (e_prev_leading st =? -1)
       && (e_prev_leading st <=? leading)
       && (e_prev_trailing st <=? trailing)
    then
      w ← WRITE_BIT 0 w;
      let meaningful := 64 - e_prev_leading st - e_prev_trailing st in
      w ← WRITE_BITS (Z.shiftr xor_val (e_prev_trailing st))
            (Z.to_nat meaningful) w;
      Some {| e_writer := w; e_prev_value := curr;
              e_prev_leading := e_prev_leading st;
              e_prev_trailing := e_prev_trailing st |}
    else
      w ← WRITE_BIT 1 w;
      w ← WRITE_BITS leading 6 w;
      let meaningful := 64 - leading - trailing in
      w ← WRITE_BITS meaningful 6 w;
      w ← WRITE_BITS (Z.shiftr xor_val trailing) (Z.to_nat meaningful) w;
      Some {| e_writer := w; e_prev_value := curr;
              e_prev_leading := leading; e_prev_trailing := trailing |}.

Fixpoint compress_loop (st : enc_state) (rest : list double) : option enc_state :=
  match rest with
  | [] => Some st
  | d :: rest' =>
      st ← compress_value st d;
      compress_loop st rest'
  end.

(** [gorilla_compress_f64(data, n, out_buffer)] with [n = length data]:
    the buffer after the call and the returned byte count. *)
Definition gorilla_compress_f64 (data : list double) (out_buffer : list Z)
    : option (list Z * nat) :=
  match data with
  | [] => Some (out_buffer, O)
  | d0 :: rest =>
      let first := double_to_bits d0 in
      w ← WRITE_BITS first 64
            {| w_buffer := out_buffer; w_byte_pos := 0; w_bit_pos := 0 |};
      st ← compress_loop
             {| e_writer := w; e_prev_value := first;
                e_prev_leading := -1; e_prev_trailing := 0 |} rest;
      let w := e_writer st in
      Some (w_buffer w,
            if 0 <? w_bit_pos w then S (w_byte_pos w) else w_byte_pos w)
  end.

(** *** Decoder *)

Record bit_reader := {
  r_byte_pos : nat;
  r_bit_pos : Z
}.

(** The [READ_BIT()] macro, with [buffer_len = length buffer].  [None] is
    its [return count]: the stream is exhausted. *)
Definition READ_BIT (buffer : list Z) (r : bit_reader) : option (Z * bit_reader) :=
  byte ← buffer !! r_byte_pos r;
  let b := Z.land (Z.shiftr byte (7 - r_bit_pos r)) 1 in
  let bit_pos := r_bit_pos r + 1 in
  if bit_pos =? 8
  then Some (b, {| r_byte_pos := S (r_byte_pos r); r_bit_pos := 0 |})
  else Some (b, {| r_byte_pos := r_byte_pos r; r_bit_pos := bit_pos |}).

(** The [READ_BITS(bits)] macro, entered with [_v = v]. *)
Fixpoint READ_BITS_from (buffer : list Z) (bits : nat) (v : Z) (r : bit_reader)
    : option (Z * bit_reader) :=
  match bits with
  | O => Some (v, r)
  | S bits' =>
      '(b, r) ← READ_BIT buffer r;
      READ_BITS_from buffer bits' (Z.lor (to_uint64 (Z.shiftl v 1)) b) r
  end.

Definition READ_BITS (buffer : list Z) (bits : Z) (r : bit_reader)
    : option (Z * bit_reader) :=
  READ_BITS_from buffer (Z.to_nat bits) 0 r.

Record dec_state := {
  d_reader : bit_reader;
  d_prev_value : Z;
  d_prev_leading : Z;
  d_prev_trailing : Z
}.

(** The body of the [while] loop.  [None]: a read ran past the end and the
    function returned; otherwise the new state, whose [d_prev_value] is the
    value stored at [out_data[count++]]. *)
Definition decompress_value (buffer : list Z) (st : dec_state) : option dec_state :=
  '(same, r) ← READ_BIT buffer (d_reader st);
  if same =? 0 then
    Some {| d_reader := r; d_prev_value := d_prev_value st;
            d_prev_leading := d_prev_leading st;
            d_prev_trailing := d_prev_trailing st |}
  else
    '(use_prev, r) ← READ_BIT buffer r;
    '(meaningful, prev_leading, prev_trailing, r) ←
      (if use_prev =? 0 then
         Some (64 - d_prev_leading st - d_prev_trailing st,
               d_prev_leading st, d_prev_trailing st, r)
       else
         '(leading, r) ← READ_BITS buffer 6 r;
         '(meaningful, r) ← READ_BITS buffer 6 r;
         Some (meaningful, leading, 64 - leading - meaningful, r));
    '(bits, r) ← READ_BITS buffer meaningful r;
    let xor_val := shl64 bits prev_trailing in
    Some {| d_reader := r; d_prev_value := Z.lxor (d_prev_value st) xor_val;
            d_prev_leading := prev_leading;
            d_prev_trailing := prev_trailing |}.

(** [while (count < max_count && byte_pos < buffer_len) { ... }] with
    [todo = max_count - count]: every iteration that completes stores one
    value and increments [count].  The result lists the values stored from
    here on. *)
Fixpoint decompress_loop (buffer : list Z) (todo : nat) (st : dec_state)
    : list double :=
  match todo with
  | O => []
  | S todo' =>
      if decide (r_byte_pos (d_reader st) < length buffer)%nat then
        match decompress_value buffer st with
        | None => []
        | Some st =>
            bits_to_double (d_prev_value st) :: decompress_loop buffer todo' st
        end
      else []
  end.

(** [gorilla_decompress_f64(buffer, buffer_len, out_data, max_count)] with
    [buffer_len = length buffer].  Each store is [out_data[count++] = v],
    so the result lists [out_data[0..count)] in order and the returned
    count is its length. *)
Definition gorilla_decompress_f64 (buffer : list Z) (max_count : nat)
    : list double :=
  if decide (length buffer < 8)%nat then []
  else
    match READ_BITS buffer 64 {| r_byte_pos := 0; r_bit_pos := 0 |} with
    | None => []
    | Some (prev_value, r) =>
        bits_to_double prev_value ::
        decompress_loop buffer (max_count - 1)
          {| d_reader := r; d_prev_value := prev_value;
             d_prev_leading := -1; d_prev_trailing := 0 |}
    end.

End Gorilla.

(** ** Type conversion *)

(** [(int64_t)v]: truncation toward zero, undefined when the truncated
    value does not fit (and for NaN and infinities). *)
Definition cast_int64 (v : F64.value) : option Z :=
  match v with
  | F64.Fin n =>
      let t := Z.quot n F64.unit in
      if (- 2 ^ 63 <=? t) && (t <? 2 ^ 63) then Some t else None
  | _ => None
  end.

(** The pattern of the finite double of sign [neg] and magnitude [mag]
    (in units of 2^-1074, a magnitude that is representable): below 2^52
    units it is subnormal and the fraction field holds it; from there on
    the exponent field is the binade, counted from 1, and the fraction
    field the significand without its leading bit. *)
Definition f64_encode (neg : bool) (mag : Z) : double :=
  (if neg then 2 ^ 63 else 0) +
  (if mag <? 2 ^ 52 then mag
   else
     let j := Z.log2 mag - 52 in
     (j + 1) * 2 ^ 52 + (mag / 2 ^ j - 2 ^ 52)).

(** [(double)x] for an [int64_t x]: the nearest double, ties to even; 0
    converts to +0. *)
Definition f64_of_int64 (x : Z) : double :=
  f64_encode (x <? 0) (F64.round_mag (Z.abs x * F64.unit)).

Arguments f64_encode : simpl never.
Arguments f64_of_int64 : simpl never.

Section Convert.
Context {A B : Type} (conv : A → option B).

(** [dst[i] = (T)src[i];] *)
Definition convert_one (src : list A) (i : nat) (dst : list B) : option (list B) :=
  x ← src !! i;
  y ← conv x;
  store dst i y.

(** [for (; i < n; i++) dst[i] = (T)src[i];] with [todo = n - i]. *)
Fixpoint convert_tail (src : list A) (todo i : nat) (dst : list B)
    : option (list B) :=
  match todo with
  | O => Some dst
  | S todo' =>
      dst ← convert_one src i dst;
      convert_tail src todo' (S i) dst
  end.

(** [for (; i + 4 <= n; i += 4) { four conversions }] followed by the loop
    over what is left; [fuel] bounds the iterations of the unrolled loop
    and [n] is enough. *)
Fixpoint convert_unrolled (fuel : nat) (src : list A) (n i : nat) (dst : list B)
    : option (list B) :=
  if decide (i + 4 ≤ n)%nat then
    match fuel with
    | O => None
    | S fuel' =>
        dst ← convert_one src i dst;
        dst ← convert_one src (i + 1) dst;
        dst ← convert_one src (i + 2) dst;
        dst ← convert_one src (i + 3) dst;
        convert_unrolled fuel' src n (i + 4) dst
    end
  else convert_tail src (n - i) i dst.

Definition convert (src : list A) (dst : list B) (n : nat) : option (list B) :=
  convert_unrolled n src n 0 dst.
End Convert.

(** [int64_to_f64(src, dst, n)] *)
Definition int64_to_f64 (src : list Z) (dst : list double) (n : nat)
    : option (list double) :=
  convert (λ x, Some (f64_of_int64 x)) src dst n.

(** [f64_to_int64(src, dst, n)] *)
Definition f64_to_int64 (src : list double) (dst : list Z) (n : nat)
    : option (list Z) :=
  convert (λ d, cast_int64 (F64.decode d)) src dst n.

(** ** Filters *)

(** [(uint32_t)x] *)
Definition to_uint32 (x : Z) : Z := x mod 2 ^ 32.

(** [if (data[i] > threshold) out_indices[count++] = i;] on the pair of
    [count] and the index buffer. *)
Definition filter_gt_one (data : list double) (threshold : double) (i : nat)
    (st : nat * list Z) : option (nat * list Z) :=
  x ← data !! i;
  if F64.gt x threshold then
    out_indices ← store st.2 st.1 (to_uint32 (Z.of_nat i));
    Some (S st.1, out_indices)
  else Some st.

Fixpoint filter_gt_tail (data : list double) (threshold : double)
    (todo i : nat) (st : nat * list Z) : option (nat * list Z) :=
  match todo with
  | O => Some st
  | S todo' =>
      st ← filter_gt_one data threshold i st;
      filter_gt_tail data threshold todo' (S i) st
  end.

Fixpoint filter_gt_unrolled (fuel : nat) (data : list double)
    (threshold : double) (n i : nat) (st : nat * list Z)
    : option (nat * list Z) :=
  if decide (i + 4 ≤ n)%nat then
    match fuel with
    | O => None
    | S fuel' =>
        st ← filter_gt_one data threshold i st;
        st ← filter_gt_one data threshold (i + 1) st;
        st ← filter_gt_one data threshold (i + 2) st;
        st ← filter_gt_one data threshold (i + 3) st;
        filter_gt_unrolled fuel' data threshold n (i + 4) st
    end
  else filter_gt_tail data threshold (n - i) i st.

(** [filter_f64_gt(data, n, threshold, out_indices)] with
    [n = length data]: the returned count and the buffer after the call. *)
Definition filter_f64_gt (data : list double) (threshold : double)
    (out_indices : list Z) : option (nat * list Z) :=
  filter_gt_unrolled (length data) data threshold (length data) 0
    (O, out_indices).

(** The loop of [filter_price_volume]; [volumes[i]] is read only when the
    price passed ([&&]). *)
Fixpoint filter_price_volume_loop (prices : list double) (volumes : list Z)
    (p_thresh : double) (v_thresh : Z) (todo i : nat) (st : nat * list Z)
    : option (nat * list Z) :=
  match todo with
  | O => Some st
  | S todo' =>
      p ← prices !! i;
      st ← (if F64.gt p p_thresh then
              v ← volumes !! i;
              if v_thresh <? v then
                out_indices ← store st.2 st.1 (to_uint32 (Z.of_nat i));
                Some (S st.1, out_indices)
              else Some st
            else Some st);
      filter_price_volume_loop prices volumes p_thresh v_thresh todo' (S i) st
  end.

(** [filter_price_volume(prices, volumes, n, p_thresh, v_thresh,
    out_indices)] with [n = length prices]. *)
Definition filter_price_volume (prices : list double) (volumes : list Z)
    (p_thresh : double) (v_thresh : Z) (out_indices : list Z)
    : option (nat * list Z) :=
  filter_price_volume_loop prices volumes p_thresh v_thresh (length prices) 0
    (O, out_indices).

(** ** Min/max *)

(** [minmax_f64(data, n, out_min, out_max)] with [n = length data]: the
    two output cells.  The scan is the one of
    [counting_sort_argsort_f64]. *)
Definition minmax_f64 (data : list double) : double * double :=
  match data with
  | [] => (0, 0)
  | d0 :: rest => minmax_scan d0 rest
  end.

(** ** Binary search *)

(** [while (lo < hi) { mid = lo + (hi - lo) / 2;
      if (data[mid] < target) lo = mid + 1; else hi = mid; }].  [fuel]
    bounds the iterations; the interval shrinks at each one, so its
    length is enough. *)
Fixpoint binary_search_loop (fuel : nat) (data : list Z) (target : Z)
    (lo hi : nat) : option nat :=
  if decide (lo < hi)%nat then
    match fuel with
    | O => None
    | S fuel' =>
        let mid := (lo + (hi - lo) / 2)%nat in
        v ← data !! mid;
        if v <? target
        then binary_search_loop fuel' data target (mid + 1) hi
        else binary_search_loop fuel' data target lo mid
    end
  else Some lo.

(** [binary_search_i64(data, n, target)] with [n = length data]. *)
Definition binary_search_i64 (data : list Z) (target : Z) : option nat :=
  binary_search_loop (length data) data target 0 (length data).

(** [for (i = 0; i < target_count; i++)
      results[i] = binary_search_i64(data, n, targets[i]);] *)
Fixpoint binary_search_batch_loop (data targets : list Z) (todo i : nat)
    (results : list nat) : option (list nat) :=
  match todo with
  | O => Some results
  | S todo' =>
      t ← targets !! i;
      r ← binary_search_i64 data t;
      results ← store results i r;
      binary_search_batch_loop data targets todo' (S i) results
  end.

(** [binary_search_batch_i64(data, n, targets, target_count, results)] *)
Definition binary_search_batch_i64 (data targets : list Z) (target_count : nat)
    (results : list nat) : option (list nat) :=
  binary_search_batch_loop data targets target_count 0 results.

(** ** Aggregates

    The two kernels below add doubles ([+=]) and one divides.  Their
    index arithmetic, comparisons and stores are modelled as written; the
    rounded sum and quotient of two doubles are left to the parameters
    [fadd] and [fdiv_size], which stand for IEEE-754 addition and for
    [sum / n] with [n] converted from [size_t]. *)

Record AggregateResult := {
  a_sum : double;
  a_min : double;
  a_max : double;
  a_avg : double;
  a_count : Z
}.

Record OHLCV := {
  o_open : double;
  o_high : double;
  o_low : double;
  o_close : double;
  o_volume : double
}.

Section Aggregates.
Variable fadd : double → double → double.
Variable fdiv_size : double → Z → double.

(** [sum += v; if (v < min) min = v; if (v > max) max = v;] *)
Definition aggregate_step (acc : double * double * double) (v : double)
    : double * double * double :=
  let '(sum, min_val, max_val) := acc in
  (fadd sum v,
   if F64.lt v min_val then v else min_val,
   if F64.gt v max_val then v else max_val).

(** [aggregate_f64(data, n, out)] with [n = length data]: the struct
    written through [out].  The loop starts at row 0, so the first row is
    compared with itself. *)
Definition aggregate_f64 (data : list double) : AggregateResult :=
  match data with
  | [] => {| a_sum := 0; a_min := 0; a_max := 0; a_avg := 0; a_count := 0 |}
  | d0 :: _ =>
      let '(sum, min_val, max_val) := fold_left aggregate_step data (0, d0, d0) in
      {| a_sum := sum; a_min := min_val; a_max := max_val;
         a_avg := fdiv_size sum (Z.of_nat (length data));
         a_count := to_uint32 (Z.of_nat (length data)) |}
  end.

(** [for (i = start; i < end; i++) {
      if (prices[i] > out[b].high) out[b].high = prices[i];
      if (prices[i] < out[b].low) out[b].low = prices[i];
      out[b].volume += volumes[i]; }] on the cell [out[b]], with
    [todo = end - i].  The output array is taken not to overlap the two
    columns. *)
Fixpoint ohlcv_bucket_loop (prices volumes : list double) (todo i : nat)
    (cell : OHLCV) : option OHLCV :=
  match todo with
  | O => Some cell
  | S todo' =>
      p ← prices !! i;
      let high := if F64.gt p (o_high cell) then p else o_high cell in
      let low := if F64.lt p (o_low cell) then p else o_low cell in
      v ← volumes !! i;
      ohlcv_bucket_loop prices volumes todo' (S i)
        {| o_open := o_open cell; o_high := high; o_low := low;
           o_close := o_close cell; o_volume := fadd (o_volume cell) v |}
  end.

(** [for (b = 0; b < buckets; b++) { ... }] with [todo = buckets - b];
    [start], [end] and [end - 1] are [size_t]. *)
Fixpoint ohlcv_loop (prices volumes : list double) (n bucket_size : Z)
    (todo b : nat) (out : list OHLCV) : option (list OHLCV) :=
  match todo with
  | O => Some out
  | S todo' =>
      let start := to_uint64 (Z.of_nat b * bucket_size) in
      let end0 := to_uint64 (start + bucket_size) in
      let end_ := if n <? end0 then n else end0 in
      first ← prices !! Z.to_nat start;
      _ ← out !! b;
      last ← prices !! Z.to_nat (to_uint64 (end_ - 1));
      cell ← ohlcv_bucket_loop prices volumes (Z.to_nat (end_ - start))
                (Z.to_nat start)
                {| o_open := first; o_high := first; o_low := first;
                   o_close := last; o_volume := 0 |};
      out ← store out b cell;
      ohlcv_loop prices volumes n bucket_size todo' (S b) out
  end.

(** [ohlcv_aggregate(prices, volumes, n, bucket_size, out, out_count)]
    with [n = length prices]: the output array and [*out_count] after the
    call. *)
Definition ohlcv_aggregate (prices volumes : list double) (bucket_size : Z)
    (out : list OHLCV) : option (list OHLCV * Z) :=
  let n := Z.of_nat (length prices) in
  if (n =? 0) || (bucket_size =? 0) then Some (out, 0)
  else
    let buckets := to_uint64 (n + bucket_size - 1) / bucket_size in
    out ← ohlcv_loop prices volumes n bucket_size (Z.to_nat buckets) O out;
    Some (out, buckets).

End Aggregates.

(** * Specification vocabulary *)

(** The value of a finite double, in units of 2^-1074. *)
Definition fin_val (d : double) : Z :=
  match F64.decode d with F64.Fin v => v | _ => 0 end.

Arguments fin_val : simpl never.

Definition all_finite (data : list double) : bool :=
  forallb F64.is_finite data.

(** The largest double below 2^64, 2^64 - 2^11, in units of 2^-1074. *)
Definition max_spread : Z := (2 ^ 64 - 2 ^ 11) * F64.unit.

(** No two timestamps of the column are further apart than [max_spread]:
    the conversion of [max - min] to [size_t] is then defined. *)
Definition spread_fits (data : list double) : bool :=
  forallb (λ x, forallb (λ y, fin_val x - fin_val y <=? max_spread) data) data.

(** ** Buckets and slots of the counting sort *)

(** [bs] lists the counting-array index of every row of [data]. *)
Definition bucketed (min_val : double) (data : list double) (bs : list nat) : Prop :=
  Forall2 (λ x b, bucket_of min_val x = Some (Z.of_nat b)) data bs.

(** How many buckets of [bs] satisfy [P]. *)
Fixpoint cnt (P : nat → bool) (bs : list nat) : nat :=
  match bs with
  | [] => O
  | b :: bs' => ((if P b then 1 else 0) + cnt P bs')%nat
  end.

Definition cnt_eq (bs : list nat) (k : nat) : nat := cnt (λ b, b =? k)%nat bs.
Definition cnt_lt (bs : list nat) (k : nat) : nat := cnt (λ b, b <? k)%nat bs.

(** Where a stable sort by bucket puts row [j], whose bucket is [b]: after
    the rows of smaller buckets and after the earlier rows of bucket [b]. *)
Definition slot (bs : list nat) (j b : nat) : nat :=
  (cnt_lt bs b + cnt_eq (take j bs) b)%nat.

(** The identity permutation [0; 1; ...; n - 1] as [int32_t] indices. *)
Definition iota (n : nat) : list Z := Z.of_nat <$> seq 0 n.

(** The column of the running example, [30; 10; 20; 10], as doubles. *)
Definition ts_example : list double :=
  [0x403E000000000000; 0x4024000000000000; 0x4034000000000000;
   0x4024000000000000].

(** ** Snapshots *)

(** The column is sorted ascending: every earlier row is [<=] every later
    one (a row is also compared with itself, which rules out NaN). *)
Definition ascending (ts : list double) : Prop :=
  ∀ (i j : nat) (x y : double),
    (i ≤ j)%nat -> ts !! i = Some x -> ts !! j = Some y -> F64.le x y = true.

(** [snapshots ts s bounds]: starting at row [s], the offsets [bounds] cut
    the rest of the column into consecutive non-empty half-open intervals
    [s, s1), [s1, s2), ... that end exactly at the row count; the rows of
    one interval all equal its first row, and the first row of the next
    interval differs from it. *)
Fixpoint snapshots (ts : list double) (s : nat) (bounds : list nat) : Prop :=
  match bounds with
  | [] => s = length ts
  | s' :: bounds' =>
      (s < s')%nat ∧
      (∀ (p : nat) (x v : double),
         (s ≤ p < s')%nat -> ts !! p = Some x -> ts !! s = Some v ->
         F64.eq x v = true) ∧
      (∀ x y : double,
         ts !! s = Some x -> ts !! s' = Some y -> F64.ne y x = true) ∧
      snapshots ts s' bounds'
  end.

(** The sorted column of the running example, [10; 10; 20; 30]. *)
Definition sorted_example : list double :=
  [0x4024000000000000; 0x4024000000000000; 0x4034000000000000;
   0x403E000000000000].

(** ** Columns used with the codec *)

(** [1.0; 1.0; 2.0] *)
Definition codec_scenario : list double :=
  [0x3FF0000000000000; 0x3FF0000000000000; 0x4000000000000000].

(** [1.0; -1.0000000000000002]: the two patterns differ in bit 63 and in
    bit 0, so their XOR has neither leading nor trailing zeros. *)
Definition full_width_pair : list double :=
  [0x3FF0000000000000; 0xBFF0000000000001].

(** [0.0; 2.0000000000000004; -2.000000000000001]: the second XOR is
    0x4000000000000001 (one leading zero, no trailing zero), the third is
    0x8000000000000002 (no leading zero, one trailing zero), so that
    neither fits the window of the one before. *)
Definition wide_triple : list double :=
  [0; 0x4000000000000001; 0xC000000000000003].

(** NaN, +0, -0, +Infinity, -Infinity and two ordinary values. *)
Definition special_values : list double :=
  [0x7FF8000000000000; 0; 0x8000000000000000; 0x7FF0000000000000;
   0xFFF0000000000000; 0x400921FB54442D18; 0x400921FB54442D18].

(** Every entry is a 64-bit pattern. *)
Definition valid_patterns (data : list double) : Prop :=
  Forall (λ d, 0 <= d < 2 ^ 64) data.

(** The position of a bit writer, in bits from the start of the buffer. *)
Definition w_pos (w : Gorilla.bit_writer) : Z :=
  8 * Z.of_nat (Gorilla.w_byte_pos w) + Gorilla.w_bit_pos w.

(** The remembered block description is absent ([-1], with 0) or a pair of
    zero counts of a 64-bit pattern. *)
Definition descriptor_ok (leading trailing : Z) : Prop :=
  (leading = -1 ∧ trailing = 0) ∨
  (0 <= leading ∧ 0 <= trailing ∧ leading + trailing <= 63).

(** ** The bit stream of the codec *)

(** Bit [p] of the stream held by a byte buffer: bytes in order, each from
    its most significant bit down. *)
Definition stream_bit (buf : list Z) (p : nat) : option bool :=
  byte ← buf !! (p / 8)%nat;
  Some (Z.testbit byte (7 - Z.of_nat (p mod 8))).

(** The [n] low bits of [v], most significant first. *)
Fixpoint bits_msb (v : Z) (n : nat) : list bool :=
  match n with
  | O => []
  | S i => Z.testbit v (Z.of_nat i) :: bits_msb v i
  end.

(** The writer has written exactly the bits [bs]: they are in the buffer,
    the writer stands after them, and the bits of the current byte that
    are not written yet are clear. *)
Definition written (w : Gorilla.bit_writer) (bs : list bool) : Prop :=
  0 <= Gorilla.w_bit_pos w < 8 ∧
  w_pos w = Z.of_nat (length bs) ∧
  (∀ p b, bs !! p = Some b -> stream_bit (Gorilla.w_buffer w) p = Some b) ∧
  (0 < Gorilla.w_bit_pos w ->
   ∃ c, Gorilla.w_buffer w !! Gorilla.w_byte_pos w = Some c ∧
        ∀ j, 0 <= j < 8 - Gorilla.w_bit_pos w -> Z.testbit c j = false).

(** The reader stands at bit [p] of the stream. *)
Definition reader_at (r : Gorilla.bit_reader) (p : nat) : Prop :=
  0 <= Gorilla.r_bit_pos r < 8 ∧
  8 * Z.of_nat (Gorilla.r_byte_pos r) + Gorilla.r_bit_pos r = Z.of_nat p.

(** The XOR of two successive patterns has neither a leading nor a
    trailing zero: its block is 64 bits long. *)
Definition full_width (x : Z) : bool :=
  (Gorilla.clz64 x =? 0) && (Gorilla.ctz64 x =? 0).

(** No two successive values of [prev :: rest] have a full-width XOR. *)
Fixpoint no_full_width (prev : double) (rest : list double) : bool :=
  match rest with
  | [] => true
  | d :: rest' => negb (full_width (Z.lxor d prev)) && no_full_width d rest'
  end.

(** The decoder remembers what the encoder remembers. *)
Definition states_match (e : Gorilla.enc_state) (d : Gorilla.dec_state) : Prop :=
  Gorilla.d_prev_value d = Gorilla.e_prev_value e ∧
  Gorilla.d_prev_leading d = Gorilla.e_prev_leading e ∧
  Gorilla.d_prev_trailing d = Gorilla.e_prev_trailing e.

(** The column has no two successive values with a full-width XOR. *)
Definition narrow_blocks (data : list double) : bool :=
  match data with
  | [] => true
  | d0 :: rest => no_full_width d0 rest
  end.

(** A block description remembered after a block shorter than 64 bits. *)
Definition descriptor_narrow (leading trailing : Z) : Prop :=
  (leading = -1 ∧ trailing = 0) ∨
  (0 <= leading ∧ 0 <= trailing ∧ 1 <= leading + trailing <= 63).

(** The bits [bs] stand in the stream of [buf] from position [p] on. *)
Definition stream_has (buf : list Z) (p : nat) (bs : list bool) : Prop :=
  ∀ k b, bs !! k = Some b -> stream_bit buf (p + k) = Some b.

(** ** The progress of the decoder *)

(** The position of a bit reader, in bits from the start of the buffer. *)
Definition r_pos (r : Gorilla.bit_reader) : Z :=
  8 * Z.of_nat (Gorilla.r_byte_pos r) + Gorilla.r_bit_pos r.

(** The run of [Gorilla.decompress_loop], each stored value paired with the
    number of bits the decoder had read when it stored it. *)
Fixpoint decompress_progress (buffer : list Z) (todo : nat)
    (st : Gorilla.dec_state) : list (double * Z) :=
  match todo with
  | O => []
  | S todo' =>
      if decide (Gorilla.r_byte_pos (Gorilla.d_reader st) < length buffer)%nat then
        match Gorilla.decompress_value buffer st with
        | None => []
        | Some st' =>
            (Gorilla.bits_to_double (Gorilla.d_prev_value st'),
             r_pos (Gorilla.d_reader st'))
              :: decompress_progress buffer todo' st'
        end
      else []
  end.

(** The run of [Gorilla.gorilla_decompress_f64] on a buffer: the values it
    stores, in order, each with the number of bits read so far. *)
Definition gorilla_decompress_progress (buffer : list Z) (max_count : nat)
    : list (double * Z) :=
  if decide (length buffer < 8)%nat then []
  else
    match Gorilla.READ_BITS buffer 64
            {| Gorilla.r_byte_pos := 0; Gorilla.r_bit_pos := 0 |} with
    | None => []
    | Some (prev_value, r) =>
        (Gorilla.bits_to_double prev_value, r_pos r)
          :: decompress_progress buffer (max_count - 1)
               {| Gorilla.d_reader := r; Gorilla.d_prev_value := prev_value;
                  Gorilla.d_prev_leading := -1; Gorilla.d_prev_trailing := 0 |}
    end.

(** The values of a run that were stored before the decoder had read more
    than [limit] bits: the values decoded so far when the input ends
    there. *)
Fixpoint complete_within (limit : Z) (progress : list (double * Z))
    : list double :=
  match progress with
  | [] => []
  | (v, p) :: rest =>
      if p <=? limit then v :: complete_within limit rest else []
  end.

(** ** Vocabulary for the other kernels *)

Definition is_nan (d : double) : bool :=
  match F64.decode d with F64.NaN => true | _ => false end.

Arguments is_nan : simpl never.

(** Row [i] exists and its value is greater than the threshold. *)
Definition exceeds_at (data : list double) (threshold : double) (i : nat) : bool :=
  match data !! i with
  | Some x => F64.gt x threshold
  | None => false
  end.

(** Row [i] exists in the volume column and is greater than the
    threshold. *)
Definition volume_exceeds_at (volumes : list Z) (v_thresh : Z) (i : nat) : bool :=
  match volumes !! i with
  | Some v => v_thresh <? v
  | None => false
  end.

(** Row [i] passes both thresholds. *)
Definition passes_at (prices : list double) (volumes : list Z)
    (p_thresh : double) (v_thresh : Z) (i : nat) : bool :=
  exceeds_at prices p_thresh i && volume_exceeds_at volumes v_thresh i.

(** The rows in [first, first + len) that pass [keep], in increasing
    order. *)
Definition rows_where (keep : nat → bool) (first len : nat) : list nat :=
  filter (λ i, keep i = true) (seq first len).

(** An [int64_t] column in non-decreasing order. *)
Definition sorted_i64 (data : list Z) : Prop :=
  ∀ (i j : nat) (x y : Z),
    (i ≤ j)%nat -> data !! i = Some x -> data !! j = Some y -> x <= y.

(** Every entry is an [int64_t]. *)
Definition valid_i64 (data : list Z) : Prop :=
  Forall (λ x, - 2 ^ 63 <= x < 2 ^ 63) data.

(** A magnitude (in units of 2^-1074) that a finite double can have:
    below 2^52 units every integer, above that the multiples of the
    spacing of its binade. *)
Definition representable (m : Z) : Prop :=
  0 <= m < 2 ^ 2098 ∧ (m < 2 ^ 52 ∨ m mod 2 ^ (Z.log2 m - 52) = 0).

(** No row is NaN (infinities are allowed). *)
Definition no_nan (data : list double) : bool :=
  forallb (λ d, negb (is_nan d)) data.

(** [a <= b] on the values of doubles. *)
Definition value_le (a b : F64.value) : bool :=
  F64.value_lt a b || F64.value_eq a b.

(** How many rows of the column are below [target]. *)
Definition rows_below (data : list Z) (target : Z) : nat :=
  length (filter (λ x, x < target) data).

(** Every row is [<=] the next one. *)
Fixpoint non_decreasing (l : list Z) : bool :=
  match l with
  | x :: l' =>
      match l' with
      | y :: _ => (x <=? y) && non_decreasing l'
      | [] => true
      end
  | [] => true
  end.

(** Every timestamp is a finite whole number (a millisecond count, say). *)
Definition whole_numbers (data : list double) : bool :=
  forallb (λ d, F64.is_finite d && (fin_val d mod F64.unit =? 0)) data.

(** No two timestamps are further apart than 2^53. *)
Definition spread_small (data : list double) : bool :=
  forallb (λ x, forallb (λ y, fin_val x - fin_val y <=? 2 ^ 53 * F64.unit) data)
    data.

(** Row [i] differs ([!=]) from the row before it. *)
Definition changes_at (ts : list double) (i : nat) : bool :=
  match ts !! (i - 1)%nat, ts !! i with
  | Some a, Some b => F64.ne b a
  | _, _ => false
  end.

(** ** The bytes of the Gorilla encoder *)

(** The bytes the writer has started: the returned length if the encoder
    stopped here. *)
Definition bytes_used (w : Gorilla.bit_writer) : nat :=
  if 0 <? Gorilla.w_bit_pos w then S (Gorilla.w_byte_pos w)
  else Gorilla.w_byte_pos w.

(** The writer is inside its buffer. *)
Definition writer_ok (w : Gorilla.bit_writer) : Prop :=
  0 <= Gorilla.w_bit_pos w < 8 ∧
  (bytes_used w ≤ length (Gorilla.w_buffer w))%nat.

(** From [w] to [w'] the writer only moved forward, and every byte it has
    not started yet is as it was. *)
Definition keeps_rest (w w' : Gorilla.bit_writer) : Prop :=
  writer_ok w ->
  writer_ok w' ∧ (bytes_used w ≤ bytes_used w')%nat ∧
  length (Gorilla.w_buffer w') = length (Gorilla.w_buffer w) ∧
  ∀ k, (bytes_used w' ≤ k)%nat ->
       Gorilla.w_buffer w' !! k = Gorilla.w_buffer w !! k.

(** ** Buckets of [ohlcv_aggregate] *)

(** The rows of bucket [b]: [bucket_size] rows from row [b * bucket_size],
    fewer in the last bucket. *)
Definition bucket_rows (l : list double) (bucket_size b : nat) : list double :=
  take bucket_size (drop (b * bucket_size) l).

(** Open, high, low, close and summed volume of one bucket. *)
Definition ohlcv_cell (fadd : double → double → double)
    (prices volumes : list double) : OHLCV :=
  {| o_open := default 0 (head prices);
     o_high := (minmax_f64 prices).2;
     o_low := (minmax_f64 prices).1;
     o_close := default 0 (last prices);
     o_volume := fold_left fadd volumes 0 |}.

(** The number of buckets: [n / bucket_size] rounded up. *)
Definition bucket_count (n bucket_size : nat) : nat :=
  ((n + bucket_size - 1) / bucket_size)%nat.

(** * Facts about the binary64 model *)

Module F64Facts.
Import F64.

Lemma round_mag_small n : Z.log2 n - 52 <= 0 -> round_mag n = n.
Proof.
  intros H. unfold round_mag.
  destruct (Z.leb_spec (Z.log2 n - 52) 0); [done | lia].
Qed.

Lemma round_mag_big n :
  0 < Z.log2 n - 52 ->
  round_mag n = round_quot (Z.log2 n - 52) n * 2 ^ (Z.log2 n - 52).
Proof.
  intros H. unfold round_mag.
  destruct (Z.leb_spec (Z.log2 n - 52) 0); [lia | done].
Qed.

(** The rounded quotient is the quotient or its successor, and the
    quotient itself when the division is exact. *)
Lemma round_quot_bounds k n :
  0 < k -> n / 2 ^ k <= round_quot k n <= n / 2 ^ k + 1.
Proof. intros Hk. unfold round_quot. repeat case_match; lia. Qed.

Lemma round_quot_exact k n :
  0 < k -> n mod 2 ^ k = 0 -> round_quot k n = n / 2 ^ k.
Proof.
  intros Hk Hr. unfold round_quot. rewrite Hr.
  assert (0 < 2 ^ (k - 1)) by (apply Z.pow_pos_nonneg; lia).
  destruct (Z.ltb_spec 0 (2 ^ (k - 1))); [done | lia].
Qed.

Lemma round_quot_mono k a b :
  0 < k -> a <= b -> round_quot k a <= round_quot k b.
Proof.
  intros Hk Hab.
  assert (Hp : 0 < 2 ^ k) by (apply Z.pow_pos_nonneg; lia).
  pose proof (Z.div_le_mono a b (2 ^ k) Hp Hab) as Hq.
  destruct (Z.eq_dec (a / 2 ^ k) (b / 2 ^ k)) as [Heq | Hne].
  - assert (Hr : a mod 2 ^ k <= b mod 2 ^ k).
    { rewrite !Z.mod_eq by lia. rewrite Heq. lia. }
    unfold round_quot. rewrite Heq.
    repeat case_match; lia.
  - pose proof (round_quot_bounds k a Hk). pose proof (round_quot_bounds k b Hk).
    lia.
Qed.

Lemma log2_bounds n : 0 < n -> 2 ^ Z.log2 n <= n < 2 * 2 ^ Z.log2 n.
Proof.
  intros H. pose proof (Z.log2_spec n H) as Hs.
  rewrite Z.pow_succ_r in Hs by apply Z.log2_nonneg. lia.
Qed.

(** Above 2^53 units the quotient is a 53-bit significand. *)
Lemma significand_bounds n k :
  0 < n -> k = Z.log2 n - 52 -> 0 < k -> 2 ^ 52 <= n / 2 ^ k < 2 ^ 53.
Proof.
  intros Hn -> Hk.
  pose proof (log2_bounds n Hn) as [Hlo Hhi].
  assert (Hp : 2 ^ Z.log2 n = 2 ^ 52 * 2 ^ (Z.log2 n - 52)).
  { rewrite <- Z.pow_add_r by lia. f_equal. lia. }
  assert (0 < 2 ^ (Z.log2 n - 52)) by (apply Z.pow_pos_nonneg; lia).
  split.
  - apply Z.div_le_lower_bound; lia.
  - apply Z.div_lt_upper_bound; lia.
Qed.

Lemma log2_pos_of_big n : 0 < Z.log2 n - 52 -> 0 < n.
Proof.
  intros H. destruct (Z.lt_trichotomy n 0) as [Hn | [-> | Hn]]; [| simpl in H; lia | done].
  rewrite Z.log2_nonpos in H; lia.
Qed.

Lemma round_mag_nonneg n : 0 <= n -> 0 <= round_mag n.
Proof.
  intros Hn. destruct (Z.le_gt_cases (Z.log2 n - 52) 0) as [Hk | Hk].
  - by rewrite round_mag_small.
  - rewrite round_mag_big by done.
    pose proof (log2_pos_of_big n Hk) as Hp.
    pose proof (significand_bounds n _ Hp eq_refl Hk).
    pose proof (round_quot_bounds (Z.log2 n - 52) n Hk).
    assert (0 < 2 ^ (Z.log2 n - 52)) by (apply Z.pow_pos_nonneg; lia).
    nia.
Qed.

(** Rounding is monotone. *)
Lemma round_mag_mono a b : 0 <= a <= b -> round_mag a <= round_mag b.
Proof.
  intros [Ha Hab].
  destruct (Z.eq_dec a 0) as [-> | Hne].
  { rewrite (round_mag_small 0) by (simpl; lia). apply round_mag_nonneg; lia. }
  assert (Hpa : 0 < a) by lia. assert (Hpb : 0 < b) by lia.
  pose proof (Z.log2_le_mono a b Hab) as Hl.
  destruct (Z.le_gt_cases (Z.log2 b - 52) 0) as [Hkb | Hkb].
  { rewrite !round_mag_small by lia. done. }
  rewrite (round_mag_big b) by done.
  pose proof (significand_bounds b _ Hpb eq_refl Hkb) as Hbb.
  pose proof (round_quot_bounds _ b Hkb) as Hqb.
  assert (Hpkb : 0 < 2 ^ (Z.log2 b - 52)) by (apply Z.pow_pos_nonneg; lia).
  destruct (Z.le_gt_cases (Z.log2 a - 52) 0) as [Hka | Hka].
  { rewrite round_mag_small by lia.
    pose proof (log2_bounds a Hpa) as [_ Hhi].
    assert (2 ^ Z.log2 a <= 2 ^ 52) by (apply Z.pow_le_mono_r; lia).
    assert (2 ^ 1 <= 2 ^ (Z.log2 b - 52)) by (apply Z.pow_le_mono_r; lia).
    change (2 ^ 1) with 2 in *. nia. }
  rewrite (round_mag_big a) by done.
  destruct (Z.eq_dec (Z.log2 a) (Z.log2 b)) as [Heq | Hneq].
  - rewrite Heq. apply Z.mul_le_mono_nonneg_r; [lia |].
    apply round_quot_mono; lia.
  - pose proof (significand_bounds a _ Hpa eq_refl Hka) as Hba.
    pose proof (round_quot_bounds _ a Hka) as Hqa.
    assert (Hpka : 0 < 2 ^ (Z.log2 a - 52)) by (apply Z.pow_pos_nonneg; lia).
    assert (H : 2 ^ (Z.log2 a - 52 + 1) <= 2 ^ (Z.log2 b - 52))
      by (apply Z.pow_le_mono_r; lia).
    rewrite Z.pow_add_r in H by lia. change (2 ^ 1) with 2 in H.
    nia.
Qed.

Lemma unit_pos : 0 < unit.
Proof. unfold unit, ulp_exp. apply Z.pow_pos_nonneg; lia. Qed.

Lemma round_nonneg n :
  0 <= n ->
  round n = if overflow_threshold <=? round_mag n then Inf false
            else Fin (round_mag n).
Proof.
  intros Hn. unfold round. rewrite Z.abs_eq by done.
  destruct (Z.eq_dec n 0) as [-> | Hne].
  - reflexivity.
  - rewrite Z.sgn_pos by lia. rewrite Z.mul_1_l.
    destruct (Z.ltb_spec n 0); [lia | done].
Qed.

(** A difference that converts to [size_t] dominates the conversions of
    all smaller non-negative differences. *)
Lemma cast_round_mono a b rb :
  0 <= a <= b ->
  cast_size_t (round b) = Some rb ->
  exists ra, cast_size_t (round a) = Some ra /\ 0 <= ra <= rb.
Proof.
  intros [Ha Hab] Hb.
  pose proof (round_mag_mono a b (conj Ha Hab)) as Hm.
  pose proof (round_mag_nonneg a Ha) as Hna.
  pose proof unit_pos as Hu.
  rewrite round_nonneg in Hb |- * by lia.
  destruct (Z.leb_spec overflow_threshold (round_mag b)) as [| Hob]; [done |].
  destruct (Z.leb_spec overflow_threshold (round_mag a)); [lia |].
  simpl in Hb |- *.
  rewrite Z.quot_div_nonneg in Hb |- * by lia.
  pose proof (Z.div_le_mono _ _ unit Hu Hm) as Hq.
  pose proof (Z.div_pos (round_mag a) unit Hna Hu) as Hqa.
  destruct (Z.leb_spec 0 (round_mag b / unit)); [| done].
  destruct (Z.ltb_spec (round_mag b / unit) (2 ^ 64)); [| done].
  simpl in Hb. injection Hb as <-.
  exists (round_mag a / unit).
  destruct (Z.leb_spec 0 (round_mag a / unit)); [| lia].
  destruct (Z.ltb_spec (round_mag a / unit) (2 ^ 64)); [| lia].
  simpl. split; [done | lia].
Qed.

Lemma cast_round_floor n r :
  0 <= n -> cast_size_t (round n) = Some r ->
  exists m, round n = Fin m /\ r = m / unit.
Proof.
  intros Hn Hr. rewrite round_nonneg in Hr |- * by done.
  pose proof (round_mag_nonneg n Hn). pose proof unit_pos.
  destruct (Z.leb_spec overflow_threshold (round_mag n)); [done |].
  simpl in Hr. rewrite Z.quot_div_nonneg in Hr by lia.
  exists (round_mag n). split; [done |].
  destruct (_ && _); [by injection Hr | done].
Qed.

(** A double that converts to [size_t] is at most 2^64 - 2: the increment
    of the converted value does not wrap. *)
Lemma cast_round_no_wrap n r :
  0 <= n -> cast_size_t (round n) = Some r -> to_uint64 (r + 1) = r + 1.
Proof.
  intros Hn Hr.
  destruct (cast_round_floor n r Hn Hr) as (m & Hm & ->).
  rewrite Hm in Hr. simpl in Hr.
  rewrite round_nonneg in Hm by done.
  destruct (Z.leb_spec overflow_threshold (round_mag n)); [done |].
  injection Hm as <-.
  pose proof (round_mag_nonneg n Hn) as Hnn. pose proof unit_pos as Hu.
  rewrite Z.quot_div_nonneg in Hr by lia.
  destruct (Z.leb_spec 0 (round_mag n / unit)); [| done].
  destruct (Z.ltb_spec (round_mag n / unit) (2 ^ 64)); [| done].
  unfold to_uint64. apply Z.mod_small.
  split; [lia |].
  cut (round_mag n / unit <> 2 ^ 64 - 1); [lia |].
  intros Habs.
  destruct (Z.le_gt_cases (Z.log2 n - 52) 0) as [Hk | Hk].
  { rewrite round_mag_small in Habs by done.
    destruct (Z.eq_dec n 0) as [-> | Hne]; [done |].
    pose proof (log2_bounds n ltac:(lia)) as [_ Hhi].
    assert (2 ^ Z.log2 n <= 2 ^ 52) by (apply Z.pow_le_mono_r; lia).
    assert (2 ^ 53 <= unit)
      by (unfold unit, ulp_exp; apply Z.pow_le_mono_r; lia).
    rewrite Z.div_small in Habs by lia. done. }
  rewrite round_mag_big in Habs by done.
  pose proof (log2_pos_of_big n Hk) as Hp.
  pose proof (significand_bounds n _ Hp eq_refl Hk) as Hs.
  pose proof (round_quot_bounds _ n Hk) as Hq.
  set (k := Z.log2 n - 52) in *. set (q := round_quot k n) in *.
  destruct (Z.le_gt_cases k (ulp_exp + 9)) as [Hlow | Hhigh].
  - assert (Hle : q * 2 ^ k <= 2 ^ 53 * 2 ^ (ulp_exp + 9)).
    { apply Z.mul_le_mono_nonneg; try lia.
      apply Z.pow_le_mono_r; lia. }
    pose proof (Z.div_le_mono _ _ unit Hu Hle) as Hd.
    rewrite Habs in Hd.
    replace (2 ^ 53 * 2 ^ (ulp_exp + 9) / unit) with (2 ^ 62) in Hd
      by (unfold unit, ulp_exp; vm_compute; reflexivity).
    lia.
  - assert (Hsplit : 2 ^ k = 2 ^ (k - ulp_exp - 1) * 2 * unit).
    { unfold unit. replace 2 with (2 ^ 1) at 3 by done.
      rewrite <- !Z.pow_add_r by (unfold ulp_exp in *; lia).
      f_equal. lia. }
    rewrite Hsplit in Habs.
    replace (q * (2 ^ (k - ulp_exp - 1) * 2 * unit))
      with (q * 2 ^ (k - ulp_exp - 1) * 2 * unit) in Habs by lia.
    rewrite Z.div_mul in Habs by lia.
    lia.
Qed.

(** *** Finite doubles *)

Lemma decode_finite d : is_finite d = true -> decode d = Fin (fin_val d).
Proof. unfold is_finite, fin_val. by destruct (decode d). Qed.

Lemma lt_finite a b :
  is_finite a = true -> is_finite b = true ->
  lt a b = (fin_val a <? fin_val b).
Proof.
  intros Ha Hb. unfold lt.
  by rewrite (decode_finite a Ha), (decode_finite b Hb).
Qed.

Lemma gt_finite a b :
  is_finite a = true -> is_finite b = true ->
  gt a b = (fin_val b <? fin_val a).
Proof. intros Ha Hb. unfold gt. by rewrite <- lt_finite. Qed.

Lemma sub_finite a b :
  is_finite a = true -> is_finite b = true ->
  sub a b = round (fin_val a - fin_val b).
Proof.
  intros Ha Hb. unfold sub.
  by rewrite (decode_finite a Ha), (decode_finite b Hb).
Qed.

(** Equal doubles (in the sense of [==]) have the same difference to any
    third one. *)
Lemma eq_fin_val a b : eq a b = true -> is_finite a = true -> fin_val a = fin_val b.
Proof.
  unfold eq, is_finite, fin_val.
  destruct (decode a), (decode b); simpl; try done.
  intros H _. lia.
Qed.

End F64Facts.

(** * The counting sort *)

Section MinMax.
Import F64Facts.

Lemma all_finite_cons x l :
  all_finite (x :: l) = true <-> F64.is_finite x = true /\ all_finite l = true.
Proof. unfold all_finite. cbn [forallb]. apply andb_true_iff. Qed.

Lemma all_finite_elem data x :
  all_finite data = true -> x ∈ data -> F64.is_finite x = true.
Proof.
  unfold all_finite. rewrite forallb_forall. intros H Hx.
  apply H. by apply list_elem_of_In.
Qed.

Lemma spread_fits_elem data x y :
  spread_fits data = true -> x ∈ data -> y ∈ data ->
  fin_val x - fin_val y <= max_spread.
Proof.
  unfold spread_fits. rewrite forallb_forall. intros H Hx Hy.
  apply list_elem_of_In in Hx, Hy.
  specialize (H x Hx). rewrite forallb_forall in H.
  specialize (H y Hy). by apply Z.leb_le in H.
Qed.

(** The scan keeps the least and the greatest value seen so far. *)
Lemma minmax_fold rest : ∀ acc,
  all_finite rest = true ->
  F64.is_finite acc.1 = true -> F64.is_finite acc.2 = true ->
  let r := fold_left minmax_step rest acc in
  (r.1 = acc.1 ∨ r.1 ∈ rest) ∧ (r.2 = acc.2 ∨ r.2 ∈ rest) ∧
  fin_val r.1 <= fin_val acc.1 ∧ fin_val acc.2 <= fin_val r.2 ∧
  ∀ x, x ∈ rest -> fin_val r.1 <= fin_val x <= fin_val r.2.
Proof.
  induction rest as [| y rest IH]; intros acc Hfin H1 H2; cbn [fold_left].
  { split_and!; try lia; auto. intros z Hz. by apply elem_of_nil in Hz. }
  apply all_finite_cons in Hfin as [Hy Hrest].
  assert (Hstep : let acc' := minmax_step acc y in
            (acc'.1 = acc.1 ∨ acc'.1 = y) ∧ (acc'.2 = acc.2 ∨ acc'.2 = y) ∧
            fin_val acc'.1 <= fin_val acc.1 ∧ fin_val acc.2 <= fin_val acc'.2 ∧
            (fin_val acc.1 <= fin_val acc.2 ->
             fin_val acc'.1 <= fin_val y <= fin_val acc'.2) ∧
            fin_val acc'.1 <= fin_val y ∧ fin_val y <= fin_val acc'.2).
  { unfold minmax_step; cbn [fst snd].
    rewrite lt_finite, gt_finite by done.
    destruct (Z.ltb_spec (fin_val y) (fin_val acc.1)),
             (Z.ltb_spec (fin_val acc.2) (fin_val y)); cbn [fst snd];
      split_and!; auto; lia. }
  cbv zeta in Hstep. destruct Hstep as (Hm1 & Hm2 & Hle1 & Hle2 & _ & Hy1 & Hy2).
  set (acc' := minmax_step acc y) in *.
  assert (Hf1 : F64.is_finite acc'.1 = true) by (destruct Hm1 as [-> | ->]; done).
  assert (Hf2 : F64.is_finite acc'.2 = true) by (destruct Hm2 as [-> | ->]; done).
  destruct (IH acc' Hrest Hf1 Hf2) as (I1 & I2 & I3 & I4 & I5).
  set (r := fold_left minmax_step rest acc') in *.
  split_and!.
  - destruct I1 as [-> | I1]; [| right; by apply list_elem_of_further].
    destruct Hm1 as [-> | ->]; [by left | right; apply list_elem_of_here].
  - destruct I2 as [-> | I2]; [| right; by apply list_elem_of_further].
    destruct Hm2 as [-> | ->]; [by left | right; apply list_elem_of_here].
  - lia.
  - lia.
  - intros z Hz. apply elem_of_cons in Hz as [-> | Hz]; [lia |].
    specialize (I5 z Hz). lia.
Qed.

Lemma minmax_scan_spec d0 rest :
  all_finite (d0 :: rest) = true ->
  let r := minmax_scan d0 rest in
  r.1 ∈ d0 :: rest ∧ r.2 ∈ d0 :: rest ∧
  ∀ x, x ∈ d0 :: rest -> fin_val r.1 <= fin_val x <= fin_val r.2.
Proof.
  intros Hfin. apply all_finite_cons in Hfin as [H0 Hrest].
  destruct (minmax_fold rest (d0, d0) Hrest H0 H0) as (I1 & I2 & I3 & I4 & I5).
  unfold minmax_scan. cbn [fst snd] in *.
  set (r := fold_left minmax_step rest (d0, d0)) in *.
  split; [| split].
  - destruct I1 as [-> | I1]; [apply list_elem_of_here | by apply list_elem_of_further].
  - destruct I2 as [-> | I2]; [apply list_elem_of_here | by apply list_elem_of_further].
  - intros z Hz. apply elem_of_cons in Hz as [-> | Hz]; [lia | by apply I5].
Qed.

End MinMax.

Section Counting.
Local Open Scope nat_scope.

Lemma cnt_app P l1 l2 : cnt P (l1 ++ l2) = cnt P l1 + cnt P l2.
Proof. induction l1 as [| b l1 IH]; simpl; [done | rewrite IH; lia]. Qed.

Lemma cnt_le_length P l : cnt P l ≤ length l.
Proof. induction l as [| b l IH]; simpl; [done | destruct (P b); lia]. Qed.

Lemma cnt_split (P Q R : nat → bool) l :
  (∀ b, (if P b then 1 else 0) + (if Q b then 1 else 0) = if R b then 1 else 0) →
  cnt P l + cnt Q l = cnt R l.
Proof.
  intros H. induction l as [| b l IH]; simpl; [done |].
  specialize (H b). lia.
Qed.

Lemma cnt_mono (P Q : nat → bool) l :
  (∀ b, P b = true → Q b = true) → cnt P l ≤ cnt Q l.
Proof.
  intros H. induction l as [| b l IH]; simpl; [done |].
  specialize (H b). destruct (P b), (Q b); lia.
Qed.

Lemma cnt_lt_S (bs : list nat) k : cnt_lt bs (S k) = cnt_lt bs k + cnt_eq bs k.
Proof.
  unfold cnt_lt, cnt_eq. symmetry. apply cnt_split. intros b.
  destruct (Nat.ltb_spec b k), (Nat.eqb_spec b k), (Nat.ltb_spec b (S k)); lia.
Qed.

Lemma cnt_lt_mono (bs : list nat) k k' : k ≤ k' → cnt_lt bs k ≤ cnt_lt bs k'.
Proof.
  intros H. apply cnt_mono. intros b Hb.
  apply Nat.ltb_lt in Hb. apply Nat.ltb_lt. lia.
Qed.

Lemma cnt_lt_le_length (bs : list nat) k : cnt_lt bs k ≤ length bs.
Proof. apply cnt_le_length. Qed.

Lemma cnt_eq_take_S (bs : list nat) j b k :
  bs !! j = Some b →
  cnt_eq (take (S j) bs) k = cnt_eq (take j bs) k + (if b =? k then 1 else 0).
Proof.
  intros H. rewrite (take_S_r _ _ _ H). unfold cnt_eq.
  rewrite cnt_app. simpl. lia.
Qed.

Lemma cnt_eq_take_le (bs : list nat) j k : cnt_eq (take j bs) k ≤ cnt_eq bs k.
Proof.
  rewrite <- (take_drop j bs) at 2. unfold cnt_eq. rewrite cnt_app. lia.
Qed.

Lemma cnt_eq_take_mono (bs : list nat) j j' k :
  j ≤ j' → cnt_eq (take j bs) k ≤ cnt_eq (take j' bs) k.
Proof.
  intros H. replace (take j bs) with (take j (take j' bs)).
  - apply cnt_eq_take_le.
  - rewrite take_take. f_equal. lia.
Qed.

(** Row [j] itself is counted once the prefix reaches past it. *)
Lemma cnt_eq_take_lt (bs : list nat) j j' b :
  bs !! j = Some b → j < j' →
  cnt_eq (take j bs) b < cnt_eq (take j' bs) b.
Proof.
  intros Hb Hlt.
  pose proof (cnt_eq_take_mono bs (S j) j' b ltac:(lia)) as Hm.
  rewrite (cnt_eq_take_S _ _ _ _ Hb) in Hm.
  rewrite Nat.eqb_refl in Hm. lia.
Qed.

Lemma slot_lt_next (bs : list nat) j b :
  bs !! j = Some b → slot bs j b < cnt_lt bs (S b).
Proof.
  intros Hb. unfold slot. rewrite cnt_lt_S.
  pose proof (cnt_eq_take_lt bs j (S j) b Hb ltac:(lia)).
  pose proof (cnt_eq_take_le bs (S j) b). lia.
Qed.

Lemma slot_lt_length (bs : list nat) j b : bs !! j = Some b → slot bs j b < length bs.
Proof.
  intros Hb. pose proof (slot_lt_next bs j b Hb).
  pose proof (cnt_lt_le_length bs (S b)). lia.
Qed.

(** Slots respect the bucket order, and the row order inside a bucket. *)
Lemma slot_bucket_lt (bs : list nat) j1 j2 b1 b2 :
  bs !! j1 = Some b1 → b1 < b2 → slot bs j1 b1 < slot bs j2 b2.
Proof.
  intros H1 Hlt. pose proof (slot_lt_next bs j1 b1 H1).
  pose proof (cnt_lt_mono bs (S b1) b2 ltac:(lia)).
  unfold slot at 2. lia.
Qed.

Lemma slot_stable (bs : list nat) j1 j2 b :
  bs !! j1 = Some b → j1 < j2 → slot bs j1 b < slot bs j2 b.
Proof.
  intros H1 Hlt. unfold slot.
  pose proof (cnt_eq_take_lt bs j1 j2 b H1 Hlt). lia.
Qed.

Lemma slot_inj (bs : list nat) j1 j2 b1 b2 :
  bs !! j1 = Some b1 → bs !! j2 = Some b2 → j1 ≠ j2 →
  slot bs j1 b1 ≠ slot bs j2 b2.
Proof.
  intros H1 H2 Hne.
  destruct (Nat.lt_trichotomy b1 b2) as [Hb | [-> | Hb]].
  - pose proof (slot_bucket_lt bs j1 j2 b1 b2 H1 Hb). lia.
  - destruct (Nat.lt_trichotomy j1 j2) as [Hj | [Hj | Hj]]; [| done |].
    + pose proof (slot_stable bs j1 j2 b2 H1 Hj). lia.
    + pose proof (slot_stable bs j2 j1 b2 H2 Hj). lia.
  - pose proof (slot_bucket_lt bs j2 j1 b2 b1 H2 Hb). lia.
Qed.

End Counting.

Section Passes.

Lemma to_int32_small x : - 2 ^ 31 <= x < 2 ^ 31 -> to_int32 x = x.
Proof. intros H. unfold to_int32. rewrite Z.mod_small; lia. Qed.

Lemma clear_counts_exact count (range : nat) :
  length count = range -> clear_counts count range = Some (replicate range 0).
Proof.
  intros H. unfold clear_counts.
  destruct (decide (range ≤ length count)%nat); [| lia].
  rewrite drop_ge by lia. by rewrite app_nil_r.
Qed.

(** The histogram pass adds to every cell the number of rows of its
    bucket. *)
Lemma count_pass_spec min_val data bs :
  bucketed min_val data bs ->
  ∀ count : list Z,
  Forall (λ b, b < length count)%nat bs ->
  (∀ k c, count !! k = Some c -> 0 <= c ∧ c + Z.of_nat (length bs) < 2 ^ 31) ->
  ∃ count', count_pass min_val data count = Some count' ∧
            length count' = length count ∧
            ∀ k c, count !! k = Some c ->
                   count' !! k = Some (c + Z.of_nat (cnt_eq bs k)).
Proof.
  induction 1 as [| x b data bs Hb Hrest IH]; intros count Hlt Hbound.
  { exists count. split_and!; [done | done |].
    intros k c Hk. rewrite Hk. f_equal. unfold cnt_eq. simpl. lia. }
  apply Forall_cons in Hlt as [Hbl Hlt].
  destruct (lookup_lt_is_Some_2 count b Hbl) as [c Hc].
  destruct (Hbound b c Hc) as [Hc0 Hc1]. simpl in Hc1.
  cbn [count_pass]. rewrite Hb. cbn [mbind option_bind].
  rewrite Nat2Z.id, Hc. cbn [mbind option_bind].
  rewrite to_int32_small by lia.
  destruct (IH (<[b := c + 1]> count)) as (count' & Hrun & Hlen & Hval).
  { by rewrite length_insert. }
  { intros k c' Hk. destruct (decide (k = b)) as [-> | Hne].
    - rewrite list_lookup_insert_eq in Hk by done. injection Hk as <-. lia.
    - rewrite list_lookup_insert_ne in Hk by done.
      destruct (Hbound k c' Hk). simpl in *. lia. }
  exists count'. split_and!; [done | by rewrite Hlen, length_insert |].
  intros k c' Hk. unfold cnt_eq. cbn [cnt]. fold (cnt_eq bs k).
  destruct (decide (k = b)) as [-> | Hne].
  - rewrite Hc in Hk. injection Hk as <-.
    rewrite (Hval b (c + 1)) by (by rewrite list_lookup_insert_eq).
    rewrite Nat.eqb_refl. f_equal. lia.
  - rewrite (Hval k c') by (by rewrite list_lookup_insert_ne).
    destruct (Nat.eqb_spec b k); [congruence |]. f_equal.
Qed.

(** The prefix-sum pass turns the histogram into, for every bucket, the
    number of rows whose bucket is at most that one. *)
Lemma prefix_pass_spec (bs : list nat) (range : nat) :
  Z.of_nat (length bs) < 2 ^ 31 ->
  ∀ (todo i : nat) (count : list Z),
  (1 ≤ i)%nat -> (i + todo = range)%nat -> length count = range ->
  (∀ k, (k < i)%nat -> count !! k = Some (Z.of_nat (cnt_lt bs (S k)))) ->
  (∀ k, (i ≤ k < range)%nat -> count !! k = Some (Z.of_nat (cnt_eq bs k))) ->
  ∃ count', prefix_pass todo i count = Some count' ∧
            length count' = range ∧
            ∀ k, (k < range)%nat ->
                 count' !! k = Some (Z.of_nat (cnt_lt bs (S k))).
Proof.
  intros Hn. induction todo as [| todo IH]; intros i count Hi Hsum Hlen Hlo Hhi.
  { exists count. split_and!; [done | done |].
    intros k Hk. apply Hlo. lia. }
  cbn [prefix_pass].
  rewrite (Hhi i) by lia. cbn [mbind option_bind].
  rewrite (Hlo (i - 1)%nat) by lia. cbn [mbind option_bind].
  replace (S (i - 1)) with i by lia.
  pose proof (cnt_lt_S bs i) as HS.
  pose proof (cnt_lt_le_length bs (S i)) as Hle.
  rewrite to_int32_small by lia.
  destruct (IH (S i) (<[i := Z.of_nat (cnt_eq bs i) + Z.of_nat (cnt_lt bs i)]> count))
    as (count' & Hrun & Hlen' & Hval).
  - lia.
  - lia.
  - by rewrite length_insert.
  - intros k Hk. destruct (decide (k = i)) as [-> | Hne].
    + rewrite list_lookup_insert_eq by lia. f_equal. lia.
    + rewrite list_lookup_insert_ne by done. apply Hlo. lia.
  - intros k Hk. rewrite list_lookup_insert_ne by lia. apply Hhi. lia.
  - exists count'. by split_and!.
Qed.

(** The placement pass, run from row [i] down to row 0, stores every row
    index at its slot and keeps the stores of the rows above [i]. *)
Lemma place_pass_spec min_val data bs (range : nat) :
  bucketed min_val data bs ->
  Z.of_nat (length data) < 2 ^ 31 ->
  Forall (λ b, b < range)%nat bs ->
  ∀ (i : nat) (count out : list Z),
  (i ≤ length data)%nat -> length out = length data -> length count = range ->
  (∀ k, (k < range)%nat ->
        count !! k = Some (Z.of_nat (cnt_lt bs k + cnt_eq (take i bs) k))) ->
  (∀ j b, (i ≤ j)%nat -> bs !! j = Some b ->
          out !! slot bs j b = Some (Z.of_nat j)) ->
  ∃ count' out', place_pass min_val data i count out = Some (count', out') ∧
                 length out' = length data ∧
                 ∀ j b, bs !! j = Some b ->
                        out' !! slot bs j b = Some (Z.of_nat j).
Proof.
  intros Hbs Hn Hrange.
  pose proof (Forall2_length _ _ _ Hbs) as Hlen_bs.
  induction i as [| idx IH]; intros count out Hi Hout Hcount Hcnt Hdone.
  { exists count, out. split_and!; [done | done |].
    intros j b Hj. apply Hdone; [lia | done]. }
  destruct (lookup_lt_is_Some_2 data idx ltac:(lia)) as [x Hx].
  destruct (Forall2_lookup_l _ _ _ _ _ Hbs Hx) as (b & Hb & Hbucket).
  assert (Hbr : (b < range)%nat).
  { rewrite Forall_forall in Hrange. apply Hrange.
    by eapply list_elem_of_lookup_2. }
  pose proof (slot_lt_length bs idx b Hb) as Hslot.
  cbn [place_pass]. rewrite Hx. cbn [mbind option_bind].
  rewrite Hbucket. cbn [mbind option_bind].
  rewrite Nat2Z.id, (Hcnt b Hbr). cbn [mbind option_bind]. cbv zeta.
  rewrite (cnt_eq_take_S bs idx b b Hb), Nat.eqb_refl.
  replace (Z.of_nat (cnt_lt bs b + (cnt_eq (take idx bs) b + 1)) - 1)
    with (Z.of_nat (slot bs idx b)) by (unfold slot; lia).
  rewrite !to_int32_small by lia.
  destruct (Z.leb_spec 0 (Z.of_nat (slot bs idx b))); [| lia].
  destruct (Z.ltb_spec (Z.of_nat (slot bs idx b)) (Z.of_nat (length out))); [| lia].
  cbn [andb]. rewrite Nat2Z.id.
  destruct (IH (<[b := Z.of_nat (slot bs idx b)]> count)
               (<[slot bs idx b := Z.of_nat idx]> out))
    as (count' & out' & Hrun & Hlen' & Hval).
  - lia.
  - by rewrite length_insert.
  - by rewrite length_insert.
  - intros k Hk. destruct (decide (k = b)) as [-> | Hne].
    + by rewrite list_lookup_insert_eq by lia.
    + rewrite list_lookup_insert_ne by done. rewrite (Hcnt k Hk).
      rewrite (cnt_eq_take_S bs idx b k Hb).
      destruct (Nat.eqb_spec b k); [congruence |].
      do 2 f_equal. lia.
  - intros j b' Hj Hb'. destruct (decide (j = idx)) as [-> | Hne].
    + rewrite Hb in Hb'. injection Hb' as <-.
      by rewrite list_lookup_insert_eq by lia.
    + rewrite list_lookup_insert_ne by (by apply slot_inj).
      apply Hdone; [lia | done].
  - exists count', out'. by split_and!.
Qed.

(** The three passes in sequence: every row index ends at its slot. *)
Lemma counting_sort_apply_slots min_val data bs (range : nat) count out :
  bucketed min_val data bs ->
  Forall (λ b, b < range)%nat bs ->
  length count = range -> length out = length data ->
  Z.of_nat (length data) < 2 ^ 31 ->
  ∃ count' out',
    counting_sort_apply data min_val count range out = Some (count', out') ∧
    length out' = length data ∧
    ∀ j b, bs !! j = Some b -> out' !! slot bs j b = Some (Z.of_nat j).
Proof.
  intros Hbs Hrange Hcount Hout Hn.
  pose proof (Forall2_length _ _ _ Hbs) as Hlen_bs.
  unfold counting_sort_apply.
  rewrite clear_counts_exact by done. cbn [mbind option_bind].
  destruct (count_pass_spec min_val data bs Hbs (replicate range 0))
    as (c1 & Hrun1 & Hlen1 & Hval1).
  { by rewrite length_replicate. }
  { intros k c Hk. apply lookup_replicate in Hk as [-> _]. lia. }
  rewrite Hrun1. cbn [mbind option_bind].
  rewrite length_replicate in Hlen1.
  assert (Hc1 : ∀ k, (k < range)%nat -> c1 !! k = Some (Z.of_nat (cnt_eq bs k))).
  { intros k Hk. rewrite (Hval1 k 0); [done |].
    by apply lookup_replicate_2. }
  destruct (decide (range = 0)%nat) as [-> | Hpos].
  { destruct bs as [| b bs]; [| apply Forall_cons in Hrange as [? _]; lia].
    apply Forall2_nil_inv_r in Hbs as ->.
    exists c1, out. split_and!; [done | done |].
    intros j b Hb. by rewrite lookup_nil in Hb. }
  destruct (prefix_pass_spec bs range ltac:(lia) (range - 1) 1 c1)
    as (c2 & Hrun2 & Hlen2 & Hval2); try lia.
  { intros k Hk. replace k with O by lia. rewrite Hc1 by lia.
    rewrite cnt_lt_S. unfold cnt_lt at 1.
    do 2 f_equal. replace (cnt _ bs) with O; [done |].
    clear. induction bs as [| b bs IH]; [done |]. simpl. by rewrite <- IH. }
  { intros k Hk. apply Hc1. lia. }
  rewrite Hrun2. cbn [mbind option_bind].
  apply (place_pass_spec min_val data bs range Hbs Hn Hrange); try done.
  - intros k Hk. rewrite (Hval2 k Hk), cnt_lt_S.
    by rewrite take_ge by lia.
  - intros j b Hj Hb. apply lookup_lt_Some in Hb. lia.
Qed.

(** An index buffer that holds every row index at its slot is a
    permutation of the row indices. *)
Lemma slots_permutation (bs : list nat) (out : list Z) :
  length out = length bs ->
  (∀ j b, bs !! j = Some b -> out !! slot bs j b = Some (Z.of_nat j)) ->
  out ≡ₚ iota (length bs).
Proof.
  intros Hlen Hslots. symmetry.
  apply submseteq_length_Permutation.
  - apply NoDup_submseteq.
    + unfold iota. apply NoDup_fmap_2; [apply Nat2Z.inj' | apply NoDup_seq].
    + intros z Hz. unfold iota in Hz.
      apply list_elem_of_fmap in Hz as (j & -> & Hj).
      apply elem_of_seq in Hj.
      destruct (lookup_lt_is_Some_2 bs j ltac:(lia)) as [b Hb].
      eapply list_elem_of_lookup_2. by apply (Hslots j b).
  - unfold iota. rewrite length_fmap, length_seq. lia.
Qed.

End Passes.

Section SortTheorems.
Import F64Facts.

Lemma Forall2_of_pointwise {A B} (R : A → B → Prop) (P : B → Prop) (l : list A) :
  (∀ x, x ∈ l -> ∃ y, R x y ∧ P y) ->
  ∃ k, Forall2 R l k ∧ Forall P k.
Proof.
  induction l as [| x l IH]; intros H.
  { exists []. split; constructor. }
  destruct (H x (list_elem_of_here _ _)) as (y & Hy & Py).
  destruct IH as (k & Hk & Pk).
  { intros z Hz. apply H. by apply list_elem_of_further. }
  exists (y :: k). split; by constructor.
Qed.

(** What a successful [counting_sort_argsort_f64] on finite data says. *)
Lemma argsort_inv d0 rest out r :
  all_finite (d0 :: rest) = true ->
  counting_sort_argsort_f64 (d0 :: rest) out = Some r ->
  ∃ t, F64.cast_size_t (F64.round (fin_val (ar_max r) - fin_val (ar_min r))) = Some t ∧
       ar_range r = t + 1 ∧ ar_out_indices r = out ∧
       ar_min r ∈ d0 :: rest ∧ ar_max r ∈ d0 :: rest ∧
       ∀ x, x ∈ d0 :: rest -> fin_val (ar_min r) <= fin_val x <= fin_val (ar_max r).
Proof.
  intros Hfin Hrun.
  pose proof (minmax_scan_spec d0 rest Hfin) as Hmm. cbv zeta in Hmm.
  unfold counting_sort_argsort_f64 in Hrun.
  destruct (minmax_scan d0 rest) as [mn mx]. cbn [fst snd] in Hmm.
  destruct Hmm as (Hmn & Hmx & Hbounds).
  rewrite sub_finite in Hrun by (by eapply all_finite_elem).
  destruct (F64.cast_size_t _) as [t |] eqn:Ht; [| done].
  cbn [mbind option_bind] in Hrun. injection Hrun as <-.
  cbn [ar_min ar_max ar_range ar_out_indices].
  exists t. split_and!; try done.
  specialize (Hbounds mx Hmx).
  apply (cast_round_no_wrap (fin_val mx - fin_val mn) t); [lia | done].
Qed.

(** With [min] and [range] taken from the column itself, every row has a
    bucket inside the counting array. *)
Lemma argsort_buckets data out r :
  all_finite data = true ->
  counting_sort_argsort_f64 data out = Some r ->
  ∃ bs, bucketed (ar_min r) data bs ∧
        Forall (λ b, b < Z.to_nat (ar_range r))%nat bs.
Proof.
  intros Hfin Hrun.
  destruct data as [| d0 rest].
  { exists []. split; constructor. }
  destruct (argsort_inv d0 rest out r Hfin Hrun)
    as (t & Ht & Hrange & _ & Hmn & Hmx & Hbounds).
  apply Forall2_of_pointwise. intros x Hx.
  specialize (Hbounds x Hx).
  destruct (cast_round_mono (fin_val x - fin_val (ar_min r))
              (fin_val (ar_max r) - fin_val (ar_min r)) t ltac:(lia) Ht)
    as (b & Hb & Hb0).
  exists (Z.to_nat b). split.
  - unfold bucket_of.
    rewrite sub_finite by (by eapply all_finite_elem).
    rewrite Z2Nat.id by lia. done.
  - lia.
Qed.

(** Rows with equal timestamps share their bucket. *)
Lemma bucket_of_eq min_val x y :
  F64.is_finite x = true -> F64.is_finite y = true ->
  F64.is_finite min_val = true ->
  F64.eq x y = true -> bucket_of min_val x = bucket_of min_val y.
Proof.
  intros Hx Hy Hm Heq. unfold bucket_of.
  rewrite !sub_finite by done.
  by rewrite (eq_fin_val x y Heq Hx).
Qed.

Lemma not_perm_zeros : ¬ ([0; 0; 0; 0] ≡ₚ iota 4).
Proof.
  intros H. assert (Hin : 1 ∈ [0; 0; 0; 0]).
  { rewrite H. apply list_elem_of_In. simpl. auto. }
  apply list_elem_of_In in Hin. simpl in Hin. lia.
Qed.

End SortTheorems.

(** C3.  Code bug.  [counting_sort_argsort_f64] is documented to output
    the sorted indices in [out_indices], and the sort operation of the
    specification returns a permutation; its body has no store to that
    buffer.  Whenever the call returns, the index buffer is the one the
    caller passed.  On [30; 10; 20; 10] with a buffer of zeros the call
    returns min = 10, max = 30 and range = 21, and the buffer still holds
    [0; 0; 0; 0]: this is no permutation of [0, 4), and reordering the
    column by it gives [30; 30; 30; 30], which is not the column sorted. *)
Theorem argsort_leaves_indices_untouched :
  (∀ (data : list double) (out : list Z),
     match counting_sort_argsort_f64 data out with
     | Some r => ar_out_indices r = out
     | None => True
     end) ∧
  counting_sort_argsort_f64 ts_example [0; 0; 0; 0]
    = Some {| ar_out_indices := [0; 0; 0; 0]; ar_min := 0x4024000000000000;
              ar_max := 0x403E000000000000; ar_range := 21 |} ∧
  ¬ ([0; 0; 0; 0] ≡ₚ iota (length ts_example)) ∧
  gather_f64 ts_example [0; 0; 0; 0] (length ts_example) [0; 0; 0; 0]
    = Some [0x403E000000000000; 0x403E000000000000; 0x403E000000000000;
            0x403E000000000000] ∧
  ¬ ([0x403E000000000000; 0x403E000000000000; 0x403E000000000000;
      0x403E000000000000] ≡ₚ ts_example).
Proof.
  split_and!.
  - intros data out. unfold counting_sort_argsort_f64.
    destruct data as [| d0 rest]; [done |].
    destruct (minmax_scan d0 rest) as [mn mx].
    by destruct (F64.cast_size_t (F64.sub mx mn)).
  - vm_compute. reflexivity.
  - apply not_perm_zeros.
  - vm_compute. reflexivity.
  - intros H. assert (Hin : 0x4024000000000000 ∈
        [0x403E000000000000; 0x403E000000000000; 0x403E000000000000;
         0x403E000000000000]).
    { rewrite H. unfold ts_example. apply list_elem_of_In. simpl. auto. }
    apply list_elem_of_In in Hin. simpl in Hin. lia.
Qed.

(** X27.  The extent that [counting_sort_argsort_f64] outputs.  For an
    empty column it outputs min = max = 0 and returns 0.  For a non-empty
    column of finite values whose spread is at most 2^64 - 2^11 it outputs
    the least and the greatest value of the column and returns
    range = floor(max - min) + 1, where max - min is the double
    difference. *)
Theorem argsort_outputs_extent (data : list double) (out : list Z) :
  (data = [] ->
   ∃ r, counting_sort_argsort_f64 data out = Some r ∧
        ar_min r = 0 ∧ ar_max r = 0 ∧ ar_range r = 0) ∧
  (data ≠ [] -> all_finite data = true -> spread_fits data = true ->
   ∃ r, counting_sort_argsort_f64 data out = Some r ∧
        ar_min r ∈ data ∧ ar_max r ∈ data ∧
        (∀ x, x ∈ data -> fin_val (ar_min r) <= fin_val x <= fin_val (ar_max r)) ∧
        ∃ diff, F64.sub (ar_max r) (ar_min r) = F64.Fin diff ∧
                ar_range r = diff / F64.unit + 1).
Proof.
  split; [intros ->; by eexists |].
  intros Hne Hfin Hspread.
  destruct data as [| d0 rest]; [done |].
  pose proof (minmax_scan_spec d0 rest Hfin) as Hmm. cbv zeta in Hmm.
  destruct Hmm as (Hmn & Hmx & Hbounds).
  pose proof (spread_fits_elem _ _ _ Hspread Hmx Hmn) as Hsp.
  pose proof (Hbounds _ Hmx) as [Hle _].
  assert (Hcast : ∃ t, F64.cast_size_t
            (F64.round (fin_val (minmax_scan d0 rest).2 -
                        fin_val (minmax_scan d0 rest).1)) = Some t).
  { destruct (F64Facts.cast_round_mono
                (fin_val (minmax_scan d0 rest).2 - fin_val (minmax_scan d0 rest).1)
                max_spread (2 ^ 64 - 2 ^ 11)) as (t & Ht & _);
      [lia | by vm_compute | by exists t]. }
  destruct Hcast as [t Ht].
  assert (Hrun : counting_sort_argsort_f64 (d0 :: rest) out =
    Some {| ar_out_indices := out; ar_min := (minmax_scan d0 rest).1;
            ar_max := (minmax_scan d0 rest).2; ar_range := to_uint64 (t + 1) |}).
  { unfold counting_sort_argsort_f64.
    destruct (minmax_scan d0 rest) as [mn mx]. cbn [fst snd] in *.
    rewrite F64Facts.sub_finite by (by eapply all_finite_elem).
    by rewrite Ht. }
  eexists. split; [exact Hrun |]. cbn [ar_out_indices ar_min ar_max ar_range].
  split_and!; try done.
  destruct (F64Facts.cast_round_floor
              (fin_val (minmax_scan d0 rest).2 - fin_val (minmax_scan d0 rest).1)
              t ltac:(lia) Ht) as (m & Hm & ->).
  exists m. split.
  - rewrite F64Facts.sub_finite by (by eapply all_finite_elem). done.
  - eapply F64Facts.cast_round_no_wrap; [| exact Ht]. lia.
Qed.

Lemma argsort_outputs_extent_witness :
  ∃ r, counting_sort_argsort_f64 ts_example [0; 0; 0; 0] = Some r ∧
       ar_min r ∈ ts_example ∧ ar_max r ∈ ts_example ∧
       (∀ x, x ∈ ts_example -> fin_val (ar_min r) <= fin_val x <= fin_val (ar_max r)) ∧
       ∃ diff, F64.sub (ar_max r) (ar_min r) = F64.Fin diff ∧
               ar_range r = diff / F64.unit + 1.
Proof.
  apply (proj2 (argsort_outputs_extent ts_example [0; 0; 0; 0])).
  - discriminate.
  - vm_compute; reflexivity.
  - vm_compute; reflexivity.
Defined.

(** C5.  With [min_val] and [range] computed by [counting_sort_argsort_f64]
    from the same column of finite timestamps, a counting buffer of
    capacity [range] and an index buffer of [n] cells (n below 2^31, the
    indices being [int32_t]), [counting_sort_apply] runs inside its buffers
    and leaves in the index buffer a permutation of [0, n): every row index
    occurs at exactly one position. *)
Theorem counting_sort_apply_bijection
    (data : list double) (out0 count out : list Z) (r : argsort_result) :
  all_finite data = true ->
  counting_sort_argsort_f64 data out0 = Some r ->
  length count = Z.to_nat (ar_range r) ->
  length out = length data ->
  Z.of_nat (length data) < 2 ^ 31 ->
  ∃ count' out',
    counting_sort_apply data (ar_min r) count (Z.to_nat (ar_range r)) out
      = Some (count', out') ∧
    out' ≡ₚ iota (length data) ∧
    ∀ j, (j < length data)%nat ->
      ∃ p, out' !! p = Some (Z.of_nat j) ∧
           ∀ q, out' !! q = Some (Z.of_nat j) -> q = p.
Proof.
  intros Hfin Hrun Hcount Hout Hn.
  destruct (argsort_buckets data out0 r Hfin Hrun) as (bs & Hbs & Hrange).
  pose proof (Forall2_length _ _ _ Hbs) as Hlen.
  destruct (counting_sort_apply_slots (ar_min r) data bs _ count out
              Hbs Hrange Hcount Hout Hn) as (count' & out' & Happly & Hlen' & Hslots).
  exists count', out'. split; [done |].
  assert (Hperm : out' ≡ₚ iota (length data)).
  { rewrite Hlen. apply slots_permutation; [lia | done]. }
  split; [done |].
  intros j Hj.
  destruct (lookup_lt_is_Some_2 bs j ltac:(lia)) as [b Hb].
  exists (slot bs j b). split; [by apply Hslots |].
  intros q Hq.
  assert (Hnd : NoDup out').
  { rewrite Hperm. unfold iota.
    apply NoDup_fmap_2; [apply Nat2Z.inj' | apply NoDup_seq]. }
  eapply NoDup_lookup; [exact Hnd | exact Hq | by apply Hslots].
Qed.

Lemma counting_sort_apply_bijection_witness :
  ∃ count' out',
    counting_sort_apply ts_example 0x4024000000000000
      (replicate 21 7) 21 [9; 9; 9; 9] = Some (count', out') ∧
    out' ≡ₚ iota 4 ∧
    ∀ j, (j < 4)%nat ->
      ∃ p, out' !! p = Some (Z.of_nat j) ∧
           ∀ q, out' !! q = Some (Z.of_nat j) -> q = p.
Proof.
  apply (counting_sort_apply_bijection ts_example [9; 9; 9; 9]
           (replicate 21 7) [9; 9; 9; 9]
           {| ar_out_indices := [9; 9; 9; 9]; ar_min := 0x4024000000000000;
              ar_max := 0x403E000000000000; ar_range := 21 |}).
  - vm_compute; reflexivity.
  - vm_compute; reflexivity.
  - reflexivity.
  - reflexivity.
  - vm_compute; reflexivity.
Defined.

(** C4.  Under the same conditions the permutation is stable: of two rows
    with equal timestamps, the earlier row comes first in the index
    buffer.  On [30; 10; 20; 10] the extent is min = 10, max = 30,
    range = 21 and the permutation is [1; 3; 2; 0], whatever the buffers
    held before. *)
Theorem counting_sort_apply_stable :
  (∀ (data : list double) (out0 count out : list Z) (r : argsort_result),
     all_finite data = true ->
     counting_sort_argsort_f64 data out0 = Some r ->
     length count = Z.to_nat (ar_range r) ->
     length out = length data ->
     Z.of_nat (length data) < 2 ^ 31 ->
     ∃ count' out',
       counting_sort_apply data (ar_min r) count (Z.to_nat (ar_range r)) out
         = Some (count', out') ∧
       ∀ (i j : nat) (x y : double),
         (i < j)%nat -> data !! i = Some x -> data !! j = Some y ->
         F64.eq x y = true ->
         ∃ p q : nat, (p < q)%nat ∧ out' !! p = Some (Z.of_nat i) ∧
                      out' !! q = Some (Z.of_nat j)) ∧
  (∀ out0 : list Z,
     counting_sort_argsort_f64 ts_example out0 =
       Some {| ar_out_indices := out0; ar_min := 0x4024000000000000;
               ar_max := 0x403E000000000000; ar_range := 21 |}) ∧
  (∀ count out : list Z,
     length count = 21%nat -> length out = 4%nat ->
     ∃ count',
       counting_sort_apply ts_example 0x4024000000000000 count 21 out
         = Some (count', [1; 3; 2; 0])).
Proof.
  split_and!.
  - intros data out0 count out r Hfin Hrun Hcount Hout Hn.
    destruct (argsort_buckets data out0 r Hfin Hrun) as (bs & Hbs & Hrange).
    destruct (counting_sort_apply_slots (ar_min r) data bs _ count out
                Hbs Hrange Hcount Hout Hn)
      as (count' & out' & Happly & Hlen' & Hslots).
    exists count', out'. split; [done |].
    intros i j x y Hij Hx Hy Heq.
    destruct (Forall2_lookup_l _ _ _ _ _ Hbs Hx) as (bi & Hbi & Hbx).
    destruct (Forall2_lookup_l _ _ _ _ _ Hbs Hy) as (bj & Hbj & Hby).
    assert (Hmin : F64.is_finite (ar_min r) = true).
    { destruct data as [| d0 rest]; [by rewrite lookup_nil in Hx |].
      destruct (argsort_inv d0 rest out0 r Hfin Hrun) as (_ & _ & _ & _ & Hm & _).
      by eapply all_finite_elem. }
    assert (bi = bj) as <-.
    { rewrite (bucket_of_eq (ar_min r) x y) in Hbx; try done.
      - rewrite Hbx in Hby. injection Hby. lia.
      - eapply all_finite_elem; [done | by eapply list_elem_of_lookup_2].
      - eapply all_finite_elem; [done | by eapply list_elem_of_lookup_2]. }
    exists (slot bs i bi), (slot bs j bi). split_and!.
    + by apply slot_stable.
    + by apply Hslots.
    + by apply Hslots.
  - intros out0. vm_compute; reflexivity.
  - intros count out Hcount Hout.
    do 5 (destruct out as [| ? out]; try discriminate).
    unfold counting_sort_apply.
    rewrite clear_counts_exact by done. cbn [mbind option_bind].
    eexists. vm_compute. reflexivity.
Qed.

Lemma counting_sort_apply_stable_witness :
  ∃ count' out',
    counting_sort_apply ts_example 0x4024000000000000
      (replicate 21 7) 21 [9; 9; 9; 9] = Some (count', out') ∧
    ∀ (i j : nat) (x y : double),
      (i < j)%nat -> ts_example !! i = Some x -> ts_example !! j = Some y ->
      F64.eq x y = true ->
      ∃ p q : nat, (p < q)%nat ∧ out' !! p = Some (Z.of_nat i) ∧
                   out' !! q = Some (Z.of_nat j).
Proof.
  apply (proj1 counting_sort_apply_stable ts_example [9; 9; 9; 9]
           (replicate 21 7) [9; 9; 9; 9]
           {| ar_out_indices := [9; 9; 9; 9]; ar_min := 0x4024000000000000;
              ar_max := 0x403E000000000000; ar_range := 21 |}).
  - vm_compute; reflexivity.
  - vm_compute; reflexivity.
  - reflexivity.
  - reflexivity.
  - vm_compute; reflexivity.
Defined.

(** C10.  [counting_sort_apply] clears the [range] cells of the counting
    buffer before it counts: two runs on the same column, [min_val] and
    [range] that differ only in what their counting buffers (of capacity
    [range]) held at entry end in the same state, index buffer included. *)
Theorem counting_sort_apply_ignores_count_contents
    (data : list double) (min_val : double) (range : nat)
    (count1 count2 out : list Z) :
  length count1 = range -> length count2 = range ->
  counting_sort_apply data min_val count1 range out =
  counting_sort_apply data min_val count2 range out.
Proof.
  intros H1 H2. unfold counting_sort_apply.
  by rewrite !clear_counts_exact.
Qed.

Lemma counting_sort_apply_ignores_count_contents_witness :
  counting_sort_apply ts_example 0x4024000000000000 (replicate 21 7) 21
    [9; 9; 9; 9] =
  counting_sort_apply ts_example 0x4024000000000000 (replicate 21 (-3)) 21
    [9; 9; 9; 9].
Proof.
  apply (counting_sort_apply_ignores_count_contents ts_example
           0x4024000000000000 21 (replicate 21 7) (replicate 21 (-3))
           [9; 9; 9; 9]); reflexivity.
Defined.

(** * Gather *)

Section GatherFacts.
Context {A : Type}.
Implicit Types (src out : list A) (indices : list Z).

Lemma store_length out i v out' : store out i v = Some out' -> length out' = length out.
Proof.
  unfold store. case_decide; [| done]. intros [= <-]. by rewrite length_insert.
Qed.

Lemma gather_one_length src indices i out out' :
  gather_one src indices i out = Some out' -> length out' = length out.
Proof.
  unfold gather_one. intros H.
  destruct (indices !! i) as [idx |]; [| done]. cbn [mbind option_bind] in H.
  destruct (load_at src idx) as [v |]; [| done]. cbn [mbind option_bind] in H.
  by eapply store_length.
Qed.

(** The unrolled loop computes what the plain loop computes, failures
    included. *)
Lemma gather_unrolled_tail src indices n :
  ∀ fuel i out, (n - i ≤ 4 * fuel)%nat ->
  gather_unrolled fuel src indices n i out = gather_tail src indices (n - i) i out.
Proof.
  induction fuel as [| fuel IH]; intros i out Hfuel.
  { cbn [gather_unrolled]. case_decide; [lia | done]. }
  cbn [gather_unrolled]. case_decide as Hi; [| done].
  replace (n - i)%nat with (S (S (S (S (n - (i + 4)))))) by lia.
  cbn [gather_tail].
  destruct (gather_one src indices i out) as [o1 |]; [| done].
  cbn [mbind option_bind]. replace (i + 1)%nat with (S i) by lia.
  destruct (gather_one src indices (S i) o1) as [o2 |]; [| done].
  cbn [mbind option_bind]. replace (i + 2)%nat with (S (S i)) by lia.
  destruct (gather_one src indices (S (S i)) o2) as [o3 |]; [| done].
  cbn [mbind option_bind]. replace (i + 3)%nat with (S (S (S i))) by lia.
  destruct (gather_one src indices (S (S (S i))) o3) as [o4 |]; [| done].
  cbn [mbind option_bind]. replace (S (S (S (S i)))) with (i + 4)%nat by lia.
  apply IH. lia.
Qed.

Lemma gather_is_tail src indices n out :
  gather src indices n out = gather_tail src indices n 0 out.
Proof.
  unfold gather. rewrite gather_unrolled_tail by lia. f_equal. lia.
Qed.

(** The plain loop over [i .. i + todo), inside the buffers. *)
Lemma gather_tail_spec src indices :
  (∀ p, p ∈ indices -> 0 <= p < Z.of_nat (length src)) ->
  ∀ todo i out,
  (i + todo ≤ length indices)%nat -> (i + todo ≤ length out)%nat ->
  ∃ out', gather_tail src indices todo i out = Some out' ∧
          length out' = length out ∧
          (∀ j, (j < i)%nat -> out' !! j = out !! j) ∧
          (∀ j, (i ≤ j < i + todo)%nat ->
             ∃ p v, indices !! j = Some p ∧ src !! Z.to_nat p = Some v ∧
                    out' !! j = Some v).
Proof.
  intros Hrange. induction todo as [| todo IH]; intros i out Hidx Hout.
  { exists out. split_and!; try done. intros j Hj. lia. }
  cbn [gather_tail]. unfold gather_one at 1.
  destruct (lookup_lt_is_Some_2 indices i ltac:(lia)) as [p Hp].
  rewrite Hp. cbn [mbind option_bind].
  pose proof (Hrange p (list_elem_of_lookup_2 _ _ _ Hp)) as Hpr.
  unfold load_at. destruct (Z.ltb_spec p 0); [lia |].
  destruct (lookup_lt_is_Some_2 src (Z.to_nat p) ltac:(lia)) as [v Hv].
  rewrite Hv. cbn [mbind option_bind].
  unfold store. case_decide; [| lia]. cbn [mbind option_bind].
  destruct (IH (S i) (<[i := v]> out)) as (out' & Hrun & Hlen & Hlow & Hhigh).
  { lia. } { rewrite length_insert. lia. }
  exists out'. split_and!.
  - done.
  - by rewrite Hlen, length_insert.
  - intros j Hj. rewrite Hlow by lia. by rewrite list_lookup_insert_ne by lia.
  - intros j Hj. destruct (decide (j = i)) as [-> | Hne].
    + exists p, v. split_and!; [done | done |].
      rewrite Hlow by lia. by rewrite list_lookup_insert_eq by lia.
    + apply Hhigh. lia.
Qed.

Lemma gather_spec src indices n out :
  length src = n -> length indices = n -> length out = n ->
  (∀ p, p ∈ indices -> 0 <= p < Z.of_nat n) ->
  ∃ out', gather src indices n out = Some out' ∧
          length out' = n ∧
          ∀ i, (i < n)%nat ->
            ∃ p v, indices !! i = Some p ∧ src !! Z.to_nat p = Some v ∧
                   out' !! i = Some v.
Proof.
  intros Hsrc Hidx Hout Hrange. rewrite gather_is_tail.
  destruct (gather_tail_spec src indices ltac:(by rewrite Hsrc) n 0%nat out)
    as (out' & Hrun & Hlen & _ & Hval); [lia | lia |].
  exists out'. split_and!; [done | lia |].
  intros i Hi. apply Hval. lia.
Qed.

End GatherFacts.

(** The fused loop is the four plain loops run side by side: it fails when
    one of them does and otherwise returns their four results. *)
Lemma gather_batch4_loop_tail (src : batch4) (indices : list Z) :
  ∀ (todo i : nat) (out : batch4),
  gather_batch4_loop src indices todo i out =
    (ts_out ← gather_tail (b_ts src) indices todo i (b_ts out);
     sym_out ← gather_tail (b_sym src) indices todo i (b_sym out);
     price_out ← gather_tail (b_price src) indices todo i (b_price out);
     vol_out ← gather_tail (b_vol src) indices todo i (b_vol out);
     Some {| b_ts := ts_out; b_sym := sym_out; b_price := price_out;
             b_vol := vol_out |}).
Proof.
  induction todo as [| todo IH]; intros i out.
  { by destruct out. }
  cbn [gather_batch4_loop gather_tail]. unfold gather_one.
  destruct (indices !! i) as [idx |]; [| done]. cbn [mbind option_bind].
  destruct (load_at (b_ts src) idx) as [t |]; [| done]. cbn [mbind option_bind].
  destruct (store (b_ts out) i t) as [o1 |]; [| done]. cbn [mbind option_bind].
  destruct (load_at (b_sym src) idx) as [s |]; cbn [mbind option_bind];
    [| by destruct (gather_tail (b_ts src) indices todo (S i) o1)].
  destruct (store (b_sym out) i s) as [o2 |]; cbn [mbind option_bind];
    [| by destruct (gather_tail (b_ts src) indices todo (S i) o1)].
  destruct (load_at (b_price src) idx) as [p |]; cbn [mbind option_bind];
    [| by destruct (gather_tail (b_ts src) indices todo (S i) o1),
                   (gather_tail (b_sym src) indices todo (S i) o2)].
  destruct (store (b_price out) i p) as [o3 |]; cbn [mbind option_bind];
    [| by destruct (gather_tail (b_ts src) indices todo (S i) o1),
                   (gather_tail (b_sym src) indices todo (S i) o2)].
  destruct (load_at (b_vol src) idx) as [v |]; cbn [mbind option_bind];
    [| by destruct (gather_tail (b_ts src) indices todo (S i) o1),
                   (gather_tail (b_sym src) indices todo (S i) o2),
                   (gather_tail (b_price src) indices todo (S i) o3)].
  destruct (store (b_vol out) i v) as [o4 |]; cbn [mbind option_bind];
    [| by destruct (gather_tail (b_ts src) indices todo (S i) o1),
                   (gather_tail (b_sym src) indices todo (S i) o2),
                   (gather_tail (b_price src) indices todo (S i) o3)].
  by rewrite IH.
Qed.

(** C7.  For a source column and an index array of length [n] whose
    entries lie in [0, n), and an output buffer of [n] cells, [gather_f64]
    and [gather_i32] return with [out[i] = src[indices[i]]] at every
    [i < n].  [gather_batch4] on four columns and one index array is the
    four single-column gathers: it returns exactly their four outputs (and
    leaves its buffers when one of them would). *)
Theorem gather_correct :
  (∀ (src : list double) (indices : list Z) (n : nat) (out : list double),
     length src = n -> length indices = n -> length out = n ->
     (∀ p, p ∈ indices -> 0 <= p < Z.of_nat n) ->
     ∃ out', gather_f64 src indices n out = Some out' ∧ length out' = n ∧
             ∀ i, (i < n)%nat ->
               ∃ p v, indices !! i = Some p ∧ src !! Z.to_nat p = Some v ∧
                      out' !! i = Some v) ∧
  (∀ (src indices : list Z) (n : nat) (out : list Z),
     length src = n -> length indices = n -> length out = n ->
     (∀ p, p ∈ indices -> 0 <= p < Z.of_nat n) ->
     ∃ out', gather_i32 src indices n out = Some out' ∧ length out' = n ∧
             ∀ i, (i < n)%nat ->
               ∃ p v, indices !! i = Some p ∧ src !! Z.to_nat p = Some v ∧
                      out' !! i = Some v) ∧
  (∀ (src : batch4) (indices : list Z) (n : nat) (out : batch4),
     gather_batch4 src indices n out =
       (ts_out ← gather_f64 (b_ts src) indices n (b_ts out);
        sym_out ← gather_i32 (b_sym src) indices n (b_sym out);
        price_out ← gather_f64 (b_price src) indices n (b_price out);
        vol_out ← gather_i32 (b_vol src) indices n (b_vol out);
        Some {| b_ts := ts_out; b_sym := sym_out; b_price := price_out;
                b_vol := vol_out |})).
Proof.
  split_and!.
  - intros. by apply gather_spec.
  - intros. by apply gather_spec.
  - intros src indices n out. unfold gather_batch4, gather_f64, gather_i32.
    rewrite !gather_is_tail. apply gather_batch4_loop_tail.
Qed.

Lemma gather_correct_witness :
  ∃ out', gather_f64 [10; 11; 12; 13; 14; 15; 16] [6; 5; 4; 3; 2; 1; 0] 7
            (replicate 7 0) = Some out' ∧ length out' = 7%nat ∧
          ∀ i, (i < 7)%nat ->
            ∃ p v, [6; 5; 4; 3; 2; 1; 0] !! i = Some p ∧
                   [10; 11; 12; 13; 14; 15; 16] !! Z.to_nat p = Some v ∧
                   out' !! i = Some v.
Proof.
  apply (proj1 gather_correct [10; 11; 12; 13; 14; 15; 16]
           [6; 5; 4; 3; 2; 1; 0] 7%nat (replicate 7 0)).
  - reflexivity.
  - reflexivity.
  - reflexivity.
  - intros p Hp. apply list_elem_of_In in Hp. simpl in Hp. lia.
Defined.

(** * Snapshot boundaries *)

Section Boundaries.

Lemma value_lt_irrefl v : F64.value_lt v v = false.
Proof.
  destruct v as [| [] | x]; try reflexivity. simpl. apply Z.ltb_irrefl.
Qed.

Lemma ascending_eq_refl ts i x : ascending ts -> ts !! i = Some x -> F64.eq x x = true.
Proof.
  intros Hasc Hx. specialize (Hasc i i x x (le_n i) Hx Hx).
  unfold F64.le in Hasc. by rewrite value_lt_irrefl in Hasc.
Qed.

Lemma snapshots_length ts : ∀ bounds s,
  snapshots ts s bounds -> (s + length bounds ≤ length ts)%nat.
Proof.
  induction bounds as [| b bounds IH]; intros s Hs; cbn [snapshots] in Hs.
  - simpl. lia.
  - destruct Hs as (Hlt & _ & _ & Hs). specialize (IH _ Hs). simpl. lia.
Qed.

(** The scan of rows [length pre ..] of [ts = pre ++ rest], entered inside
    a run that started at row [s] with value [prev]: it appends the
    starts [new] of the later runs at cells [count ..] of the buffer. *)
Lemma boundary_scan_spec ts :
  ascending ts -> Z.of_nat (length ts) < 2 ^ 31 ->
  ∀ rest pre s prev count out,
  ts = pre ++ rest -> (s < length pre)%nat -> ts !! s = Some prev ->
  (∀ p x, (s ≤ p < length pre)%nat -> ts !! p = Some x -> F64.eq x prev = true) ->
  (count + length rest ≤ length out)%nat ->
  ∃ new out',
    boundary_scan rest (length pre) prev count out
      = Some ((count + length new)%nat, out') ∧
    length out' = length out ∧
    (∀ k, (k < count)%nat -> out' !! k = out !! k) ∧
    (∀ k b, new !! k = Some b -> out' !! (count + k)%nat = Some (Z.of_nat b)) ∧
    (∀ k, (count + length new ≤ k)%nat -> out' !! k = out !! k) ∧
    snapshots ts s (new ++ [length ts]).
Proof.
  intros Hasc Hn.
  induction rest as [| x rest IH]; intros pre s prev count out Hts Hs Hprev Hrun Hcap.
  { exists [], out. rewrite app_nil_r in Hts. subst pre.
    split_and!; try done.
    - cbn [boundary_scan length]. do 2 f_equal. lia.
    - cbn [app snapshots]. split_and!; try done.
      + intros p y v Hp Hy Hv. rewrite Hprev in Hv. injection Hv as <-. by eapply Hrun.
      + intros y z _ Hz. apply lookup_lt_Some in Hz. lia. }
  assert (Hx : ts !! length pre = Some x).
  { rewrite Hts. by rewrite list_lookup_middle. }
  assert (Hts' : ts = (pre ++ [x]) ++ rest) by (by rewrite <- app_assoc).
  assert (Hlen' : length (pre ++ [x]) = S (length pre))
    by (rewrite length_app; simpl; lia).
  assert (Hlt : (length pre < length ts)%nat) by (by eapply lookup_lt_Some).
  cbn [boundary_scan length] in *.
  destruct (F64.ne x prev) eqn:Hne.
  - unfold store. case_decide; [| lia]. cbn [mbind option_bind].
    rewrite to_int32_small by lia.
    destruct (IH (pre ++ [x]) (length pre) x (S count)
                 (<[count := Z.of_nat (length pre)]> out))
      as (new & out' & Hscan & Hlen & Hlow & Hnew & Hhigh & Hsnap).
    + done.
    + lia.
    + done.
    + intros p y Hp Hy. rewrite Hlen' in Hp.
      replace p with (length pre) in Hy by lia.
      rewrite Hx in Hy. injection Hy as <-. by eapply ascending_eq_refl.
    + rewrite length_insert. lia.
    + rewrite Hlen' in Hscan.
      exists (length pre :: new), out'. split_and!.
      * rewrite Hscan. cbn [length]. do 2 f_equal. lia.
      * by rewrite Hlen, length_insert.
      * intros k Hk. rewrite Hlow by lia. by rewrite list_lookup_insert_ne by lia.
      * intros [| k] b Hb.
        -- injection Hb as <-. rewrite Nat.add_0_r, Hlow by lia.
           by rewrite list_lookup_insert_eq by lia.
        -- cbn [lookup list_lookup] in Hb.
           replace (count + S k)%nat with (S count + k)%nat by lia.
           by apply Hnew.
      * intros k Hk. cbn [length] in Hk. rewrite Hhigh by lia.
        by rewrite list_lookup_insert_ne by lia.
      * cbn [app snapshots]. split_and!; try done.
        -- intros p y v Hp Hy Hv. rewrite Hprev in Hv. injection Hv as <-.
           by eapply Hrun.
        -- intros y z Hy Hz. rewrite Hprev in Hy. rewrite Hx in Hz.
           by injection Hy as <-; injection Hz as <-.
  - destruct (IH (pre ++ [x]) s prev count out)
      as (new & out' & Hscan & Hlen & Hlow & Hnew & Hhigh & Hsnap).
    + done.
    + lia.
    + done.
    + intros p y Hp Hy. rewrite Hlen' in Hp.
      destruct (decide (p = length pre)) as [-> | Hne'].
      * rewrite Hx in Hy. injection Hy as <-.
        unfold F64.ne in Hne. by apply negb_false_iff in Hne.
      * apply (Hrun p); [lia | done].
    + lia.
    + rewrite Hlen' in Hscan. exists new, out'. by split_and!.
Qed.

End Boundaries.

(** C6.  For an ascending column of [n > 0] rows (n below 2^31) and a
    buffer of at least [n + 1] cells, [find_snapshot_boundaries] returns
    the number [count] of snapshots and leaves in cells [0 .. count] the
    offsets [0 :: bounds], where [bounds] ends with the sentinel [n] and
    cuts [0, n) into consecutive non-empty intervals, equal inside and
    different from one interval to the next; the other cells are left
    alone.  For [n = 0] it stores nothing and returns 0.  On
    [10; 10; 20; 30] the offsets are [0; 2; 3; 4]. *)
Theorem find_snapshot_boundaries_partition :
  (∀ out : list Z, find_snapshot_boundaries [] out = Some (O, out)) ∧
  (∀ (ts : list double) (out : list Z),
     ts ≠ [] -> ascending ts ->
     Z.of_nat (length ts) < 2 ^ 31 -> (length ts < length out)%nat ->
     ∃ (count : nat) (out' : list Z) (bounds : list nat),
       find_snapshot_boundaries ts out = Some (count, out') ∧
       length bounds = count ∧
       take (S count) out' = Z.of_nat <$> (O :: bounds) ∧
       drop (S count) out' = drop (S count) out ∧
       last bounds = Some (length ts) ∧
       snapshots ts 0 bounds) ∧
  (∀ out : list Z,
     length out = 4%nat ->
     find_snapshot_boundaries sorted_example out = Some (3%nat, [0; 2; 3; 4])).
Proof.
  split_and!.
  - done.
  - intros ts out Hne Hasc Hn Hcap.
    destruct ts as [| t0 rest]; [done |].
    cbn [length] in Hcap.
    destruct (boundary_scan_spec (t0 :: rest) Hasc Hn rest [t0] 0%nat t0 1%nat
                (<[0%nat := 0]> out))
      as (new & out1 & Hscan & Hlen & Hlow & Hnew & Hhigh & Hsnap).
    { done. } { simpl; lia. } { done. }
    { intros p x Hp Hx. cbn [length] in Hp. replace p with 0%nat in Hx by lia.
      injection Hx as <-. by eapply (ascending_eq_refl _ 0%nat). }
    { rewrite length_insert. lia. }
    assert (Hnl : (length new ≤ length rest)%nat).
    { pose proof (snapshots_length _ _ _ Hsnap) as Hl.
      rewrite length_app in Hl. simpl in Hl. lia. }
    exists (1 + length new)%nat,
           (<[(1 + length new)%nat := Z.of_nat (length (t0 :: rest))]> out1),
           (new ++ [length (t0 :: rest)]).
    split_and!.
    + unfold find_snapshot_boundaries, store.
      case_decide; [| lia]. cbn [mbind option_bind].
      cbn [length] in Hscan. rewrite Hscan. cbn [mbind option_bind].
      rewrite Hlen, length_insert.
      case_decide; [| lia]. cbn [mbind option_bind].
      by rewrite to_int32_small by lia.
    + rewrite length_app. simpl. lia.
    + apply list_eq. intros k.
      rewrite length_insert in Hlen.
      destruct (decide (k < S (1 + length new))%nat) as [Hk | Hk].
      2: { rewrite lookup_take_ge by lia. symmetry.
           apply lookup_ge_None_2.
           rewrite length_fmap. cbn [length]. rewrite length_app. simpl. lia. }
      rewrite lookup_take_lt by lia.
      rewrite list_lookup_fmap.
      destruct (decide (k = 1 + length new)%nat) as [-> | Hk1].
      { rewrite list_lookup_insert_eq by lia.
        change (O :: new ++ [length (t0 :: rest)])
          with ((O :: new) ++ [length (t0 :: rest)]).
        rewrite (lookup_app_r (O :: new)) by (simpl; lia).
        replace (1 + length new - length (O :: new))%nat with O by (simpl; lia).
        done. }
      rewrite list_lookup_insert_ne by lia.
      destruct k as [| k].
      { rewrite Hlow by lia. by rewrite list_lookup_insert_eq by lia. }
      cbn [lookup list_lookup]. fold (@lookup nat nat (list nat) _ k (new ++ [length (t0 :: rest)])).
      destruct (lookup_lt_is_Some_2 new k ltac:(lia)) as [b Hb].
      rewrite (lookup_app_l_Some _ _ _ _ Hb).
      replace (S k) with (1 + k)%nat by lia. by rewrite (Hnew k b Hb).
    + apply list_eq. intros k. rewrite !lookup_drop.
      rewrite list_lookup_insert_ne by lia.
      rewrite Hhigh by lia. by rewrite list_lookup_insert_ne by lia.
    + by rewrite last_snoc.
    + done.
  - intros out Hout.
    do 5 (destruct out as [| ? out]; try discriminate).
    vm_compute. reflexivity.
Qed.

Lemma sorted_example_ascending : ascending sorted_example.
Proof.
  intros i j x y Hij Hx Hy.
  pose proof (lookup_lt_Some _ _ _ Hx) as Hi.
  pose proof (lookup_lt_Some _ _ _ Hy) as Hj.
  cbn [sorted_example length] in Hi, Hj.
  destruct i as [| [| [| [|]]]]; try lia;
    destruct j as [| [| [| [|]]]]; try lia;
    injection Hx as <-; injection Hy as <-; vm_compute; reflexivity.
Qed.

Lemma find_snapshot_boundaries_partition_witness :
  ∃ (count : nat) (out' : list Z) (bounds : list nat),
    find_snapshot_boundaries sorted_example (replicate 6 9)
      = Some (count, out') ∧
    length bounds = count ∧
    take (S count) out' = Z.of_nat <$> (O :: bounds) ∧
    drop (S count) out' = drop (S count) (replicate 6 9) ∧
    last bounds = Some (length sorted_example) ∧
    snapshots sorted_example 0 bounds.
Proof.
  apply (proj1 (proj2 find_snapshot_boundaries_partition) sorted_example
           (replicate 6 9)).
  - discriminate.
  - apply sorted_example_ascending.
  - vm_compute; reflexivity.
  - simpl; lia.
Defined.

(** * Gorilla XOR codec *)

Section Truncation.
Import Gorilla.

Lemma READ_BIT_take buffer k r x :
  READ_BIT (take k buffer) r = Some x -> READ_BIT buffer r = Some x.
Proof.
  unfold READ_BIT.
  destruct (take k buffer !! r_byte_pos r) as [byte |] eqn:H; [| done].
  apply lookup_take_Some in H as [-> _]. done.
Qed.

Lemma READ_BITS_from_take buffer k :
  ∀ bits v r x,
  READ_BITS_from (take k buffer) bits v r = Some x ->
  READ_BITS_from buffer bits v r = Some x.
Proof.
  induction bits as [| bits IH]; intros v r x H; [done |].
  cbn [READ_BITS_from] in *.
  destruct (READ_BIT (take k buffer) r) as [[b r'] |] eqn:Hb; [| done].
  rewrite (READ_BIT_take _ _ _ _ Hb). cbn [mbind option_bind] in *.
  by apply IH.
Qed.

Lemma READ_BITS_take buffer k bits r x :
  READ_BITS (take k buffer) bits r = Some x -> READ_BITS buffer bits r = Some x.
Proof. apply READ_BITS_from_take. Qed.

(** A value decoded from a truncated buffer is decoded, with the same
    state, from the whole buffer. *)
Lemma decompress_value_take buffer k st st' :
  decompress_value (take k buffer) st = Some st' ->
  decompress_value buffer st = Some st'.
Proof.
  unfold decompress_value. intros H.
  destruct (READ_BIT (take k buffer) (d_reader st)) as [[same r] |] eqn:H1; [| done].
  rewrite (READ_BIT_take _ _ _ _ H1). cbn [mbind option_bind] in *.
  destruct (same =? 0); [done |].
  destruct (READ_BIT (take k buffer) r) as [[use_prev r2] |] eqn:H2; [| done].
  rewrite (READ_BIT_take _ _ _ _ H2). cbn [mbind option_bind] in *.
  destruct (use_prev =? 0).
  - cbn [mbind option_bind] in *.
    destruct (READ_BITS (take k buffer) _ r2) as [[bits r3] |] eqn:H3; [| done].
    by rewrite (READ_BITS_take _ _ _ _ _ H3).
  - destruct (READ_BITS (take k buffer) 6 r2) as [[leading r3] |] eqn:H3; [| done].
    rewrite (READ_BITS_take _ _ _ _ _ H3). cbn [mbind option_bind] in *.
    destruct (READ_BITS (take k buffer) 6 r3) as [[meaningful r4] |] eqn:H4; [| done].
    rewrite (READ_BITS_take _ _ _ _ _ H4). cbn [mbind option_bind] in *.
    destruct (READ_BITS (take k buffer) meaningful r4) as [[bits r5] |] eqn:H5; [| done].
    by rewrite (READ_BITS_take _ _ _ _ _ H5).
Qed.

Lemma decompress_loop_take buffer k :
  ∀ todo st,
  decompress_loop (take k buffer) todo st `prefix_of` decompress_loop buffer todo st.
Proof.
  induction todo as [| todo IH]; intros st; [done |].
  cbn [decompress_loop].
  case_decide as Hk; [| apply prefix_nil].
  rewrite length_take in Hk.
  case_decide; [| lia].
  destruct (decompress_value (take k buffer) st) as [st' |] eqn:Hv;
    [| apply prefix_nil].
  rewrite (decompress_value_take _ _ _ _ Hv).
  apply prefix_cons, IH.
Qed.

Lemma decompress_take buffer k max_count :
  gorilla_decompress_f64 (take k buffer) max_count
    `prefix_of` gorilla_decompress_f64 buffer max_count.
Proof.
  unfold gorilla_decompress_f64.
  case_decide as Hk; [apply prefix_nil |].
  rewrite length_take in Hk.
  case_decide; [lia |].
  destruct (READ_BITS (take k buffer) 64 _) as [[v r] |] eqn:Hr;
    [| apply prefix_nil].
  rewrite (READ_BITS_take _ _ _ _ _ Hr).
  apply prefix_cons, decompress_loop_take.
Qed.

(** The loop stores at most [todo] values. *)
Lemma decompress_loop_length buffer :
  ∀ todo st, (length (decompress_loop buffer todo st) ≤ todo)%nat.
Proof.
  induction todo as [| todo IH]; intros st; [done |].
  cbn [decompress_loop].
  case_decide; [| simpl; lia].
  destruct (decompress_value buffer st) as [st' |]; [| simpl; lia].
  cbn [length]. specialize (IH st'). lia.
Qed.

(** From [max_count = 1] on, the count returned stays within
    [max_count]. *)
Lemma decompress_length_positive buffer max_count :
  (1 ≤ max_count)%nat ->
  (length (gorilla_decompress_f64 buffer max_count) ≤ max_count)%nat.
Proof.
  intros H. unfold gorilla_decompress_f64.
  case_decide; [simpl; lia |].
  destruct (READ_BITS buffer 64 _) as [[v r] |]; [| simpl; lia].
  cbn [length].
  pose proof (decompress_loop_length buffer (max_count - 1)
    {| d_reader := r; d_prev_value := v; d_prev_leading := -1;
       d_prev_trailing := 0 |}).
  lia.
Qed.

(** Asking for more values only appends to what the loop stores. *)
Lemma decompress_loop_prefix buffer :
  ∀ (t1 t2 : nat) st, (t1 ≤ t2)%nat ->
  decompress_loop buffer t1 st `prefix_of` decompress_loop buffer t2 st.
Proof.
  induction t1 as [| t1 IH]; intros t2 st Hle.
  { apply prefix_nil. }
  destruct t2 as [| t2]; [lia |]. cbn [decompress_loop].
  case_decide; [| done].
  destruct (decompress_value buffer st) as [st1 |]; [| done].
  apply prefix_cons, IH. lia.
Qed.

(** *** Where a truncated decode stops *)

Lemma READ_BIT_pos buffer r b r' :
  READ_BIT buffer r = Some (b, r') -> 0 <= r_bit_pos r < 8 ->
  0 <= r_bit_pos r' < 8 ∧ r_pos r' = r_pos r + 1 ∧
  (r_byte_pos r < length buffer)%nat.
Proof.
  unfold READ_BIT, r_pos. intros H Hwf.
  destruct (buffer !! r_byte_pos r) as [byte |] eqn:Hbyte; [| done].
  apply lookup_lt_Some in Hbyte. cbn [mbind option_bind] in H. cbv zeta in H.
  destruct (Z.eqb_spec (r_bit_pos r + 1) 8); injection H as _ <-;
    cbn [r_byte_pos r_bit_pos]; lia.
Qed.

(** A bit that lies within the first [k] bytes is read from them. *)
Lemma READ_BIT_within buffer k r b r' :
  READ_BIT buffer r = Some (b, r') -> 0 <= r_bit_pos r < 8 ->
  r_pos r' <= 8 * Z.of_nat k ->
  READ_BIT (take k buffer) r = Some (b, r').
Proof.
  intros H Hwf Hk.
  destruct (READ_BIT_pos _ _ _ _ H Hwf) as (_ & Hpos & _).
  unfold READ_BIT in *. unfold r_pos in *.
  by rewrite lookup_take_lt by lia.
Qed.

Lemma READ_BITS_from_pos buffer :
  ∀ bits v r x r',
  READ_BITS_from buffer bits v r = Some (x, r') -> 0 <= r_bit_pos r < 8 ->
  0 <= r_bit_pos r' < 8 ∧ r_pos r' = r_pos r + Z.of_nat bits ∧
  (r_pos r <= 8 * Z.of_nat (length buffer) ->
   r_pos r' <= 8 * Z.of_nat (length buffer)).
Proof.
  induction bits as [| bits IH]; intros v r x r' H Hwf.
  { injection H as _ <-. split_and!; [lia | lia | lia | done]. }
  cbn [READ_BITS_from] in H.
  destruct (READ_BIT buffer r) as [[b r1] |] eqn:Hb; [| done].
  cbn [mbind option_bind] in H.
  destruct (READ_BIT_pos _ _ _ _ Hb Hwf) as (Hwf1 & Hpos1 & Hin).
  destruct (IH _ _ _ _ H Hwf1) as (Hwf' & Hpos' & Hle).
  split; [done |]. split; [lia |].
  intros _. apply Hle. unfold r_pos in *. lia.
Qed.

Lemma READ_BITS_from_within buffer k :
  ∀ bits v r x r',
  READ_BITS_from buffer bits v r = Some (x, r') -> 0 <= r_bit_pos r < 8 ->
  r_pos r' <= 8 * Z.of_nat k ->
  READ_BITS_from (take k buffer) bits v r = Some (x, r').
Proof.
  induction bits as [| bits IH]; intros v r x r' H Hwf Hk; [done |].
  cbn [READ_BITS_from] in *.
  destruct (READ_BIT buffer r) as [[b r1] |] eqn:Hb; [| done].
  cbn [mbind option_bind] in H.
  destruct (READ_BIT_pos _ _ _ _ Hb Hwf) as (Hwf1 & Hpos1 & _).
  destruct (READ_BITS_from_pos _ _ _ _ _ _ H Hwf1) as (_ & Hpos' & _).
  rewrite (READ_BIT_within _ k _ _ _ Hb Hwf) by lia.
  cbn [mbind option_bind]. by apply IH.
Qed.

(** Decoding one value reads at least one bit and stays inside the
    buffer; when the value ends within the first [k] bytes it is decoded
    from them alone, to the same state. *)
Lemma decompress_value_pos buffer st st' :
  decompress_value buffer st = Some st' ->
  0 <= r_bit_pos (d_reader st) < 8 ->
  0 <= r_bit_pos (d_reader st') < 8 ∧
  r_pos (d_reader st) < r_pos (d_reader st') <= 8 * Z.of_nat (length buffer) ∧
  ∀ k, r_pos (d_reader st') <= 8 * Z.of_nat k ->
       decompress_value (take k buffer) st = Some st'.
Proof.
  unfold decompress_value, READ_BITS. intros H Hwf.
  destruct (READ_BIT buffer (d_reader st)) as [[same r1] |] eqn:H1; [| done].
  cbn [mbind option_bind] in H.
  destruct (READ_BIT_pos _ _ _ _ H1 Hwf) as (Hwf1 & Hpos1 & Hin1).
  assert (Hle1 : r_pos r1 <= 8 * Z.of_nat (length buffer)).
  { unfold r_pos in *. lia. }
  destruct (same =? 0) eqn:Hsame.
  { injection H as <-. cbn [d_reader]. split; [done |]. split; [lia |].
    intros k Hk. rewrite (READ_BIT_within _ k _ _ _ H1 Hwf Hk).
    cbn [mbind option_bind]. by rewrite Hsame. }
  destruct (READ_BIT buffer r1) as [[use_prev r2] |] eqn:H2; [| done].
  cbn [mbind option_bind] in H.
  destruct (READ_BIT_pos _ _ _ _ H2 Hwf1) as (Hwf2 & Hpos2 & Hin2).
  assert (Hle2 : r_pos r2 <= 8 * Z.of_nat (length buffer)).
  { unfold r_pos in *. lia. }
  destruct (use_prev =? 0) eqn:Huse.
  - cbn [mbind option_bind] in H.
    destruct (READ_BITS_from buffer _ 0 r2) as [[bits r3] |] eqn:H3; [| done].
    cbn [mbind option_bind] in H. injection H as <-. cbn [d_reader].
    destruct (READ_BITS_from_pos _ _ _ _ _ _ H3 Hwf2) as (Hwf3 & Hpos3 & Hle3).
    split; [done |]. split; [lia |].
    intros k Hk.
    rewrite (READ_BIT_within _ k _ _ _ H1 Hwf) by lia.
    cbn [mbind option_bind]. rewrite Hsame.
    rewrite (READ_BIT_within _ k _ _ _ H2 Hwf1) by lia.
    cbn [mbind option_bind]. rewrite Huse. cbn [mbind option_bind].
    by rewrite (READ_BITS_from_within _ k _ _ _ _ _ H3 Hwf2 Hk).
  - destruct (READ_BITS_from buffer (Z.to_nat 6) 0 r2) as [[leading r3] |] eqn:H3;
      [| done].
    cbn [mbind option_bind] in H.
    destruct (READ_BITS_from_pos _ _ _ _ _ _ H3 Hwf2) as (Hwf3 & Hpos3 & Hle3).
    destruct (READ_BITS_from buffer (Z.to_nat 6) 0 r3) as [[meaningful r4] |] eqn:H4;
      [| done].
    cbn [mbind option_bind] in H.
    destruct (READ_BITS_from_pos _ _ _ _ _ _ H4 Hwf3) as (Hwf4 & Hpos4 & Hle4).
    destruct (READ_BITS_from buffer (Z.to_nat meaningful) 0 r4)
      as [[bits r5] |] eqn:H5; [| done].
    cbn [mbind option_bind] in H. injection H as <-. cbn [d_reader].
    destruct (READ_BITS_from_pos _ _ _ _ _ _ H5 Hwf4) as (Hwf5 & Hpos5 & Hle5).
    split; [done |]. split; [lia |].
    intros k Hk.
    rewrite (READ_BIT_within _ k _ _ _ H1 Hwf) by lia.
    cbn [mbind option_bind]. rewrite Hsame.
    rewrite (READ_BIT_within _ k _ _ _ H2 Hwf1) by lia.
    cbn [mbind option_bind]. rewrite Huse.
    rewrite (READ_BITS_from_within _ k _ _ _ _ _ H3 Hwf2) by lia.
    cbn [mbind option_bind].
    rewrite (READ_BITS_from_within _ k _ _ _ _ _ H4 Hwf3) by lia.
    cbn [mbind option_bind].
    by rewrite (READ_BITS_from_within _ k _ _ _ _ _ H5 Hwf4 Hk).
Qed.

(** The progress of a run lists what the decoder stores. *)
Lemma decompress_progress_values buffer :
  ∀ todo st,
  (decompress_progress buffer todo st).*1 = decompress_loop buffer todo st.
Proof.
  induction todo as [| todo IH]; intros st; [done |].
  cbn [decompress_progress decompress_loop].
  case_decide; [| done].
  destruct (decompress_value buffer st) as [st' |]; [| done].
  cbn [fmap list_fmap fst]. f_equal. apply IH.
Qed.

(** On the first [k] bytes the loop stores the values that the run on the
    whole buffer completes within [8 * k] bits, and stops there. *)
Lemma decompress_loop_truncated buffer k :
  ∀ todo st,
  0 <= r_bit_pos (d_reader st) < 8 ->
  decompress_loop (take k buffer) todo st
  = complete_within (8 * Z.of_nat k) (decompress_progress buffer todo st).
Proof.
  induction todo as [| todo IH]; intros st Hwf; [done |].
  cbn [decompress_loop decompress_progress].
  rewrite length_take.
  destruct (decide (r_byte_pos (d_reader st) < k `min` length buffer)%nat)
    as [Hin | Hout].
  - destruct (decide (r_byte_pos (d_reader st) < length buffer)%nat); [| lia].
    destruct (decompress_value buffer st) as [st' |] eqn:Hv.
    + destruct (decompress_value_pos _ _ _ Hv Hwf) as (Hwf' & Hpos & Hwithin).
      cbn [complete_within].
      destruct (Z.leb_spec (r_pos (d_reader st')) (8 * Z.of_nat k)) as [Hle | Hgt].
      * rewrite (Hwithin k Hle). f_equal. by apply IH.
      * destruct (decompress_value (take k buffer) st) as [st2 |] eqn:Hv2; [| done].
        pose proof (decompress_value_take _ _ _ _ Hv2) as Hsame.
        rewrite Hv in Hsame. injection Hsame as <-.
        destruct (decompress_value_pos _ _ _ Hv2 Hwf) as (_ & Hpos2 & _).
        rewrite length_take in Hpos2. lia.
    + destruct (decompress_value (take k buffer) st) as [st2 |] eqn:Hv2; [| done].
      pose proof (decompress_value_take _ _ _ _ Hv2) as Hsame. congruence.
  - destruct (decide (r_byte_pos (d_reader st) < length buffer)%nat); [| done].
    destruct (decompress_value buffer st) as [st' |] eqn:Hv; [| done].
    destruct (decompress_value_pos _ _ _ Hv Hwf) as (_ & Hpos & _).
    cbn [complete_within].
    destruct (Z.leb_spec (r_pos (d_reader st')) (8 * Z.of_nat k)) as [Hle | Hgt];
      [| done].
    unfold r_pos in *. lia.
Qed.

Lemma decompress_progress_run buffer max_count :
  (gorilla_decompress_progress buffer max_count).*1
  = gorilla_decompress_f64 buffer max_count.
Proof.
  unfold gorilla_decompress_progress, gorilla_decompress_f64.
  case_decide; [done |].
  destruct (READ_BITS buffer 64 _) as [[v r] |]; [| done].
  cbn [fmap list_fmap fst]. f_equal. apply decompress_progress_values.
Qed.

Lemma decompress_truncated_exact buffer k max_count :
  gorilla_decompress_f64 (take k buffer) max_count
  = complete_within (8 * Z.of_nat k) (gorilla_decompress_progress buffer max_count).
Proof.
  unfold gorilla_decompress_progress, gorilla_decompress_f64.
  rewrite length_take.
  destruct (decide (length buffer < 8)%nat) as [Hshort | Hlong].
  { case_decide; [done | lia]. }
  destruct (READ_BITS buffer 64 {| r_byte_pos := 0; r_bit_pos := 0 |})
    as [[v r] |] eqn:Hr.
  - unfold READ_BITS in Hr.
    destruct (READ_BITS_from_pos _ _ _ _ _ _ Hr ltac:(cbn; lia))
      as (Hwf & Hpos & _).
    unfold r_pos at 2 in Hpos. cbn [r_byte_pos r_bit_pos] in Hpos.
    cbn [complete_within].
    destruct (Z.leb_spec (r_pos r) (8 * Z.of_nat k)) as [Hle | Hgt].
    + case_decide; [lia |].
      unfold READ_BITS.
      rewrite (READ_BITS_from_within _ k _ _ _ _ _ Hr ltac:(cbn; lia) Hle).
      f_equal. by apply decompress_loop_truncated.
    + case_decide; [done | lia].
  - case_decide; [done |].
    destruct (READ_BITS (take k buffer) 64 _) as [[v r] |] eqn:Hr2; [| done].
    apply READ_BITS_take in Hr2. congruence.
Qed.

End Truncation.

(** The scenario of the specification: [1.0; 1.0; 2.0] is written in 12
    bytes and read back as it was; so are NaN, the signed zeros and the
    infinities. *)
Example gorilla_roundtrip_scenarios :
  (∃ buf, Gorilla.gorilla_compress_f64 codec_scenario (replicate 27 0)
            = Some (buf, 12%nat) ∧
          Gorilla.gorilla_decompress_f64 (take 12 buf) 3 = codec_scenario) ∧
  (∃ buf n, Gorilla.gorilla_compress_f64 special_values (replicate 63 0)
              = Some (buf, n) ∧
            Gorilla.gorilla_decompress_f64 (take n buf) 7 = special_values) ∧
  Gorilla.gorilla_compress_f64 [] [] = Some ([], O) ∧
  Gorilla.gorilla_decompress_f64 [] 0 = [].
Proof.
  split_and!.
  - eexists. split; [vm_compute; reflexivity |]. vm_compute; reflexivity.
  - do 2 eexists. split; [vm_compute; reflexivity |]. vm_compute; reflexivity.
  - reflexivity.
  - reflexivity.
Qed.

(** C1 does not hold of the code.  When the XOR of two successive values
    has neither leading nor trailing zeros, the encoder writes the
    block length 64 in a 6-bit field, that is as 0; the decoder reads a
    block of 0 bits and stores the previous value again.  Here
    [1.0; -1.0000000000000002] is written in 18 bytes and read back as
    [1.0; 1.0]. *)
Theorem gorilla_roundtrip_fails_on_full_width_xor :
  ∃ buf,
    Gorilla.gorilla_compress_f64 full_width_pair (replicate 18 0)
      = Some (buf, 18%nat) ∧
    Gorilla.gorilla_decompress_f64 (take 18 buf) (length full_width_pair)
      = [0x3FF0000000000000; 0x3FF0000000000000] ∧
    Gorilla.gorilla_decompress_f64 (take 18 buf) (length full_width_pair)
      ≠ full_width_pair.
Proof.
  eexists. split_and!.
  - vm_compute; reflexivity.
  - vm_compute; reflexivity.
  - vm_compute. discriminate.
Qed.

(** C2 does not hold of the code.  A value whose XOR needs a new block
    description of 63 bits takes 1 + 1 + 6 + 6 + 63 = 77 bits, more than 9
    bytes.  The three values of [wide_triple] take 64 + 77 + 77 = 218
    bits: with a buffer of 3 * 9 = 27 bytes the encoder stores past its
    end, and with room for it the encoder returns 28. *)
Theorem gorilla_compress_overruns_nine_bytes_per_value :
  Gorilla.gorilla_compress_f64 wide_triple (replicate (9 * length wide_triple) 0)
    = None ∧
  ∃ buf, Gorilla.gorilla_compress_f64 wide_triple (replicate 28 0)
           = Some (buf, 28%nat) ∧
         (9 * length wide_triple < 28)%nat.
Proof.
  split; [vm_compute; reflexivity |].
  eexists. split; [vm_compute; reflexivity | simpl; lia].
Qed.

(** C8 does not hold of the code at [max_count = 0].  The first value is
    read and stored before [max_count] is looked at: on the 8 bytes that
    encode [1.0], with [max_count = 0], the decoder stores one value and
    returns 1. *)
Theorem gorilla_decompress_exceeds_zero_max_count :
  Gorilla.gorilla_compress_f64 [0x3FF0000000000000] (replicate 9 0)
    = Some ([63; 240; 0; 0; 0; 0; 0; 0; 0], 8%nat) ∧
  Gorilla.gorilla_decompress_f64 [63; 240; 0; 0; 0; 0; 0; 0] 0
    = [0x3FF0000000000000] ∧
  length (Gorilla.gorilla_decompress_f64 [63; 240; 0; 0; 0; 0; 0; 0] 0) = 1%nat.
Proof.
  split_and!.
  - vm_compute; reflexivity.
  - vm_compute; reflexivity.
  - vm_compute; reflexivity.
Qed.

Section EncoderSize.
Import Gorilla.

Lemma WRITE_BIT_ok b w :
  0 <= w_bit_pos w < 8 ->
  w_pos w < 8 * Z.of_nat (length (w_buffer w)) ->
  ∃ w', WRITE_BIT b w = Some w' ∧ 0 <= w_bit_pos w' < 8 ∧
        w_pos w' = w_pos w + 1 ∧ length (w_buffer w') = length (w_buffer w).
Proof.
  intros Hwf Hroom. unfold w_pos in *.
  assert (Hlt : (w_byte_pos w < length (w_buffer w))%nat) by lia.
  unfold WRITE_BIT.
  assert (Hfirst : ∃ buf,
            (if w_bit_pos w =? 0 then store (w_buffer w) (w_byte_pos w) 0
             else Some (w_buffer w)) = Some buf ∧
            length buf = length (w_buffer w)).
  { destruct (w_bit_pos w =? 0).
    - unfold store. case_decide; [| lia]. eexists. split; [done |].
      by rewrite length_insert.
    - by eexists. }
  destruct Hfirst as (buf1 & -> & Hlen1). cbn [mbind option_bind].
  assert (Hsecond : ∃ buf,
            (if b =? 0 then Some buf1
             else cur ← buf1 !! w_byte_pos w;
                  store buf1 (w_byte_pos w)
                    (Z.lor cur (Z.shiftl 1 (7 - w_bit_pos w)))) = Some buf ∧
            length buf = length (w_buffer w)).
  { destruct (b =? 0); [by eexists |].
    destruct (lookup_lt_is_Some_2 buf1 (w_byte_pos w) ltac:(lia)) as [cur ->].
    cbn [mbind option_bind]. unfold store. case_decide; [| lia].
    eexists. split; [done |]. by rewrite length_insert. }
  destruct Hsecond as (buf2 & -> & Hlen2). cbn [mbind option_bind].
  destruct (Z.eqb_spec (w_bit_pos w + 1) 8).
  - eexists. split; [done |]. cbn. split_and!; lia.
  - eexists. split; [done |]. cbn. split_and!; lia.
Qed.

Lemma WRITE_BITS_ok v :
  ∀ (bits : nat) w,
  0 <= w_bit_pos w < 8 ->
  w_pos w + Z.of_nat bits <= 8 * Z.of_nat (length (w_buffer w)) ->
  ∃ w', WRITE_BITS v bits w = Some w' ∧ 0 <= w_bit_pos w' < 8 ∧
        w_pos w' = w_pos w + Z.of_nat bits ∧
        length (w_buffer w') = length (w_buffer w).
Proof.
  induction bits as [| bits IH]; intros w Hwf Hroom.
  { exists w. split_and!; try done; lia. }
  cbn [WRITE_BITS].
  destruct (WRITE_BIT_ok (Z.land (Z.shiftr v (Z.of_nat bits)) 1) w Hwf ltac:(lia))
    as (w1 & -> & Hwf1 & Hpos1 & Hlen1).
  cbn [mbind option_bind].
  destruct (IH w1 Hwf1 ltac:(lia)) as (w2 & -> & Hwf2 & Hpos2 & Hlen2).
  exists w2. split_and!; try done; lia.
Qed.

Lemma ctz_pos_bounds p : 0 <= ctz_pos p ∧ 2 ^ ctz_pos p <= Z.pos p.
Proof.
  induction p as [p IH | p IH |]; cbn [ctz_pos]; try (simpl; lia).
  destruct IH as [IH0 IH1]. split; [lia |].
  rewrite Z.pow_add_r by lia. change (2 ^ 1) with 2. lia.
Qed.

Lemma ctz_pos_divide p : (Z.pos p) mod 2 ^ ctz_pos p = 0.
Proof.
  induction p as [p IH | p IH |]; cbn [ctz_pos]; try apply Z.mod_1_r.
  pose proof (ctz_pos_bounds p) as [H0 _].
  rewrite Z.pow_add_r by lia. change (2 ^ 1) with 2.
  change (Z.pos p~0) with (2 * Z.pos p).
  rewrite Z.mul_mod_distr_l by lia. rewrite IH. lia.
Qed.

(** The zero counts of a non-zero 64-bit pattern. *)
Lemma zero_counts x :
  0 < x < 2 ^ 64 ->
  0 <= clz64 x ∧ 0 <= ctz64 x ∧ clz64 x + ctz64 x <= 63 ∧
  x < 2 ^ (64 - clz64 x) ∧ x mod 2 ^ ctz64 x = 0.
Proof.
  intros [Hpos Hlt]. unfold clz64.
  destruct (Z.eqb_spec x 0); [lia |].
  pose proof (Z.log2_spec x Hpos) as [Hlo Hhi].
  assert (Hlog : Z.log2 x < 64) by (apply Z.log2_lt_pow2; lia).
  pose proof (Z.log2_nonneg x).
  destruct x as [| p |]; try lia. cbn [ctz64].
  pose proof (ctz_pos_bounds p) as [Hc0 Hc1].
  assert (ctz_pos p <= Z.log2 (Z.pos p)).
  { apply Z.log2_le_pow2; lia. }
  split_and!; try lia.
  - replace (64 - (63 - Z.log2 (Z.pos p))) with (Z.succ (Z.log2 (Z.pos p))) by lia.
    done.
  - apply ctz_pos_divide.
Qed.

Lemma lxor_pattern a b : 0 <= a < 2 ^ 64 -> 0 <= b < 2 ^ 64 -> 0 <= Z.lxor a b < 2 ^ 64.
Proof.
  intros Ha Hb. split; [apply Z.lxor_nonneg; lia |].
  destruct (Z.eq_dec (Z.lxor a b) 0) as [-> | Hne]; [lia |].
  assert (0 < Z.lxor a b) by (pose proof (proj2 (Z.lxor_nonneg a b)); lia).
  apply Z.log2_lt_pow2; [done |].
  pose proof (Z.log2_lxor a b ltac:(lia) ltac:(lia)).
  assert (Z.log2 a < 64).
  { destruct (Z.eq_dec a 0) as [-> |]; [simpl; lia | apply Z.log2_lt_pow2; lia]. }
  assert (Z.log2 b < 64).
  { destruct (Z.eq_dec b 0) as [-> |]; [simpl; lia | apply Z.log2_lt_pow2; lia]. }
  lia.
Qed.

(** One value takes at most 78 bits. *)
Lemma compress_value_ok st d :
  0 <= w_bit_pos (e_writer st) < 8 ->
  descriptor_ok (e_prev_leading st) (e_prev_trailing st) ->
  0 <= e_prev_value st < 2 ^ 64 -> 0 <= d < 2 ^ 64 ->
  w_pos (e_writer st) + 78 <= 8 * Z.of_nat (length (w_buffer (e_writer st))) ->
  ∃ st', compress_value st d = Some st' ∧
         0 <= w_bit_pos (e_writer st') < 8 ∧
         descriptor_ok (e_prev_leading st') (e_prev_trailing st') ∧
         e_prev_value st' = d ∧
         w_pos (e_writer st) < w_pos (e_writer st') <= w_pos (e_writer st) + 78 ∧
         length (w_buffer (e_writer st')) = length (w_buffer (e_writer st)).
Proof.
  intros Hwf Hdesc Hprev Hd Hroom. unfold compress_value, double_to_bits.
  pose proof (lxor_pattern d (e_prev_value st) Hd Hprev) as Hx.
  destruct (Z.eqb_spec (Z.lxor d (e_prev_value st)) 0) as [Hz | Hnz].
  { destruct (WRITE_BIT_ok 0 (e_writer st) Hwf ltac:(lia)) as (w1 & -> & ? & ? & ?).
    cbn [mbind option_bind]. eexists. split; [done |]. cbn. split_and!; try done; lia. }
  destruct (zero_counts (Z.lxor d (e_prev_value st)) ltac:(lia))
    as (Hl0 & Ht0 & Hlt & _ & _).
  destruct (WRITE_BIT_ok 1 (e_writer st) Hwf ltac:(lia)) as (w1 & -> & Hwf1 & Hp1 & Hlen1).
  cbn [mbind option_bind].
  destruct (negb (e_prev_leading st =? -1) && _ && _) eqn:Hreuse.
  - apply andb_true_iff in Hreuse as [Hreuse _].
    apply andb_true_iff in Hreuse as [Hne _].
    apply negb_true_iff, Z.eqb_neq in Hne.
    destruct Hdesc as [[? ?] | (Hpl & Hpt & Hsum)]; [lia |].
    destruct (WRITE_BIT_ok 0 w1 Hwf1 ltac:(lia)) as (w2 & -> & Hwf2 & Hp2 & Hlen2).
    cbn [mbind option_bind].
    destruct (WRITE_BITS_ok
                (Z.shiftr (Z.lxor d (e_prev_value st)) (e_prev_trailing st))
                (Z.to_nat (64 - e_prev_leading st - e_prev_trailing st)) w2 Hwf2
                ltac:(lia)) as (w3 & -> & Hwf3 & Hp3 & Hlen3).
    cbn [mbind option_bind]. eexists. split; [done |]. cbn.
    split_and!; try done; try lia. right. lia.
  - destruct (WRITE_BIT_ok 1 w1 Hwf1 ltac:(lia)) as (w2 & -> & Hwf2 & Hp2 & Hlen2).
    cbn [mbind option_bind].
    destruct (WRITE_BITS_ok (clz64 (Z.lxor d (e_prev_value st))) 6 w2 Hwf2
                ltac:(lia)) as (w3 & -> & Hwf3 & Hp3 & Hlen3).
    cbn [mbind option_bind].
    destruct (WRITE_BITS_ok
                (64 - clz64 (Z.lxor d (e_prev_value st))
                    - ctz64 (Z.lxor d (e_prev_value st))) 6 w3 Hwf3
                ltac:(lia)) as (w4 & -> & Hwf4 & Hp4 & Hlen4).
    cbn [mbind option_bind].
    destruct (WRITE_BITS_ok
                (Z.shiftr (Z.lxor d (e_prev_value st))
                   (ctz64 (Z.lxor d (e_prev_value st))))
                (Z.to_nat (64 - clz64 (Z.lxor d (e_prev_value st))
                              - ctz64 (Z.lxor d (e_prev_value st)))) w4 Hwf4
                ltac:(lia)) as (w5 & -> & Hwf5 & Hp5 & Hlen5).
    cbn [mbind option_bind]. eexists. split; [done |]. cbn.
    split_and!; try done; try lia. right. lia.
Qed.

Lemma compress_loop_ok :
  ∀ rest st,
  valid_patterns rest ->
  0 <= w_bit_pos (e_writer st) < 8 ->
  descriptor_ok (e_prev_leading st) (e_prev_trailing st) ->
  0 <= e_prev_value st < 2 ^ 64 ->
  w_pos (e_writer st) + 78 * Z.of_nat (length rest)
    <= 8 * Z.of_nat (length (w_buffer (e_writer st))) ->
  ∃ st', compress_loop st rest = Some st' ∧
         0 <= w_bit_pos (e_writer st') < 8 ∧
         w_pos (e_writer st') <= w_pos (e_writer st) + 78 * Z.of_nat (length rest) ∧
         length (w_buffer (e_writer st')) = length (w_buffer (e_writer st)).
Proof.
  induction rest as [| d rest IH]; intros st Hvalid Hwf Hdesc Hprev Hroom.
  { exists st. split_and!; try done; simpl; lia. }
  apply Forall_cons in Hvalid as [Hd Hvalid].
  cbn [compress_loop length] in *.
  destruct (compress_value_ok st d Hwf Hdesc Hprev Hd ltac:(lia))
    as (st1 & -> & Hwf1 & Hdesc1 & Hprev1 & Hpos1 & Hlen1).
  cbn [mbind option_bind].
  destruct (IH st1 Hvalid Hwf1 Hdesc1 ltac:(lia) ltac:(lia))
    as (st2 & -> & Hwf2 & Hpos2 & Hlen2).
  exists st2. split_and!; try done; lia.
Qed.

(** With ten bytes of room per value the encoder stays inside its buffer,
    and it returns at most [10 * n] ([78] bits at most per value after the
    first). *)
Lemma compress_within_ten_bytes_per_value data out_buffer :
  valid_patterns data ->
  (10 * length data ≤ length out_buffer)%nat ->
  ∃ buf n, gorilla_compress_f64 data out_buffer = Some (buf, n) ∧
           (n ≤ 10 * length data)%nat ∧ length buf = length out_buffer.
Proof.
  intros Hvalid Hroom. destruct data as [| d0 rest].
  { exists out_buffer, O. split_and!; simpl; try done. }
  apply Forall_cons in Hvalid as [Hd Hvalid].
  cbn [length] in Hroom. unfold gorilla_compress_f64, double_to_bits.
  destruct (WRITE_BITS_ok d0 64
              {| w_buffer := out_buffer; w_byte_pos := 0; w_bit_pos := 0 |})
    as (w1 & -> & Hwf1 & Hpos1 & Hlen1);
    [unfold w_pos; cbn; lia | unfold w_pos; cbn; lia |].
  cbn [mbind option_bind].
  unfold w_pos in Hpos1. cbn in Hpos1, Hlen1.
  destruct (compress_loop_ok rest
              {| e_writer := w1; e_prev_value := d0; e_prev_leading := -1;
                 e_prev_trailing := 0 |})
    as (st & -> & Hwf & Hpos & Hlen).
  { done. } { done. } { by left. } { done. }
  { unfold w_pos. cbn. lia. }
  cbn [mbind option_bind]. unfold w_pos in Hpos. cbn in Hpos, Hlen.
  eexists _, _. split; [done |].
  split; [| lia].
  destruct (Z.ltb_spec 0 (w_bit_pos (e_writer st))); cbn [length]; lia.
Qed.

End EncoderSize.

Section BitStream.
Import Gorilla.

Lemma land_shiftr_bit v j : 0 <= j -> Z.land (Z.shiftr v j) 1 = Z.b2z (Z.testbit v j).
Proof.
  intros Hj. change 1 with (Z.ones 1). rewrite Z.land_ones by lia.
  rewrite Z.shiftr_div_pow2 by done. rewrite Z.testbit_spec' by done. done.
Qed.

Lemma b2z_eqb_0 b : (Z.b2z b =? 0) = negb b.
Proof. by destruct b. Qed.

Lemma stream_bit_insert_other buf i c p :
  (p / 8 ≠ i)%nat -> stream_bit (<[i := c]> buf) p = stream_bit buf p.
Proof. intros H. unfold stream_bit. by rewrite list_lookup_insert_ne. Qed.

(** A store of one more bit keeps the bits written before and adds the
    new one at the end. *)
Lemma WRITE_BIT_written (b : bool) w w' bs :
  WRITE_BIT (Z.b2z b) w = Some w' -> written w bs -> written w' (bs ++ [b]).
Proof.
  intros Hrun (Hwf & Hpos & Hbits & Hlow). unfold w_pos in Hpos.
  unfold WRITE_BIT in Hrun.
  (* the byte under the writer once the first statement is done *)
  assert (Hfirst : ∃ buf1 c0,
            (if w_bit_pos w =? 0 then store (w_buffer w) (w_byte_pos w) 0
             else Some (w_buffer w)) = Some buf1 ∧
            buf1 !! w_byte_pos w = Some c0 ∧
            (∀ j, 0 <= j < 8 - w_bit_pos w -> Z.testbit c0 j = false) ∧
            (∀ p, (p < length bs)%nat -> stream_bit buf1 p = stream_bit (w_buffer w) p)).
  { destruct (Z.eqb_spec (w_bit_pos w) 0) as [H0 | Hn0].
    - unfold store in *. case_decide; [| done].
      eexists _, 0. split_and!; [done | | |].
      + by rewrite list_lookup_insert_eq.
      + intros j _. apply Z.bits_0.
      + intros p Hp. apply stream_bit_insert_other.
        intros Hdiv. pose proof (Nat.div_mod_eq p 8).
        pose proof (Nat.mod_upper_bound p 8). lia.
    - destruct Hlow as (c & Hc & Hclear); [lia |].
      by eexists _, c. }
  destruct Hfirst as (buf1 & c0 & Hb1 & Hc0 & Hclear & Hsame).
  rewrite Hb1 in Hrun. cbn [mbind option_bind] in Hrun.
  rewrite b2z_eqb_0 in Hrun.
  (* and once the second is done *)
  assert (Hsecond : ∃ buf2 c1,
            (if negb b then Some buf1
             else cur ← buf1 !! w_byte_pos w;
                  store buf1 (w_byte_pos w)
                    (Z.lor cur (Z.shiftl 1 (7 - w_bit_pos w)))) = Some buf2 ∧
            buf2 !! w_byte_pos w = Some c1 ∧
            Z.testbit c1 (7 - w_bit_pos w) = b ∧
            (∀ j, 0 <= j -> j ≠ 7 - w_bit_pos w -> Z.testbit c1 j = Z.testbit c0 j) ∧
            (∀ p, (p / 8 ≠ w_byte_pos w)%nat -> stream_bit buf2 p = stream_bit buf1 p) ∧
            length buf2 = length buf1).
  { destruct b; cbn [negb] in *.
    - rewrite Hc0 in *. cbn [mbind option_bind] in *.
      unfold store in *.
      destruct (decide (w_byte_pos w < length buf1)%nat) as [Hin | Hout];
        [| by cbn [mbind option_bind] in Hrun].
      eexists _, _. split_and!; [done | | | | |].
      + by rewrite list_lookup_insert_eq.
      + rewrite Z.lor_spec, Z.shiftl_1_l, Z.pow2_bits_eqb by lia.
        by rewrite Z.eqb_refl, orb_true_r.
      + intros j Hj Hne. rewrite Z.lor_spec, Z.shiftl_1_l, Z.pow2_bits_eqb by lia.
        destruct (Z.eqb_spec (7 - w_bit_pos w) j); [lia |].
        by rewrite orb_false_r.
      + intros p Hp. by apply stream_bit_insert_other.
      + by rewrite length_insert.
    - eexists _, c0. split_and!; try done.
      apply Hclear. lia. }
  destruct Hsecond as (buf2 & c1 & Hb2 & Hc1 & Hnew & Hold & Hother & Hlen).
  rewrite Hb2 in Hrun. cbn [mbind option_bind] in Hrun.
  assert (Hstream : ∀ p b', (bs ++ [b]) !! p = Some b' -> stream_bit buf2 p = Some b').
  { intros p b' Hp.
    pose proof (Nat.div_mod_eq p 8) as Hdm.
    pose proof (Nat.mod_upper_bound p 8 ltac:(lia)) as Hm.
    destruct (decide (p < length bs)%nat) as [Hlt | Hge].
    - rewrite lookup_app_l in Hp by done.
      specialize (Hbits p b' Hp). rewrite <- Hsame in Hbits by done.
      destruct (decide (p / 8 = w_byte_pos w)%nat) as [Heq | Hne];
        [| by rewrite Hother].
      unfold stream_bit in *. rewrite Heq in *. rewrite Hc0 in Hbits.
      rewrite Hc1. cbn [mbind option_bind] in *.
      rewrite Hold by lia. done.
    - apply lookup_lt_Some in Hp as Hlen'. rewrite length_app in Hlen'.
      cbn [length] in Hlen'.
      assert (p = length bs) as -> by lia.
      rewrite list_lookup_middle in Hp by done. injection Hp as <-.
      unfold stream_bit.
      replace (length bs / 8)%nat with (w_byte_pos w) by lia.
      rewrite Hc1. cbn [mbind option_bind].
      replace (Z.of_nat (length bs mod 8)) with (w_bit_pos w) by lia.
      by rewrite Hnew. }
  assert (Hlen_app : Z.of_nat (length (bs ++ [b])) = Z.of_nat (length bs) + 1)
    by (rewrite length_app; simpl; lia).
  destruct (Z.eqb_spec (w_bit_pos w + 1) 8) as [H8 | Hn8];
    injection Hrun as <-; unfold written, w_pos; cbn.
  - split_and!; try lia; try done.
  - split_and!; try lia; try done.
    intros _. exists c1. split; [done |].
    intros j Hj. rewrite Hold by lia. apply Hclear. lia.
Qed.

Lemma WRITE_BITS_written v :
  ∀ (n : nat) w w' bs,
  WRITE_BITS v n w = Some w' -> written w bs -> written w' (bs ++ bits_msb v n).
Proof.
  induction n as [| n IH]; intros w w' bs Hrun Hw.
  { injection Hrun as <-. by rewrite app_nil_r. }
  cbn [WRITE_BITS bits_msb] in *.
  rewrite land_shiftr_bit in Hrun by lia.
  destruct (WRITE_BIT _ w) as [w1 |] eqn:H1; [| done].
  cbn [mbind option_bind] in Hrun.
  pose proof (WRITE_BIT_written _ _ _ _ H1 Hw) as Hw1.
  specialize (IH _ _ _ Hrun Hw1).
  by rewrite <- app_assoc in IH.
Qed.

(** *** Reading *)

Lemma READ_BIT_at buf r p b :
  reader_at r p -> stream_bit buf p = Some b ->
  ∃ r', READ_BIT buf r = Some (Z.b2z b, r') ∧ reader_at r' (S p).
Proof.
  intros [Hwf Hpos] Hbit. unfold stream_bit in Hbit.
  pose proof (Nat.div_mod_eq p 8) as Hdm.
  pose proof (Nat.mod_upper_bound p 8 ltac:(lia)) as Hm.
  replace (p / 8)%nat with (r_byte_pos r) in Hbit by lia.
  replace (Z.of_nat (p mod 8)) with (r_bit_pos r) in Hbit by lia.
  unfold READ_BIT.
  destruct (buf !! r_byte_pos r) as [byte |]; [| done].
  cbn [mbind option_bind] in *. injection Hbit as <-.
  rewrite land_shiftr_bit by lia.
  destruct (Z.eqb_spec (r_bit_pos r + 1) 8);
    eexists; (split; [done |]); unfold reader_at; cbn; lia.
Qed.

(** One step of the accumulation of [READ_BITS]. *)
Lemma read_accumulate a (b : bool) :
  0 <= a ->
  Z.lor (to_uint64 (Z.shiftl a 1)) (Z.b2z b) = (2 * a + Z.b2z b) mod 2 ^ 64.
Proof.
  intros Ha. unfold to_uint64.
  rewrite Z.shiftl_mul_pow2 by lia. change (2 ^ 1) with 2.
  replace (a * 2) with (2 * a) by lia.
  change (2 ^ 64) with (2 * 2 ^ 63).
  rewrite Z.mul_mod_distr_l by lia.
  pose proof (Z.mod_pos_bound a (2 ^ 63) ltac:(lia)) as Hm.
  set (t := a mod 2 ^ 63) in *.
  assert (Hland : Z.land (2 * t) (Z.b2z b) = 0).
  { destruct b; [| apply Z.land_0_r].
    change (Z.b2z true) with (Z.ones 1). rewrite Z.land_ones by lia.
    change (2 ^ 1) with 2. rewrite Z.mul_comm. apply Z.mod_mul. lia. }
  pose proof (Z.add_lor_land (2 * t) (Z.b2z b)) as Hadd.
  rewrite Hland, Z.add_0_r in Hadd. rewrite Hadd.
  assert (Hb : 0 <= Z.b2z b <= 1) by (destruct b; simpl; lia).
  replace (2 * a + Z.b2z b) with ((2 * t + Z.b2z b) + (a / 2 ^ 63) * (2 * 2 ^ 63)).
  - rewrite Z.mod_add by lia. rewrite Z.mod_small; lia.
  - pose proof (Z.div_mod a (2 ^ 63) ltac:(lia)). unfold t. lia.
Qed.

Lemma mod_pow2_succ v (n : nat) :
  v mod 2 ^ Z.of_nat (S n)
  = Z.b2z (Z.testbit v (Z.of_nat n)) * 2 ^ Z.of_nat n + v mod 2 ^ Z.of_nat n.
Proof.
  rewrite Nat2Z.inj_succ, Z.pow_succ_r by lia.
  rewrite (Z.mul_comm 2). rewrite Z.rem_mul_r by lia.
  rewrite Z.testbit_spec' by lia. lia.
Qed.

(** Reading back [n] bits written from [v] gives the [n] low bits of
    [v], pushed into the accumulator. *)
Lemma READ_BITS_from_at buf v :
  ∀ (n : nat) a r p,
  reader_at r p -> 0 <= a < 2 ^ 64 ->
  (∀ k b, bits_msb v n !! k = Some b -> stream_bit buf (p + k) = Some b) ->
  ∃ r', READ_BITS_from buf n a r
          = Some ((a * 2 ^ Z.of_nat n + v mod 2 ^ Z.of_nat n) mod 2 ^ 64, r') ∧
        reader_at r' (p + n).
Proof.
  induction n as [| n IH]; intros a r p Hr Ha Hbits.
  { exists r. cbn [READ_BITS_from]. split.
    - rewrite Z.pow_0_r, Z.mod_1_r, Z.mul_1_r, Z.add_0_r.
      by rewrite Z.mod_small.
    - by rewrite Nat.add_0_r. }
  cbn [READ_BITS_from].
  destruct (READ_BIT_at buf r p (Z.testbit v (Z.of_nat n)) Hr) as (r1 & -> & Hr1).
  { specialize (Hbits 0%nat _ eq_refl). by rewrite Nat.add_0_r in Hbits. }
  cbn [mbind option_bind].
  rewrite read_accumulate by lia.
  destruct (IH ((2 * a + Z.b2z (Z.testbit v (Z.of_nat n))) mod 2 ^ 64) r1 (S p) Hr1)
    as (r2 & -> & Hr2).
  { apply Z.mod_pos_bound. lia. }
  { intros k b Hk. replace (S p + k)%nat with (p + S k)%nat by lia.
    by apply Hbits. }
  exists r2. split.
  - do 2 f_equal. rewrite mod_pow2_succ.
    rewrite Z.add_mod by lia. rewrite Z.mul_mod_idemp_l by lia.
    rewrite <- Z.add_mod by lia. f_equal.
    rewrite Nat2Z.inj_succ, Z.pow_succ_r by lia. lia.
  - by replace (p + S n)%nat with (S p + n)%nat by lia.
Qed.

Lemma READ_BITS_at buf v (n : Z) r p :
  reader_at r p -> 0 <= n <= 64 -> 0 <= v < 2 ^ n ->
  (∀ k b, bits_msb v (Z.to_nat n) !! k = Some b ->
          stream_bit buf (p + k) = Some b) ->
  ∃ r', READ_BITS buf n r = Some (v, r') ∧ reader_at r' (p + Z.to_nat n).
Proof.
  intros Hr Hn Hv Hbits. unfold READ_BITS.
  destruct (READ_BITS_from_at buf v (Z.to_nat n) 0 r p Hr ltac:(lia) Hbits)
    as (r' & -> & Hr').
  exists r'. split; [| done]. do 2 f_equal.
  rewrite Z2Nat.id by lia. rewrite Z.mul_0_l, Z.add_0_l.
  rewrite (Z.mod_small v) by done.
  apply Z.mod_small. split; [lia |].
  assert (2 ^ n <= 2 ^ 64) by (apply Z.pow_le_mono_r; lia). lia.
Qed.

End BitStream.

Section RoundTrip.
Import Gorilla.

Lemma length_bits_msb v n : length (bits_msb v n) = n.
Proof. induction n as [| n IH]; [done |]. cbn [bits_msb length]. by rewrite IH. Qed.

Lemma stream_has_app buf p bs1 bs2 :
  stream_has buf p (bs1 ++ bs2) ->
  stream_has buf p bs1 ∧ stream_has buf (p + length bs1) bs2.
Proof.
  intros H. split.
  - intros k b Hk. apply H. by apply lookup_app_l_Some.
  - intros k b Hk. rewrite <- Nat.add_assoc. apply H.
    rewrite lookup_app_r by lia.
    by replace (length bs1 + k - length bs1)%nat with k by lia.
Qed.

Lemma stream_has_cons buf p b bs :
  stream_has buf p (b :: bs) ->
  stream_bit buf p = Some b ∧ stream_has buf (S p) bs.
Proof.
  intros H. split.
  - specialize (H 0%nat b eq_refl). by rewrite Nat.add_0_r in H.
  - intros k b' Hk. replace (S p + k)%nat with (p + S k)%nat by lia.
    by apply H.
Qed.

Lemma shiftr_range x l t :
  0 <= x < 2 ^ (64 - l) -> 0 <= l -> 0 <= t -> l + t <= 63 ->
  0 <= Z.shiftr x t < 2 ^ (64 - l - t).
Proof.
  intros Hx Hl Ht Hsum. rewrite Z.shiftr_div_pow2 by done.
  assert (0 < 2 ^ t) by (apply Z.pow_pos_nonneg; lia).
  split; [apply Z.div_pos; lia |].
  apply Z.div_lt_upper_bound; [done |].
  rewrite <- Z.pow_add_r by lia.
  replace (t + (64 - l - t)) with (64 - l) by lia. lia.
Qed.

Lemma mod_pow2_weaken x t t' : 0 <= t <= t' -> x mod 2 ^ t' = 0 -> x mod 2 ^ t = 0.
Proof.
  intros Ht Hx.
  assert (0 < 2 ^ t) by (apply Z.pow_pos_nonneg; lia).
  assert (0 < 2 ^ (t' - t)) by (apply Z.pow_pos_nonneg; lia).
  apply Z.mod_divide in Hx as [q Hq]; [| lia].
  replace t' with ((t' - t) + t) in Hq by lia.
  rewrite Z.pow_add_r in Hq by lia.
  rewrite Hq, Z.mul_assoc. apply Z.mod_mul. lia.
Qed.

(** Shifting a block back to its place. *)
Lemma shl64_shiftr x t :
  0 <= x < 2 ^ 64 -> 0 <= t < 64 -> x mod 2 ^ t = 0 ->
  shl64 (Z.shiftr x t) t = x.
Proof.
  intros Hx Ht Hmod. unfold shl64, to_uint64.
  rewrite (Z.mod_small t) by lia.
  rewrite Z.shiftl_mul_pow2, Z.shiftr_div_pow2 by lia.
  assert (0 < 2 ^ t) by (apply Z.pow_pos_nonneg; lia).
  pose proof (Z.div_mod x (2 ^ t) ltac:(lia)) as Hdm.
  replace (x / 2 ^ t * 2 ^ t) with x by lia.
  by apply Z.mod_small.
Qed.

Lemma lxor_cancel d pv : Z.lxor pv (Z.lxor d pv) = d.
Proof.
  rewrite (Z.lxor_comm d pv), <- Z.lxor_assoc, Z.lxor_nilpotent.
  apply Z.lxor_0_l.
Qed.

Lemma pow2_le_pow2 a b : 0 <= a <= b -> 2 ^ a <= 2 ^ b.
Proof. intros H. apply Z.pow_le_mono_r; lia. Qed.

(** One value: what the encoder appends, the decoder reads back, and both
    remember the same afterwards. *)
Lemma value_roundtrip st d st' bs :
  compress_value st d = Some st' ->
  written (e_writer st) bs ->
  0 <= e_prev_value st < 2 ^ 64 -> 0 <= d < 2 ^ 64 ->
  descriptor_narrow (e_prev_leading st) (e_prev_trailing st) ->
  full_width (Z.lxor d (e_prev_value st)) = false ->
  ∃ B, B ≠ [] ∧ written (e_writer st') (bs ++ B) ∧ e_prev_value st' = d ∧
       descriptor_narrow (e_prev_leading st') (e_prev_trailing st') ∧
       ∀ buf dst p,
         reader_at (d_reader dst) p -> states_match st dst -> stream_has buf p B ->
         ∃ dst', decompress_value buf dst = Some dst' ∧ d_prev_value dst' = d ∧
                 states_match st' dst' ∧ reader_at (d_reader dst') (p + length B).
Proof.
  intros Hrun Hw Hpv Hd Hdesc Hfw.
  unfold compress_value, double_to_bits in Hrun.
  pose proof (lxor_pattern d (e_prev_value st) Hd Hpv) as Hx.
  set (x := Z.lxor d (e_prev_value st)) in *.
  destruct (Z.eqb_spec x 0) as [Hz | Hnz].
  { (* the value repeats *)
    destruct (WRITE_BIT 0 (e_writer st)) as [w1 |] eqn:H1; [| done].
    injection Hrun as <-. cbn.
    exists [false]. split_and!; try done.
    - apply (WRITE_BIT_written false _ _ _ H1 Hw).
    - intros buf dst p Hr (Hv & Hl & Ht) Hs.
      apply stream_has_cons in Hs as [Hb _].
      destruct (READ_BIT_at buf _ p false Hr Hb) as (r1 & Hread & Hr1).
      unfold decompress_value. rewrite Hread. cbn.
      eexists. split; [done |]. cbn. unfold states_match. cbn.
      split_and!; try done.
      + rewrite Hv. symmetry. by apply Z.lxor_eq.
      + rewrite Hv. symmetry. by apply Z.lxor_eq.
      + by replace (p + 1)%nat with (S p) by lia. }
  destruct (zero_counts x ltac:(lia)) as (Hl0 & Ht0 & Hsum & Hhi & Hlo).
  assert (Hnarrow : 1 <= clz64 x + ctz64 x).
  { unfold full_width in Hfw. apply andb_false_iff in Hfw as [H | H];
      apply Z.eqb_neq in H; lia. }
  destruct (WRITE_BIT 1 (e_writer st)) as [w1 |] eqn:H1; [| done].
  cbn [mbind option_bind] in Hrun.
  pose proof (WRITE_BIT_written true _ _ _ H1 Hw) as Hw1.
  destruct (negb (e_prev_leading st =? -1) && _ && _) eqn:Hreuse.
  - (* the block fits the remembered window *)
    apply andb_true_iff in Hreuse as [Hreuse Htr].
    apply andb_true_iff in Hreuse as [Hne Hle].
    apply negb_true_iff, Z.eqb_neq in Hne.
    apply Z.leb_le in Htr, Hle.
    destruct Hdesc as [[? ?] | (Hpl & Hpt & Hps)]; [lia |].
    destruct (WRITE_BIT 0 w1) as [w2 |] eqn:H2; [| done].
    cbn [mbind option_bind] in Hrun.
    pose proof (WRITE_BIT_written false _ _ _ H2 Hw1) as Hw2.
    destruct (WRITE_BITS _ _ w2) as [w3 |] eqn:H3; [| done].
    cbn [mbind option_bind] in Hrun. injection Hrun as <-. cbn.
    pose proof (WRITE_BITS_written _ _ _ _ _ H3 Hw2) as Hw3.
    set (m := 64 - e_prev_leading st - e_prev_trailing st) in *.
    set (v := Z.shiftr x (e_prev_trailing st)) in *.
    exists ([true; false] ++ bits_msb v (Z.to_nat m)).
    split_and!; try done.
    + rewrite <- !app_assoc in Hw3. exact Hw3.
    + right. lia.
    + intros buf dst p Hr (Hv & Hl & Ht) Hs.
      apply stream_has_cons in Hs as [Hb1 Hs].
      apply stream_has_cons in Hs as [Hb2 Hs].
      destruct (READ_BIT_at buf _ p true Hr Hb1) as (r1 & Hread1 & Hr1).
      destruct (READ_BIT_at buf _ (S p) false Hr1 Hb2) as (r2 & Hread2 & Hr2).
      assert (Hvr : 0 <= v < 2 ^ m).
      { apply shiftr_range; try lia.
        pose proof (pow2_le_pow2 (64 - clz64 x) (64 - e_prev_leading st)). lia. }
      destruct (READ_BITS_at buf v m r2 (S (S p)) Hr2 ltac:(lia) Hvr Hs)
        as (r3 & Hread3 & Hr3).
      unfold decompress_value. rewrite Hread1. cbn.
      rewrite Hread2. cbn. rewrite Hl, Ht. fold m. rewrite Hread3. cbn.
      eexists. split; [done |]. cbn. unfold states_match. cbn.
      assert (Hback : shl64 v (e_prev_trailing st) = x).
      { apply shl64_shiftr; try lia.
        apply (mod_pow2_weaken x _ (ctz64 x)); [lia | done]. }
      rewrite Hback, Hv.
      split_and!; try done; try apply lxor_cancel.
      match goal with
      | |- reader_at _ ?q =>
          match type of Hr3 with
          | reader_at _ ?q' => replace q with q'; [exact Hr3 |]
          end
      end.
      cbn [app length]. rewrite length_bits_msb. lia.
  - (* a new window is described *)
    destruct (WRITE_BIT 1 w1) as [w2 |] eqn:H2; [| done].
    cbn [mbind option_bind] in Hrun.
    pose proof (WRITE_BIT_written true _ _ _ H2 Hw1) as Hw2.
    destruct (WRITE_BITS (clz64 x) 6 w2) as [w3 |] eqn:H3; [| done].
    cbn [mbind option_bind] in Hrun.
    pose proof (WRITE_BITS_written _ _ _ _ _ H3 Hw2) as Hw3.
    destruct (WRITE_BITS (64 - clz64 x - ctz64 x) 6 w3) as [w4 |] eqn:H4; [| done].
    cbn [mbind option_bind] in Hrun.
    pose proof (WRITE_BITS_written _ _ _ _ _ H4 Hw3) as Hw4.
    destruct (WRITE_BITS _ _ w4) as [w5 |] eqn:H5; [| done].
    cbn [mbind option_bind] in Hrun. injection Hrun as <-. cbn.
    pose proof (WRITE_BITS_written _ _ _ _ _ H5 Hw4) as Hw5.
    set (m := 64 - clz64 x - ctz64 x) in *.
    set (v := Z.shiftr x (ctz64 x)) in *.
    exists ([true; true] ++ bits_msb (clz64 x) 6 ++ bits_msb m 6
              ++ bits_msb v (Z.to_nat m)).
    split_and!; try done.
    + rewrite <- !app_assoc in Hw5. exact Hw5.
    + right. lia.
    + intros buf dst p Hr (Hv & Hl & Ht) Hs.
      apply stream_has_cons in Hs as [Hb1 Hs].
      apply stream_has_cons in Hs as [Hb2 Hs].
      apply stream_has_app in Hs as [Hs1 Hs].
      apply stream_has_app in Hs as [Hs2 Hs3].
      rewrite !length_bits_msb in *.
      destruct (READ_BIT_at buf _ p true Hr Hb1) as (r1 & Hread1 & Hr1).
      destruct (READ_BIT_at buf _ (S p) true Hr1 Hb2) as (r2 & Hread2 & Hr2).
      destruct (READ_BITS_at buf (clz64 x) 6 r2 (S (S p)) Hr2 ltac:(lia)
                  ltac:(change (2 ^ 6) with 64; lia) Hs1)
        as (r3 & Hread3 & Hr3).
      destruct (READ_BITS_at buf m 6 r3 _ Hr3 ltac:(lia)
                  ltac:(change (2 ^ 6) with 64; lia) Hs2)
        as (r4 & Hread4 & Hr4).
      assert (Hvr : 0 <= v < 2 ^ m).
      { unfold m. apply shiftr_range; lia. }
      destruct (READ_BITS_at buf v m r4 _ Hr4 ltac:(lia) Hvr Hs3)
        as (r5 & Hread5 & Hr5).
      unfold decompress_value. rewrite Hread1. cbn.
      rewrite Hread2. cbn. rewrite Hread3. cbn. rewrite Hread4. cbn.
      replace (64 - clz64 x - m) with (ctz64 x) by lia.
      rewrite Hread5. cbn.
      eexists. split; [done |]. cbn. unfold states_match. cbn.
      assert (Hback : shl64 v (ctz64 x) = x) by (apply shl64_shiftr; lia).
      rewrite Hback, Hv.
      split_and!; try done; try apply lxor_cancel.
      match goal with
      | |- reader_at _ ?q =>
          match type of Hr5 with
          | reader_at _ ?q' => replace q with q'; [exact Hr5 |]
          end
      end.
      cbn [app length]. rewrite ?length_app, ?length_bits_msb. lia.
Qed.

(** The loops of the encoder and of the decoder, value by value. *)
Lemma loop_roundtrip :
  ∀ rest st st' bs,
  compress_loop st rest = Some st' ->
  written (e_writer st) bs ->
  0 <= e_prev_value st < 2 ^ 64 -> valid_patterns rest ->
  descriptor_narrow (e_prev_leading st) (e_prev_trailing st) ->
  no_full_width (e_prev_value st) rest = true ->
  ∃ B, written (e_writer st') (bs ++ B) ∧
       ∀ buf dst p,
         reader_at (d_reader dst) p -> states_match st dst -> stream_has buf p B ->
         decompress_loop buf (length rest) dst = rest.
Proof.
  induction rest as [| d rest IH]; intros st st' bs Hrun Hw Hpv Hvalid Hdesc Hnfw.
  { injection Hrun as <-. exists []. rewrite app_nil_r. by split. }
  apply Forall_cons in Hvalid as [Hd Hvalid].
  cbn [compress_loop no_full_width] in *.
  apply andb_true_iff in Hnfw as [Hfw Hnfw]. apply negb_true_iff in Hfw.
  destruct (compress_value st d) as [st1 |] eqn:H1; [| done].
  cbn [mbind option_bind] in Hrun.
  destruct (value_roundtrip st d st1 bs H1 Hw Hpv Hd Hdesc Hfw)
    as (B1 & Hne & Hw1 & Hv1 & Hdesc1 & Hdec1).
  rewrite <- Hv1 in Hnfw, Hd.
  destruct (IH st1 st' (bs ++ B1) Hrun Hw1 Hd Hvalid Hdesc1 Hnfw)
    as (B2 & Hw2 & Hdec2).
  exists (B1 ++ B2). split; [by rewrite app_assoc |].
  intros buf dst p Hr Hm Hs.
  apply stream_has_app in Hs as [Hs1 Hs2].
  destruct (Hdec1 buf dst p Hr Hm Hs1) as (dst' & Hval & Hout & Hm' & Hr').
  cbn [decompress_loop length].
  assert (Hin : (r_byte_pos (d_reader dst) < length buf)%nat).
  { destruct B1 as [| b B1]; [done |].
    apply stream_has_cons in Hs1 as [Hb _]. unfold stream_bit in Hb.
    destruct (buf !! (p / 8)%nat) eqn:Hbyte; [| done].
    apply lookup_lt_Some in Hbyte. destruct Hr as [Hwf Hpos].
    pose proof (Nat.div_mod_eq p 8). pose proof (Nat.mod_upper_bound p 8). lia. }
  case_decide; [| done].
  rewrite Hval. unfold bits_to_double. rewrite Hout. f_equal.
  by apply (Hdec2 buf dst' (p + length B1)%nat).
Qed.

(** Round trip, for a column without full-width XOR: if the encoder
    returns, the decoder gives the column back from the bytes returned. *)
Lemma roundtrip_of_compressed data out_buffer buf n :
  valid_patterns data -> narrow_blocks data = true ->
  gorilla_compress_f64 data out_buffer = Some (buf, n) ->
  gorilla_decompress_f64 (take n buf) (length data) = data.
Proof.
  intros Hvalid Hnarrow Hrun.
  destruct data as [| d0 rest].
  { injection Hrun as <- <-. done. }
  apply Forall_cons in Hvalid as [Hd0 Hvalid].
  unfold gorilla_compress_f64, double_to_bits in Hrun.
  destruct (WRITE_BITS d0 64 _) as [w1 |] eqn:H1; [| done].
  cbn [mbind option_bind] in Hrun.
  destruct (compress_loop _ rest) as [st |] eqn:H2; [| done].
  cbn [mbind option_bind] in Hrun. injection Hrun as <- <-.
  assert (Hw0 : written {| w_buffer := out_buffer; w_byte_pos := 0; w_bit_pos := 0 |} []).
  { unfold written, w_pos. cbn. split_and!; try lia; done. }
  pose proof (WRITE_BITS_written _ _ _ _ _ H1 Hw0) as Hw1. cbn [app] in Hw1.
  destruct (loop_roundtrip rest _ st _ H2 Hw1 Hd0 Hvalid ltac:(by left) Hnarrow)
    as (B & Hw & Hdec).
  destruct Hw as (Hwf & Hpos & Hbits & _). unfold w_pos in Hpos.
  rewrite length_app, length_bits_msb in Hpos.
  set (n := if 0 <? w_bit_pos (e_writer st)
            then S (w_byte_pos (e_writer st)) else w_byte_pos (e_writer st)).
  assert (Hn : 8 * Z.of_nat n - 8 < Z.of_nat (64 + length B) <= 8 * Z.of_nat n).
  { unfold n. destruct (Z.ltb_spec 0 (w_bit_pos (e_writer st))); lia. }
  (* the bits written are in the first [n] bytes *)
  assert (Hstream : stream_has (take n (w_buffer (e_writer st))) 0
                      (bits_msb d0 64 ++ B)).
  { intros k b Hk. cbn [Nat.add].
    pose proof (lookup_lt_Some _ _ _ Hk) as Hlt.
    rewrite length_app, length_bits_msb in Hlt.
    specialize (Hbits k b Hk). unfold stream_bit in *.
    pose proof (Nat.div_mod_eq k 8). pose proof (Nat.mod_upper_bound k 8).
    rewrite lookup_take_lt by lia. done. }
  assert (Hlen : (n ≤ length (w_buffer (e_writer st)))%nat).
  { destruct (lookup_lt_is_Some_2 (bits_msb d0 64 ++ B) (63 + length B)%nat)
      as [b Hb]; [rewrite length_app, length_bits_msb; lia |].
    specialize (Hbits _ _ Hb). unfold stream_bit in Hbits.
    destruct (w_buffer (e_writer st) !! ((63 + length B) / 8)%nat) eqn:Hbyte;
      [| done].
    apply lookup_lt_Some in Hbyte.
    pose proof (Nat.div_mod_eq (63 + length B) 8).
    pose proof (Nat.mod_upper_bound (63 + length B) 8). lia. }
  unfold gorilla_decompress_f64.
  rewrite length_take. case_decide; [lia |].
  apply stream_has_app in Hstream as [Hfirst Hrest].
  rewrite length_bits_msb in Hrest.
  destruct (READ_BITS_at (take n (w_buffer (e_writer st))) d0 64
              {| r_byte_pos := 0; r_bit_pos := 0 |} 0%nat)
    as (r1 & -> & Hr1).
  { unfold reader_at. cbn. lia. }
  { lia. }
  { done. }
  { exact Hfirst. }
  unfold bits_to_double. f_equal.
  cbn [length]. replace (S (length rest) - 1)%nat with (length rest) by lia.
  apply (Hdec _ _ (0 + Z.to_nat 64)%nat); try done.
Qed.

End RoundTrip.

(** X17.  Where the round trip does hold: for a column of 64-bit patterns in
    which no two successive values have a full-width XOR, and an output
    buffer of ten bytes per value, the encoder returns and the decoder
    gives the column back, bit for bit, from the bytes returned. *)
Theorem gorilla_roundtrip_narrow_blocks (data : list double) (out_buffer : list Z) :
  valid_patterns data -> narrow_blocks data = true ->
  (10 * length data ≤ length out_buffer)%nat ->
  ∃ buf n,
    Gorilla.gorilla_compress_f64 data out_buffer = Some (buf, n) ∧
    (n ≤ 10 * length data)%nat ∧
    Gorilla.gorilla_decompress_f64 (take n buf) (length data) = data.
Proof.
  intros Hvalid Hnarrow Hroom.
  destruct (compress_within_ten_bytes_per_value data out_buffer Hvalid Hroom)
    as (buf & n & Hrun & Hn & _).
  exists buf, n. split_and!; [done | done |].
  by eapply roundtrip_of_compressed.
Qed.

(** * Truncated streams *)

Section TruncatedStream.
Import Gorilla.

Lemma compress_loop_app :
  ∀ (a b : list double) st,
  compress_loop st (a ++ b) = (st1 ← compress_loop st a; compress_loop st1 b).
Proof.
  induction a as [| d a IH]; intros b st; [done |].
  cbn [app compress_loop].
  destruct (compress_value st d) as [st1 |]; [| done].
  cbn [mbind option_bind]. apply IH.
Qed.

(** Whatever the value, the encoder only appends bits. *)
Lemma compress_value_written st d st' bs :
  compress_value st d = Some st' -> written (e_writer st) bs ->
  ∃ B, written (e_writer st') (bs ++ B).
Proof.
  unfold compress_value. cbv zeta. intros H Hw.
  destruct (Z.lxor (double_to_bits d) (e_prev_value st) =? 0).
  { destruct (WRITE_BIT 0 (e_writer st)) as [w1 |] eqn:H1; [| done].
    injection H as <-. cbn [e_writer].
    exists [false]. by apply (WRITE_BIT_written false _ _ _ H1). }
  destruct (WRITE_BIT 1 (e_writer st)) as [w1 |] eqn:H1; [| done].
  cbn [mbind option_bind] in H.
  pose proof (WRITE_BIT_written true _ _ _ H1 Hw) as Hw1.
  destruct (negb (e_prev_leading st =? -1) && _ && _).
  - destruct (WRITE_BIT 0 w1) as [w2 |] eqn:H2; [| done].
    cbn [mbind option_bind] in H.
    pose proof (WRITE_BIT_written false _ _ _ H2 Hw1) as Hw2.
    destruct (WRITE_BITS _ _ w2) as [w3 |] eqn:H3; [| done].
    injection H as <-. cbn [e_writer].
    pose proof (WRITE_BITS_written _ _ _ _ _ H3 Hw2) as Hw3.
    rewrite <- !app_assoc in Hw3. eexists. exact Hw3.
  - destruct (WRITE_BIT 1 w1) as [w2 |] eqn:H2; [| done].
    cbn [mbind option_bind] in H.
    pose proof (WRITE_BIT_written true _ _ _ H2 Hw1) as Hw2.
    destruct (WRITE_BITS _ 6 w2) as [w3 |] eqn:H3; [| done].
    cbn [mbind option_bind] in H.
    pose proof (WRITE_BITS_written _ _ _ _ _ H3 Hw2) as Hw3.
    destruct (WRITE_BITS _ 6 w3) as [w4 |] eqn:H4; [| done].
    cbn [mbind option_bind] in H.
    pose proof (WRITE_BITS_written _ _ _ _ _ H4 Hw3) as Hw4.
    destruct (WRITE_BITS _ _ w4) as [w5 |] eqn:H5; [| done].
    injection H as <-. cbn [e_writer].
    pose proof (WRITE_BITS_written _ _ _ _ _ H5 Hw4) as Hw5.
    rewrite <- !app_assoc in Hw5. eexists. exact Hw5.
Qed.

Lemma compress_loop_written :
  ∀ rest st st' bs,
  compress_loop st rest = Some st' -> written (e_writer st) bs ->
  ∃ B, written (e_writer st') (bs ++ B).
Proof.
  induction rest as [| d rest IH]; intros st st' bs H Hw; cbn [compress_loop] in H.
  { injection H as <-. exists []. by rewrite app_nil_r. }
  destruct (compress_value st d) as [st1 |] eqn:H1; [| done].
  cbn [mbind option_bind] in H.
  destruct (compress_value_written _ _ _ _ H1 Hw) as (B1 & Hw1).
  destruct (IH _ _ _ H Hw1) as (B2 & Hw2).
  exists (B1 ++ B2). by rewrite app_assoc.
Qed.

(** The values whose encoding lies within the bytes kept are decoded: if
    the first values [pre] of a column have no full-width XOR, then from
    any truncation of the stream that keeps the bytes [pre] is encoded in,
    the decoder returns at least [pre]. *)
Lemma truncated_keeps_encoded_prefix (pre post : list double)
    (out_buffer buf : list Z) (n : nat) :
  pre ≠ [] -> valid_patterns pre -> narrow_blocks pre = true ->
  gorilla_compress_f64 (pre ++ post) out_buffer = Some (buf, n) ->
  ∃ buf_pre m,
    gorilla_compress_f64 pre out_buffer = Some (buf_pre, m) ∧ (m ≤ n)%nat ∧
    ∀ k max_count, (m ≤ k)%nat -> (length pre ≤ max_count)%nat ->
      pre `prefix_of` gorilla_decompress_f64 (take k buf) max_count.
Proof.
  intros Hne Hvalid Hnarrow Hrun.
  destruct pre as [| d0 pre']; [done |].
  apply Forall_cons in Hvalid as [Hd0 Hvalid].
  cbn [app] in Hrun. unfold gorilla_compress_f64, double_to_bits in Hrun |- *.
  destruct (WRITE_BITS d0 64 _) as [w1 |] eqn:H1; [| done].
  cbn [mbind option_bind] in Hrun |- *.
  rewrite compress_loop_app in Hrun.
  destruct (compress_loop _ pre') as [st1 |] eqn:H2; [| done].
  cbn [mbind option_bind] in Hrun |- *.
  destruct (compress_loop st1 post) as [st |] eqn:H3; [| done].
  cbn [mbind option_bind] in Hrun. injection Hrun as <- <-.
  assert (Hw0 : written {| w_buffer := out_buffer; w_byte_pos := 0; w_bit_pos := 0 |} []).
  { unfold written, w_pos. cbn. split_and!; try lia; done. }
  pose proof (WRITE_BITS_written _ _ _ _ _ H1 Hw0) as Hw1. cbn [app] in Hw1.
  destruct (loop_roundtrip pre' _ st1 _ H2 Hw1 Hd0 Hvalid ltac:(by left) Hnarrow)
    as (B & Hwpre & Hdec).
  destruct (compress_loop_written _ _ _ _ H3 Hwpre) as (B2 & Hwall).
  destruct Hwpre as (Hwf1 & Hpos1 & _ & _).
  destruct Hwall as (Hwf & Hpos & Hbits & _).
  unfold w_pos in Hpos1, Hpos.
  repeat rewrite length_app in Hpos1. repeat rewrite length_app in Hpos.
  rewrite length_bits_msb in Hpos1, Hpos.
  set (m := if 0 <? w_bit_pos (e_writer st1)
            then S (w_byte_pos (e_writer st1)) else w_byte_pos (e_writer st1)).
  set (n := if 0 <? w_bit_pos (e_writer st)
            then S (w_byte_pos (e_writer st)) else w_byte_pos (e_writer st)).
  assert (Hm : 8 * Z.of_nat m - 8 < Z.of_nat (64 + length B) <= 8 * Z.of_nat m).
  { unfold m. destruct (Z.ltb_spec 0 (w_bit_pos (e_writer st1))); lia. }
  assert (Hn : 8 * Z.of_nat n - 8 < Z.of_nat (64 + length B + length B2)
               <= 8 * Z.of_nat n).
  { unfold n. destruct (Z.ltb_spec 0 (w_bit_pos (e_writer st))); lia. }
  eexists _, m. split; [reflexivity |]. split; [lia |].
  intros k max_count Hk Hmax. cbn [length] in Hmax.
  (* the bits of [pre] are in the first [k] bytes *)
  assert (Hstream : stream_has (take k (w_buffer (e_writer st))) 0
                      (bits_msb d0 64 ++ B)).
  { intros j b Hj. cbn [Nat.add].
    pose proof (lookup_lt_Some _ _ _ Hj) as Hlt.
    rewrite length_app, length_bits_msb in Hlt.
    assert (Hj' : ((bits_msb d0 64 ++ B) ++ B2) !! j = Some b).
    { by apply lookup_app_l_Some. }
    specialize (Hbits j b Hj'). unfold stream_bit in *.
    pose proof (Nat.div_mod_eq j 8). pose proof (Nat.mod_upper_bound j 8).
    rewrite lookup_take_lt by lia. done. }
  assert (Hlen : (m ≤ length (w_buffer (e_writer st)))%nat).
  { destruct (lookup_lt_is_Some_2 ((bits_msb d0 64 ++ B) ++ B2) (63 + length B)%nat)
      as [b Hb]; [rewrite !length_app, length_bits_msb; lia |].
    specialize (Hbits _ _ Hb). unfold stream_bit in Hbits.
    destruct (w_buffer (e_writer st) !! ((63 + length B) / 8)%nat) eqn:Hbyte;
      [| done].
    apply lookup_lt_Some in Hbyte.
    pose proof (Nat.div_mod_eq (63 + length B) 8).
    pose proof (Nat.mod_upper_bound (63 + length B) 8). lia. }
  unfold gorilla_decompress_f64.
  rewrite length_take. case_decide; [lia |].
  apply stream_has_app in Hstream as [Hfirst Hrest].
  rewrite length_bits_msb in Hrest.
  destruct (READ_BITS_at (take k (w_buffer (e_writer st))) d0 64
              {| r_byte_pos := 0; r_bit_pos := 0 |} 0%nat)
    as (r1 & -> & Hr1).
  { unfold reader_at. cbn. lia. }
  { lia. }
  { done. }
  { exact Hfirst. }
  unfold bits_to_double. apply prefix_cons.
  rewrite <- (Hdec (take k (w_buffer (e_writer st)))
                {| d_reader := r1; d_prev_value := d0; d_prev_leading := -1;
                   d_prev_trailing := 0 |} (0 + Z.to_nat 64)%nat) at 1;
    try done.
  apply decompress_loop_prefix. lia.
Qed.

End TruncatedStream.

(** C9.  A buffer shorter than 8 bytes decodes to no value.  Decoding the
    first [k] bytes of any buffer, in particular of the stream
    [gorilla_compress_f64] wrote for a column [S], returns a list of
    values (the function has no error result) that is a prefix of what the
    whole buffer decodes to under the same [max_count].  The count it
    returns is the count decoded so far: the run on the whole buffer
    stores its values one after the other, each after a number of bits
    read ([gorilla_decompress_progress]), and the run on the first [k]
    bytes stores exactly the values of that run that are complete within
    [8 * k] bits, stopping at the first one that is not.  On the encoder's
    side: when the first values [pre] of a column have no full-width XOR,
    every truncation of the stream that keeps the bytes [pre] is encoded
    in decodes to at least [pre].  For [1.0; 1.0; 2.0], written in 12
    bytes (64 bits, 1 bit, 25 bits), the first 7, 8, 9, 11 and 12 bytes
    decode to 0, 1, 2, 2 and 3 values. *)
Theorem gorilla_decompress_truncated :
  (∀ (buffer : list Z) (max_count : nat),
     (length buffer < 8)%nat ->
     Gorilla.gorilla_decompress_f64 buffer max_count = []) ∧
  (∀ (buffer : list Z) (k max_count : nat),
     Gorilla.gorilla_decompress_f64 (take k buffer) max_count
       `prefix_of` Gorilla.gorilla_decompress_f64 buffer max_count) ∧
  (∀ (S : list double) (out_buffer buf : list Z) (n k max_count : nat),
     Gorilla.gorilla_compress_f64 S out_buffer = Some (buf, n) ->
     (k ≤ n)%nat ->
     Gorilla.gorilla_decompress_f64 (take k buf) max_count
       `prefix_of` Gorilla.gorilla_decompress_f64 (take n buf) max_count) ∧
  (∀ (buffer : list Z) (max_count : nat),
     fst <$> gorilla_decompress_progress buffer max_count
     = Gorilla.gorilla_decompress_f64 buffer max_count) ∧
  (∀ (buffer : list Z) (k max_count : nat),
     Gorilla.gorilla_decompress_f64 (take k buffer) max_count
     = complete_within (8 * Z.of_nat k)
         (gorilla_decompress_progress buffer max_count)) ∧
  (∀ (pre post : list double) (out_buffer buf : list Z) (n : nat),
     pre ≠ [] -> valid_patterns pre -> narrow_blocks pre = true ->
     Gorilla.gorilla_compress_f64 (pre ++ post) out_buffer = Some (buf, n) ->
     ∃ (buf_pre : list Z) (m : nat),
       Gorilla.gorilla_compress_f64 pre out_buffer = Some (buf_pre, m) ∧
       (m ≤ n)%nat ∧
       ∀ k max_count : nat, (m ≤ k)%nat -> (length pre ≤ max_count)%nat ->
         pre `prefix_of` Gorilla.gorilla_decompress_f64 (take k buf) max_count) ∧
  Gorilla.gorilla_compress_f64 codec_scenario (replicate 12 0)
    = Some ([63; 240; 0; 0; 0; 0; 0; 0; 96; 151; 255; 192], 12%nat) ∧
  gorilla_decompress_progress [63; 240; 0; 0; 0; 0; 0; 0; 96; 151; 255; 192] 3
    = [(0x3FF0000000000000, 64); (0x3FF0000000000000, 65);
       (0x4000000000000000, 90)] ∧
  (λ k, Gorilla.gorilla_decompress_f64
          (take k [63; 240; 0; 0; 0; 0; 0; 0; 96; 151; 255; 192]) 3)
    <$> [7; 8; 9; 11; 12]%nat
  = [[];
     [0x3FF0000000000000];
     [0x3FF0000000000000; 0x3FF0000000000000];
     [0x3FF0000000000000; 0x3FF0000000000000];
     [0x3FF0000000000000; 0x3FF0000000000000; 0x4000000000000000]].
Proof.
  split; [| split; [| split; [| split; [| split; [| split; [| split; [| split]]]]]]].
  - intros buffer max_count H. unfold Gorilla.gorilla_decompress_f64.
    by case_decide.
  - intros. apply decompress_take.
  - intros S out_buffer buf n k max_count _ Hk.
    replace (take k buf) with (take k (take n buf)).
    + apply decompress_take.
    + rewrite take_take. f_equal. lia.
  - intros. apply decompress_progress_run.
  - intros. apply decompress_truncated_exact.
  - intros pre post out_buffer buf n. apply truncated_keeps_encoded_prefix.
  - vm_compute. reflexivity.
  - vm_compute. reflexivity.
  - vm_compute. reflexivity.
Qed.

Lemma gorilla_decompress_truncated_witness :
  Gorilla.gorilla_decompress_f64 [63; 240; 0; 0; 0; 0; 0] 3 = [] ∧
  Gorilla.gorilla_decompress_f64
    (take 9 [63; 240; 0; 0; 0; 0; 0; 0; 96; 151; 255; 192]) 3
    `prefix_of`
  Gorilla.gorilla_decompress_f64
    (take 12 [63; 240; 0; 0; 0; 0; 0; 0; 96; 151; 255; 192]) 3 ∧
  ∃ (buf_pre : list Z) (m : nat),
    Gorilla.gorilla_compress_f64 [0x3FF0000000000000; 0x3FF0000000000000]
      (replicate 12 0) = Some (buf_pre, m) ∧
    (m ≤ 12)%nat ∧
    ∀ k max_count : nat,
      (m ≤ k)%nat -> (2 ≤ max_count)%nat ->
      [0x3FF0000000000000; 0x3FF0000000000000]
        `prefix_of`
      Gorilla.gorilla_decompress_f64
        (take k [63; 240; 0; 0; 0; 0; 0; 0; 96; 151; 255; 192]) max_count.
Proof.
  split; [| split].
  - apply (proj1 gorilla_decompress_truncated [63; 240; 0; 0; 0; 0; 0] 3%nat).
    simpl; lia.
  - apply (proj1 (proj2 (proj2 gorilla_decompress_truncated)) codec_scenario
             (replicate 12 0)
             [63; 240; 0; 0; 0; 0; 0; 0; 96; 151; 255; 192] 12%nat 9%nat 3%nat).
    + vm_compute; reflexivity.
    + lia.
  - apply (proj1 (proj2 (proj2 (proj2 (proj2 (proj2 gorilla_decompress_truncated)))))
             [0x3FF0000000000000; 0x3FF0000000000000] [0x4000000000000000]
             (replicate 12 0)
             [63; 240; 0; 0; 0; 0; 0; 0; 96; 151; 255; 192] 12%nat).
    + discriminate.
    + repeat constructor; lia.
    + vm_compute; reflexivity.
    + vm_compute; reflexivity.
Defined.

(** * Threshold filters *)

Section Filters.

Lemma to_uint32_small x : 0 <= x < 2 ^ 32 -> to_uint32 x = x.
Proof. intros H. unfold to_uint32. by apply Z.mod_small. Qed.

Lemma take_S_insert {A} (l : list A) (i : nat) (v : A) :
  (i < length l)%nat -> take (S i) (<[i := v]> l) = take i l ++ [v].
Proof.
  intros H.
  rewrite (take_S_r (<[i := v]> l) i v) by (by apply list_lookup_insert_eq).
  by rewrite take_insert_ge by lia.
Qed.

Lemma rows_where_S keep first len :
  rows_where keep first (S len)
  = if keep first then first :: rows_where keep (S first) len
    else rows_where keep (S first) len.
Proof.
  unfold rows_where. cbn [seq]. rewrite filter_cons.
  destruct (keep first); by case_decide.
Qed.

Lemma rows_where_length keep first len :
  (length (rows_where keep first len) ≤ len)%nat.
Proof.
  unfold rows_where. etrans; [apply length_filter |]. by rewrite length_seq.
Qed.

(** What one step of a filter does to the count and the buffer. *)
Lemma filter_store_step (count : nat) (out : list Z) (i : nat) (sel : list nat) :
  (S count + length sel ≤ length out)%nat ->
  take (S count) (<[count := Z.of_nat i]> out) ++ (Z.of_nat <$> sel)
    ++ drop (S count + length sel) (<[count := Z.of_nat i]> out)
  = take count out ++ (Z.of_nat <$> i :: sel)
    ++ drop (count + S (length sel)) out.
Proof.
  intros H. rewrite take_S_insert by lia. rewrite drop_insert_lt by lia.
  rewrite <- app_assoc. cbn [fmap list_fmap app].
  by replace (S count + length sel)%nat with (count + S (length sel))%nat by lia.
Qed.

Lemma filter_gt_tail_spec data threshold :
  Z.of_nat (length data) <= 2 ^ 32 ->
  ∀ (todo i count : nat) (out : list Z),
  (i + todo ≤ length data)%nat ->
  (count + length (rows_where (exceeds_at data threshold) i todo) ≤ length out)%nat ->
  filter_gt_tail data threshold todo i (count, out)
  = Some ((count + length (rows_where (exceeds_at data threshold) i todo))%nat,
          take count out
            ++ (Z.of_nat <$> rows_where (exceeds_at data threshold) i todo)
            ++ drop (count + length (rows_where (exceeds_at data threshold) i todo)) out).
Proof.
  intros Hn. induction todo as [| todo IH]; intros i count out Hi Hcap.
  { cbn. rewrite Nat.add_0_r. by rewrite take_drop. }
  rewrite rows_where_S in Hcap |- *.
  cbn [filter_gt_tail]. unfold filter_gt_one at 1. cbn [fst snd].
  destruct (lookup_lt_is_Some_2 data i ltac:(lia)) as [x Hx].
  rewrite Hx. cbn [mbind option_bind].
  assert (Hkeep : exceeds_at data threshold i = F64.gt x threshold).
  { unfold exceeds_at. by rewrite Hx. }
  rewrite Hkeep in Hcap |- *.
  destruct (F64.gt x threshold).
  - cbn [length] in Hcap. unfold store. case_decide; [| lia].
    cbn [mbind option_bind]. rewrite to_uint32_small by lia.
    rewrite IH by (rewrite ?length_insert; lia).
    f_equal. f_equal; [cbn [length]; lia |].
    apply filter_store_step. lia.
  - cbn [mbind option_bind]. by rewrite IH by lia.
Qed.

Lemma filter_gt_unrolled_tail data threshold n :
  ∀ fuel i st, (n - i ≤ 4 * fuel)%nat ->
  filter_gt_unrolled fuel data threshold n i st
  = filter_gt_tail data threshold (n - i) i st.
Proof.
  induction fuel as [| fuel IH]; intros i st Hfuel.
  { cbn [filter_gt_unrolled]. case_decide; [lia | done]. }
  cbn [filter_gt_unrolled]. case_decide as Hi; [| done].
  replace (n - i)%nat with (S (S (S (S (n - (i + 4)))))) by lia.
  cbn [filter_gt_tail].
  destruct (filter_gt_one data threshold i st) as [s1 |]; [| done].
  cbn [mbind option_bind]. replace (i + 1)%nat with (S i) by lia.
  destruct (filter_gt_one data threshold (S i) s1) as [s2 |]; [| done].
  cbn [mbind option_bind]. replace (i + 2)%nat with (S (S i)) by lia.
  destruct (filter_gt_one data threshold (S (S i)) s2) as [s3 |]; [| done].
  cbn [mbind option_bind]. replace (i + 3)%nat with (S (S (S i))) by lia.
  destruct (filter_gt_one data threshold (S (S (S i))) s3) as [s4 |]; [| done].
  cbn [mbind option_bind]. replace (S (S (S (S i)))) with (i + 4)%nat by lia.
  apply IH. lia.
Qed.

(** An index buffer with fewer cells than there are matching rows is
    overrun. *)
Lemma filter_gt_tail_overrun data threshold :
  ∀ (todo i count : nat) (out : list Z),
  (i + todo ≤ length data)%nat ->
  (count ≤ length out)%nat ->
  (length out < count + length (rows_where (exceeds_at data threshold) i todo))%nat ->
  filter_gt_tail data threshold todo i (count, out) = None.
Proof.
  induction todo as [| todo IH]; intros i count out Hi Hc Hcap.
  { cbn in Hcap. lia. }
  rewrite rows_where_S in Hcap.
  cbn [filter_gt_tail]. unfold filter_gt_one at 1. cbn [fst snd].
  destruct (lookup_lt_is_Some_2 data i ltac:(lia)) as [x Hx].
  rewrite Hx. cbn [mbind option_bind].
  assert (Hkeep : exceeds_at data threshold i = F64.gt x threshold).
  { unfold exceeds_at. by rewrite Hx. }
  rewrite Hkeep in Hcap.
  destruct (F64.gt x threshold).
  - cbn [length] in Hcap. unfold store. case_decide; [| done].
    cbn [mbind option_bind].
    apply IH; rewrite ?length_insert; lia.
  - cbn [mbind option_bind]. apply IH; lia.
Qed.

(** [volumes[i]] is read only on the rows whose price passed. *)
Lemma filter_price_volume_loop_spec prices volumes p_thresh v_thresh :
  Z.of_nat (length prices) <= 2 ^ 32 ->
  (∀ i, exceeds_at prices p_thresh i = true -> (i < length volumes)%nat) ->
  ∀ (todo i count : nat) (out : list Z),
  (i + todo ≤ length prices)%nat ->
  (count + length (rows_where (passes_at prices volumes p_thresh v_thresh) i todo)
   ≤ length out)%nat ->
  filter_price_volume_loop prices volumes p_thresh v_thresh todo i (count, out)
  = Some ((count + length (rows_where (passes_at prices volumes p_thresh v_thresh) i todo))%nat,
          take count out
            ++ (Z.of_nat <$> rows_where (passes_at prices volumes p_thresh v_thresh) i todo)
            ++ drop (count + length (rows_where (passes_at prices volumes p_thresh v_thresh) i todo)) out).
Proof.
  intros Hn Hvol. induction todo as [| todo IH]; intros i count out Hi Hcap.
  { cbn. rewrite Nat.add_0_r. by rewrite take_drop. }
  rewrite rows_where_S in Hcap |- *.
  cbn [filter_price_volume_loop fst snd].
  destruct (lookup_lt_is_Some_2 prices i ltac:(lia)) as [p Hp].
  rewrite Hp. cbn [mbind option_bind].
  assert (Hex : exceeds_at prices p_thresh i = F64.gt p p_thresh).
  { unfold exceeds_at. by rewrite Hp. }
  assert (Hkeep : passes_at prices volumes p_thresh v_thresh i
                  = F64.gt p p_thresh && volume_exceeds_at volumes v_thresh i).
  { unfold passes_at. by rewrite Hex. }
  specialize (Hvol i). rewrite Hex in Hvol. rewrite Hkeep in Hcap |- *.
  destruct (F64.gt p p_thresh); cbn [andb] in *.
  - destruct (lookup_lt_is_Some_2 volumes i (Hvol eq_refl)) as [v Hv].
    assert (Hve : volume_exceeds_at volumes v_thresh i = (v_thresh <? v)).
    { unfold volume_exceeds_at. by rewrite Hv. }
    rewrite Hve in Hcap |- *. rewrite Hv. cbn [mbind option_bind].
    destruct (v_thresh <? v).
    + cbn [length] in Hcap. unfold store. case_decide; [| lia].
      cbn [mbind option_bind]. rewrite to_uint32_small by lia.
      rewrite IH by (rewrite ?length_insert; lia).
      f_equal. f_equal; [cbn [length]; lia |].
      apply filter_store_step. lia.
    + cbn [mbind option_bind]. by rewrite IH by lia.
  - cbn [mbind option_bind]. by rewrite IH by lia.
Qed.

End Filters.

(** X1.  [filter_f64_gt] on a column of at most 2^32 rows, with an index
    buffer that has a cell for every matching row: it returns the number of
    rows whose value is greater than the threshold, leaves their indices in
    increasing order at the front of the buffer and does not touch the
    cells after them.  The four-way unrolled loop and its tail loop
    together visit every row once. *)
Theorem filter_f64_gt_selects (data : list double) (threshold : double)
    (out_indices : list Z) :
  Z.of_nat (length data) <= 2 ^ 32 ->
  (length (rows_where (exceeds_at data threshold) 0 (length data))
   ≤ length out_indices)%nat ->
  filter_f64_gt data threshold out_indices
  = Some (length (rows_where (exceeds_at data threshold) 0 (length data)),
          (Z.of_nat <$> rows_where (exceeds_at data threshold) 0 (length data))
            ++ drop (length (rows_where (exceeds_at data threshold) 0 (length data)))
                 out_indices).
Proof.
  intros Hn Hcap. unfold filter_f64_gt.
  rewrite filter_gt_unrolled_tail by lia. rewrite Nat.sub_0_r.
  by rewrite filter_gt_tail_spec by (done || lia).
Qed.

Lemma filter_f64_gt_selects_witness :
  filter_f64_gt ts_example 0x402E000000000000 [9; 9; 9; 9]
  = Some (length (rows_where (exceeds_at ts_example 0x402E000000000000) 0
                    (length ts_example)),
          (Z.of_nat <$> rows_where (exceeds_at ts_example 0x402E000000000000) 0
                          (length ts_example))
            ++ drop (length (rows_where (exceeds_at ts_example 0x402E000000000000)
                               0 (length ts_example)))
                 [9; 9; 9; 9]).
Proof.
  apply (filter_f64_gt_selects ts_example 0x402E000000000000 [9; 9; 9; 9]).
  - cbn [ts_example length]. lia.
  - vm_compute. lia.
Defined.

(** X2.  [filter_f64_gt] has no capacity parameter: when more rows exceed
    the threshold than the index buffer has cells, it writes past the end
    of the buffer. *)
Theorem filter_f64_gt_overruns_short_buffer (data : list double)
    (threshold : double) (out_indices : list Z) :
  (length out_indices
   < length (rows_where (exceeds_at data threshold) 0 (length data)))%nat ->
  filter_f64_gt data threshold out_indices = None.
Proof.
  intros Hcap. unfold filter_f64_gt.
  rewrite filter_gt_unrolled_tail by lia. rewrite Nat.sub_0_r.
  apply filter_gt_tail_overrun; lia.
Qed.

Lemma filter_f64_gt_overruns_short_buffer_witness :
  filter_f64_gt ts_example 0x402E000000000000 [9] = None.
Proof.
  apply (filter_f64_gt_overruns_short_buffer ts_example 0x402E000000000000 [9]).
  vm_compute. lia.
Defined.

(** X3.  [filter_price_volume] returns the number of rows whose price and
    volume both exceed their thresholds and leaves their indices in
    increasing order at the front of the index buffer, the rest of the
    buffer untouched.  Because of the short-circuit [&&], the volume column
    is read only on rows whose price passed: it may be shorter than the
    price column as long as it covers those rows. *)
Theorem filter_price_volume_selects (prices : list double) (volumes : list Z)
    (p_thresh : double) (v_thresh : Z) (out_indices : list Z) :
  Z.of_nat (length prices) <= 2 ^ 32 ->
  (∀ i, exceeds_at prices p_thresh i = true -> (i < length volumes)%nat) ->
  (length (rows_where (passes_at prices volumes p_thresh v_thresh) 0 (length prices))
   ≤ length out_indices)%nat ->
  filter_price_volume prices volumes p_thresh v_thresh out_indices
  = Some (length (rows_where (passes_at prices volumes p_thresh v_thresh) 0
                    (length prices)),
          (Z.of_nat <$> rows_where (passes_at prices volumes p_thresh v_thresh) 0
                          (length prices))
            ++ drop (length (rows_where (passes_at prices volumes p_thresh v_thresh)
                               0 (length prices)))
                 out_indices).
Proof.
  intros Hn Hvol Hcap. unfold filter_price_volume.
  by rewrite filter_price_volume_loop_spec by (done || lia).
Qed.

Lemma filter_price_volume_selects_witness :
  filter_price_volume ts_example [500] 0x4039000000000000 100 [9; 9]
  = Some (length (rows_where (passes_at ts_example [500] 0x4039000000000000 100)
                    0 (length ts_example)),
          (Z.of_nat <$> rows_where (passes_at ts_example [500] 0x4039000000000000 100)
                          0 (length ts_example))
            ++ drop (length (rows_where
                               (passes_at ts_example [500] 0x4039000000000000 100)
                               0 (length ts_example)))
                 [9; 9]).
Proof.
  apply (filter_price_volume_selects ts_example [500] 0x4039000000000000 100 [9; 9]).
  - cbn [ts_example length]. lia.
  - intros i. do 4 (destruct i as [| i]; [vm_compute; intros; (lia || discriminate) |]).
    unfold exceeds_at. rewrite lookup_ge_None_2 by (cbn [ts_example length]; lia).
    discriminate.
  - vm_compute. lia.
Defined.

(** * Min/max *)

Section MinMaxOrder.

Lemma value_lt_nan_r v : F64.value_lt v F64.NaN = false.
Proof. by destruct v as [| [] |]. Qed.

Lemma lt_nan_l x a : is_nan x = true -> F64.lt x a = false.
Proof.
  unfold is_nan, F64.lt. by destruct (F64.decode x).
Qed.

Lemma lt_nan_r x a : is_nan a = true -> F64.lt x a = false.
Proof.
  unfold is_nan, F64.lt. destruct (F64.decode a); try done.
  intros _. apply value_lt_nan_r.
Qed.

Lemma gt_nan_l x a : is_nan x = true -> F64.gt x a = false.
Proof. intros H. unfold F64.gt. by apply (lt_nan_r a x). Qed.

Lemma gt_nan_r x a : is_nan a = true -> F64.gt x a = false.
Proof. intros H. unfold F64.gt. by apply (lt_nan_l a x). Qed.

Lemma minmax_step_nan acc x : is_nan x = true -> minmax_step acc x = acc.
Proof.
  intros H. unfold minmax_step.
  rewrite lt_nan_l, gt_nan_l by done. by destruct acc.
Qed.

Lemma minmax_step_stuck d x : is_nan d = true -> minmax_step (d, d) x = (d, d).
Proof.
  intros H. unfold minmax_step. cbn [fst snd].
  by rewrite lt_nan_r, gt_nan_r by done.
Qed.

Lemma value_le_refl a : a ≠ F64.NaN -> value_le a a = true.
Proof.
  intros H. unfold value_le. destruct a as [| [] | x]; cbn; try done.
  rewrite Z.eqb_refl. apply orb_true_r.
Qed.

Lemma value_le_trans a b c :
  value_le a b = true -> value_le b c = true -> value_le a c = true.
Proof.
  unfold value_le.
  destruct a as [| [] | x], b as [| [] | y], c as [| [] | z]; cbn;
    rewrite ?orb_true_iff, ?Z.ltb_lt, ?Z.eqb_eq; try done; auto; lia.
Qed.

Lemma value_lt_le a b : F64.value_lt a b = true -> value_le a b = true.
Proof. unfold value_le. by intros ->. Qed.

Lemma value_not_lt_le a b :
  a ≠ F64.NaN -> b ≠ F64.NaN ->
  F64.value_lt a b = false -> value_le b a = true.
Proof.
  unfold value_le.
  destruct a as [| [] | x], b as [| [] | y]; cbn;
    rewrite ?orb_true_iff, ?Z.ltb_lt, ?Z.eqb_eq, ?Z.ltb_ge; try done; auto; lia.
Qed.

Lemma minmax_scan_nan_first d0 rest :
  is_nan d0 = true -> minmax_scan d0 rest = (d0, d0).
Proof.
  intros H. unfold minmax_scan.
  induction rest as [| x rest IH]; cbn [fold_left]; [done |].
  by rewrite minmax_step_stuck.
Qed.

Lemma not_nan_decode d : is_nan d = false -> F64.decode d ≠ F64.NaN.
Proof. unfold is_nan. by destruct (F64.decode d). Qed.

Lemma no_nan_cons x l :
  no_nan (x :: l) = true <-> is_nan x = false ∧ no_nan l = true.
Proof.
  unfold no_nan. cbn [forallb]. rewrite andb_true_iff, negb_true_iff. done.
Qed.

Lemma minmax_step_order acc y :
  is_nan acc.1 = false -> is_nan acc.2 = false -> is_nan y = false ->
  let acc' := minmax_step acc y in
  (acc'.1 = acc.1 ∨ acc'.1 = y) ∧ (acc'.2 = acc.2 ∨ acc'.2 = y) ∧
  F64.le acc'.1 acc.1 = true ∧ F64.le acc.2 acc'.2 = true ∧
  F64.le acc'.1 y = true ∧ F64.le y acc'.2 = true.
Proof.
  intros H1 H2 Hy. apply not_nan_decode in H1, H2, Hy.
  unfold minmax_step, F64.lt, F64.gt, F64.le. cbn [fst snd]. fold value_le.
  destruct (F64.value_lt (F64.decode y) (F64.decode acc.1)) eqn:E1;
    destruct (F64.value_lt (F64.decode acc.2) (F64.decode y)) eqn:E2;
    cbn [fst snd]; split_and!; auto;
    first [by apply value_le_refl | by apply value_lt_le | by apply value_not_lt_le].
Qed.

Lemma minmax_fold_order rest : ∀ acc,
  no_nan rest = true -> is_nan acc.1 = false -> is_nan acc.2 = false ->
  let r := fold_left minmax_step rest acc in
  (r.1 = acc.1 ∨ r.1 ∈ rest) ∧ (r.2 = acc.2 ∨ r.2 ∈ rest) ∧
  F64.le r.1 acc.1 = true ∧ F64.le acc.2 r.2 = true ∧
  ∀ x, x ∈ rest -> F64.le r.1 x = true ∧ F64.le x r.2 = true.
Proof.
  induction rest as [| y rest IH]; intros acc Hnn H1 H2; cbn [fold_left].
  { split_and!; auto.
    - by apply value_le_refl, not_nan_decode.
    - by apply value_le_refl, not_nan_decode.
    - intros z Hz. by apply elem_of_nil in Hz. }
  apply no_nan_cons in Hnn as [Hy Hrest].
  destruct (minmax_step_order acc y H1 H2 Hy) as (Hm1 & Hm2 & Hle1 & Hle2 & Hy1 & Hy2).
  set (acc' := minmax_step acc y) in *.
  assert (Hf1 : is_nan acc'.1 = false) by (destruct Hm1 as [-> | ->]; done).
  assert (Hf2 : is_nan acc'.2 = false) by (destruct Hm2 as [-> | ->]; done).
  destruct (IH acc' Hrest Hf1 Hf2) as (I1 & I2 & I3 & I4 & I5).
  set (r := fold_left minmax_step rest acc') in *.
  split_and!.
  - destruct I1 as [-> | I1]; [| right; by apply list_elem_of_further].
    destruct Hm1 as [-> | ->]; [by left | right; apply list_elem_of_here].
  - destruct I2 as [-> | I2]; [| right; by apply list_elem_of_further].
    destruct Hm2 as [-> | ->]; [by left | right; apply list_elem_of_here].
  - exact (value_le_trans _ _ _ I3 Hle1).
  - exact (value_le_trans _ _ _ Hle2 I4).
  - intros z Hz. apply elem_of_cons in Hz as [-> | Hz].
    + split; [exact (value_le_trans _ _ _ I3 Hy1) | exact (value_le_trans _ _ _ Hy2 I4)].
    + by apply I5.
Qed.

End MinMaxOrder.

(** X4.  [minmax_f64] on a non-empty column without NaN (infinities
    allowed): both outputs are values of the column, the first is [<=]
    every row and every row is [<=] the second. *)
Theorem minmax_f64_bounds (data : list double) :
  data ≠ [] -> no_nan data = true ->
  (minmax_f64 data).1 ∈ data ∧ (minmax_f64 data).2 ∈ data ∧
  ∀ x, x ∈ data ->
    F64.le (minmax_f64 data).1 x = true ∧ F64.le x (minmax_f64 data).2 = true.
Proof.
  intros Hne Hnn. destruct data as [| d0 rest]; [done |].
  apply no_nan_cons in Hnn as [H0 Hrest].
  destruct (minmax_fold_order rest (d0, d0) Hrest H0 H0) as (I1 & I2 & I3 & I4 & I5).
  cbn [minmax_f64]. unfold minmax_scan. cbn [fst snd] in *.
  set (r := fold_left minmax_step rest (d0, d0)) in *.
  split_and!.
  - destruct I1 as [-> | I1]; [apply list_elem_of_here | by apply list_elem_of_further].
  - destruct I2 as [-> | I2]; [apply list_elem_of_here | by apply list_elem_of_further].
  - intros z Hz. apply elem_of_cons in Hz as [-> | Hz]; [done | by apply I5].
Qed.

Lemma minmax_f64_bounds_witness :
  (minmax_f64 ts_example).1 ∈ ts_example ∧ (minmax_f64 ts_example).2 ∈ ts_example ∧
  ∀ x, x ∈ ts_example ->
    F64.le (minmax_f64 ts_example).1 x = true ∧
    F64.le x (minmax_f64 ts_example).2 = true.
Proof.
  apply (minmax_f64_bounds ts_example).
  - discriminate.
  - vm_compute. reflexivity.
Defined.

(** X5.  When the first row is NaN, [minmax_f64] reports that NaN as both
    minimum and maximum whatever the other rows are: every comparison
    against the running NaN is false, so neither is ever replaced. *)
Theorem minmax_f64_nan_first (d0 : double) (rest : list double) :
  is_nan d0 = true -> minmax_f64 (d0 :: rest) = (d0, d0).
Proof.
  intros H. cbn [minmax_f64]. by apply minmax_scan_nan_first.
Qed.

Lemma minmax_f64_nan_first_witness :
  minmax_f64 (0x7FF8000000000000 :: ts_example)
  = (0x7FF8000000000000, 0x7FF8000000000000).
Proof.
  apply (minmax_f64_nan_first 0x7FF8000000000000 ts_example).
  vm_compute. reflexivity.
Defined.

(** X6.  A NaN in any row but the first is skipped by [minmax_f64]: the
    outputs are those of the column with these rows removed. *)
Theorem minmax_f64_skips_later_nan (d0 : double) (rest : list double) :
  minmax_f64 (d0 :: rest)
  = minmax_f64 (d0 :: filter (λ x, is_nan x = false) rest).
Proof.
  cbn [minmax_f64]. unfold minmax_scan. generalize (d0, d0).
  induction rest as [| x rest IH]; intros acc; [done |].
  rewrite filter_cons. cbn [fold_left]. case_decide as Hx.
  - cbn [fold_left]. apply IH.
  - rewrite minmax_step_nan by (by destruct (is_nan x)). apply IH.
Qed.

(** * Binary search *)

Section Search.

(** The loop keeps a row below the target just left of [lo] and a row not
    below it at [hi]; sortedness plays no part in that. *)
Lemma binary_search_loop_spec (data : list Z) (target : Z) :
  ∀ (fuel lo hi : nat),
  (lo ≤ hi ≤ length data)%nat -> (hi - lo ≤ fuel)%nat ->
  (lo = O ∨ ∃ x, data !! (lo - 1)%nat = Some x ∧ x < target) ->
  (hi = length data ∨ ∃ y, data !! hi = Some y ∧ target <= y) ->
  ∃ r : nat,
    binary_search_loop fuel data target lo hi = Some r ∧
    (lo ≤ r ≤ hi)%nat ∧
    (r = O ∨ ∃ x, data !! (r - 1)%nat = Some x ∧ x < target) ∧
    (r = length data ∨ ∃ y, data !! r = Some y ∧ target <= y).
Proof.
  induction fuel as [| fuel IH]; intros lo hi Hb Hfuel Hl Hr.
  { cbn [binary_search_loop]. case_decide; [lia |].
    exists lo. assert (lo = hi) as -> by lia. split_and!; auto; lia. }
  cbn [binary_search_loop]. case_decide as Hlt.
  2: { exists lo. assert (lo = hi) as -> by lia. split_and!; auto; lia. }
  cbv zeta.
  assert (Hmid : ((hi - lo) / 2 < hi - lo)%nat) by (apply Nat.div_lt; lia).
  set (mid := (lo + (hi - lo) / 2)%nat) in *.
  destruct (lookup_lt_is_Some_2 data mid ltac:(lia)) as [v Hv].
  rewrite Hv. cbn [mbind option_bind].
  destruct (Z.ltb_spec v target) as [Hvt | Hvt].
  - destruct (IH (mid + 1)%nat hi) as (r & Hrun & Hrb & H1 & H2); try lia; auto.
    { right. exists v. split; [| done].
      by replace (mid + 1 - 1)%nat with mid by lia. }
    exists r. split_and!; auto; lia.
  - destruct (IH lo mid) as (r & Hrun & Hrb & H1 & H2); try lia; auto.
    { right. exists v. split; [done | lia]. }
    exists r. split_and!; auto; lia.
Qed.

Lemma binary_search_i64_crossing (data : list Z) (target : Z) :
  ∃ r : nat,
    binary_search_i64 data target = Some r ∧ (r ≤ length data)%nat ∧
    (r = O ∨ ∃ x, data !! (r - 1)%nat = Some x ∧ x < target) ∧
    (r = length data ∨ ∃ y, data !! r = Some y ∧ target <= y).
Proof.
  destruct (binary_search_loop_spec data target (length data) 0 (length data))
    as (r & Hrun & Hrb & H1 & H2); try lia; auto.
  exists r. split_and!; auto; lia.
Qed.

Lemma binary_search_i64_sorted (data : list Z) (target : Z) :
  sorted_i64 data ->
  ∃ r : nat,
    binary_search_i64 data target = Some r ∧ (r ≤ length data)%nat ∧
    ∀ (i : nat) (x : Z), data !! i = Some x -> (i < r)%nat <-> x < target.
Proof.
  intros Hs.
  destruct (binary_search_i64_crossing data target) as (r & Hrun & Hrb & H1 & H2).
  exists r. split_and!; auto.
  intros i x Hx. split.
  - intros Hi. destruct H1 as [-> | (y & Hy & Hyt)]; [lia |].
    pose proof (Hs i (r - 1)%nat x y ltac:(lia) Hx Hy). lia.
  - intros Hxt. destruct (decide (i < r)%nat) as [| Hge]; [done |].
    destruct H2 as [-> | (y & Hy & Hyt)].
    + apply lookup_lt_Some in Hx. lia.
    + pose proof (Hs r i y x ltac:(lia) Hy Hx). lia.
Qed.

Lemma filter_all {A} (P : A → Prop) `{∀ x, Decision (P x)} (l : list A) :
  Forall P l -> filter P l = l.
Proof.
  induction 1 as [| x l Hx _ IH]; [done |].
  by rewrite filter_cons_True, IH.
Qed.

Lemma filter_none {A} (P : A → Prop) `{∀ x, Decision (P x)} (l : list A) :
  Forall (λ x, ¬ P x) l -> filter P l = [].
Proof.
  induction 1 as [| x l Hx _ IH]; [done |].
  by rewrite filter_cons_False.
Qed.

Lemma binary_search_i64_counts (data : list Z) (target : Z) :
  sorted_i64 data ->
  binary_search_i64 data target = Some (rows_below data target).
Proof.
  intros Hs.
  destruct (binary_search_i64_sorted data target Hs) as (r & Hrun & Hrb & Hiff).
  rewrite Hrun. f_equal. unfold rows_below.
  assert (Hsplit : filter (λ x, x < target) data
                   = filter (λ x, x < target) (take r data)
                       ++ filter (λ x, x < target) (drop r data)).
  { by rewrite <- filter_app, take_drop. }
  rewrite Hsplit, filter_all, filter_none.
  - rewrite length_app, length_take. cbn [length]. lia.
  - apply Forall_lookup. intros i x Hx. rewrite lookup_drop in Hx.
    pose proof (Hiff _ _ Hx). lia.
  - apply Forall_lookup. intros i x Hx.
    apply lookup_take_Some in Hx as [Hx Hi].
    by apply (Hiff _ _ Hx).
Qed.

Lemma binary_search_batch_loop_spec (data targets : list Z) :
  sorted_i64 data ->
  ∀ (todo i : nat) (results : list nat),
  (i + todo ≤ length targets)%nat -> (i + todo ≤ length results)%nat ->
  binary_search_batch_loop data targets todo i results
  = Some (take i results
            ++ (rows_below data <$> take todo (drop i targets))
            ++ drop (i + todo) results).
Proof.
  intros Hs. induction todo as [| todo IH]; intros i results Ht Hr.
  { cbn [binary_search_batch_loop]. rewrite Nat.add_0_r, take_0, fmap_nil.
    cbn [app]. by rewrite take_drop. }
  cbn [binary_search_batch_loop].
  destruct (lookup_lt_is_Some_2 targets i ltac:(lia)) as [t Hti].
  rewrite Hti. cbn [mbind option_bind].
  rewrite binary_search_i64_counts by done. cbn [mbind option_bind].
  unfold store. case_decide; [| lia]. cbn [mbind option_bind].
  rewrite IH by (rewrite ?length_insert; lia).
  f_equal. rewrite take_S_insert by lia. rewrite drop_insert_lt by lia.
  rewrite (drop_S targets t i Hti). cbn [take fmap list_fmap].
  rewrite <- app_assoc. cbn [app].
  by replace (S i + todo)%nat with (i + S todo)%nat by lia.
Qed.

End Search.

(** X7.  On any column, sorted or not, [binary_search_i64] terminates
    without reading outside the column and returns a position [r] in
    [0, n] at a crossing: the row before [r] (if there is one) is below the
    target and row [r] (if there is one) is not. *)
Theorem binary_search_i64_brackets (data : list Z) (target : Z) :
  ∃ r : nat,
    binary_search_i64 data target = Some r ∧ (r ≤ length data)%nat ∧
    (r = O ∨ ∃ x, data !! (r - 1)%nat = Some x ∧ x < target) ∧
    (r = length data ∨ ∃ y, data !! r = Some y ∧ target <= y).
Proof. apply binary_search_i64_crossing. Qed.

(** X8.  On a column in non-decreasing order [binary_search_i64] returns
    the lower bound of the target: the rows before the returned position
    are exactly the rows below the target, so the position is that of the
    first row [>= target], or [n] when there is none. *)
Theorem binary_search_i64_lower_bound (data : list Z) (target : Z) :
  sorted_i64 data ->
  ∃ r : nat,
    binary_search_i64 data target = Some r ∧ (r ≤ length data)%nat ∧
    ∀ (i : nat) (x : Z), data !! i = Some x -> (i < r)%nat <-> x < target.
Proof. apply binary_search_i64_sorted. Qed.

Lemma non_decreasing_head (x : Z) (l : list Z) :
  non_decreasing (x :: l) = true ->
  Forall (λ y, x <= y) l ∧ non_decreasing l = true.
Proof.
  revert x. induction l as [| y l IH]; intros x H; [by split |].
  cbn [non_decreasing] in H. apply andb_true_iff in H as [Hxy Hl].
  apply Z.leb_le in Hxy. destruct (IH y Hl) as [Hall _].
  split; [| done]. constructor; [done |].
  eapply Forall_impl; [exact Hall |]. cbn. intros. lia.
Qed.

Lemma non_decreasing_sorted (l : list Z) :
  non_decreasing l = true -> sorted_i64 l.
Proof.
  induction l as [| a l IH]; intros H i j x y Hij Hx Hy.
  { by rewrite lookup_nil in Hx. }
  destruct (non_decreasing_head a l H) as [Hall Hl].
  destruct i as [| i], j as [| j]; cbn in Hx, Hy; try lia.
  - injection Hx as <-. injection Hy as <-. lia.
  - injection Hx as <-. by apply (proj1 (Forall_lookup _ _) Hall j y).
  - apply (IH Hl i j x y); [lia | done | done].
Qed.

Lemma binary_search_i64_lower_bound_witness :
  ∃ r : nat,
    binary_search_i64 [1; 3; 3; 7] 3 = Some r ∧ (r ≤ length [1; 3; 3; 7])%nat ∧
    ∀ (i : nat) (x : Z), [1; 3; 3; 7] !! i = Some x -> (i < r)%nat <-> x < 3.
Proof.
  apply (binary_search_i64_lower_bound [1; 3; 3; 7] 3).
  apply non_decreasing_sorted. vm_compute. reflexivity.
Defined.

(** X9.  On a column in non-decreasing order [binary_search_batch_i64]
    stores, for each of the first [target_count] targets, the number of
    rows below that target in the result cell of the same index; it reads
    no target and writes no result cell beyond [target_count]. *)
Theorem binary_search_batch_i64_counts (data targets : list Z)
    (target_count : nat) (results : list nat) :
  sorted_i64 data ->
  (target_count ≤ length targets)%nat -> (target_count ≤ length results)%nat ->
  binary_search_batch_i64 data targets target_count results
  = Some ((rows_below data <$> take target_count targets)
            ++ drop target_count results).
Proof.
  intros Hs Ht Hr. unfold binary_search_batch_i64.
  rewrite binary_search_batch_loop_spec by (done || lia).
  by rewrite take_0, drop_0.
Qed.

Lemma binary_search_batch_i64_counts_witness :
  binary_search_batch_i64 [1; 3; 3; 7] [0; 3; 9; 5] 3 [42; 42; 42; 42]%nat
  = Some ((rows_below [1; 3; 3; 7] <$> take 3 [0; 3; 9; 5])
            ++ drop 3 [42; 42; 42; 42]%nat).
Proof.
  apply (binary_search_batch_i64_counts [1; 3; 3; 7] [0; 3; 9; 5] 3
           [42; 42; 42; 42]%nat).
  - apply non_decreasing_sorted. vm_compute. reflexivity.
  - cbn [length]. lia.
  - cbn [length]. lia.
Defined.

(** * Conversions between [int64_t] and [double] *)

Section Encoding.
Import F64Facts.

Lemma unit_eq : F64.unit = 2 ^ 1074.
Proof. reflexivity. Qed.

(** The three fields of a pattern are read back by [decode]. *)
Lemma decode_fields (sgn : bool) (E F : Z) :
  0 <= E < 2047 -> 0 <= F < 2 ^ 52 ->
  F64.decode ((if sgn then 2 ^ 63 else 0) + (E * 2 ^ 52 + F))
  = F64.Fin (if sgn
             then - (if E =? 0 then F else (2 ^ 52 + F) * 2 ^ (E - 1))
             else (if E =? 0 then F else (2 ^ 52 + F) * 2 ^ (E - 1))).
Proof.
  intros HE HF.
  set (sz := if sgn then 1 else 0).
  set (d := (if sgn then 2 ^ 63 else 0) + (E * 2 ^ 52 + F)).
  assert (Hd : d = sz * 2 ^ 63 + E * 2 ^ 52 + F).
  { unfold d, sz. destruct sgn; lia. }
  assert (Hsz : 0 <= sz <= 1) by (unfold sz; destruct sgn; lia).
  assert (Hbit : Z.testbit d 63 = sgn).
  { assert (Hq : d / 2 ^ 63 = sz).
    { symmetry. apply (Z.div_unique d (2 ^ 63) sz (E * 2 ^ 52 + F)); lia. }
    unfold sz in Hq. destruct sgn.
    - apply Z.testbit_true; [lia |]. by rewrite Hq.
    - apply Z.testbit_false; [lia |]. by rewrite Hq. }
  assert (Hexp : Z.land (Z.shiftr d 52) 0x7FF = E).
  { change 0x7FF with (Z.ones 11).
    rewrite Z.land_ones, Z.shiftr_div_pow2 by lia.
    assert (Hq : d / 2 ^ 52 = sz * 2 ^ 11 + E).
    { symmetry. apply (Z.div_unique d (2 ^ 52) _ F); lia. }
    rewrite Hq. symmetry. apply (Z.mod_unique _ _ sz); lia. }
  assert (Hfrac : Z.land d (2 ^ 52 - 1) = F).
  { replace (2 ^ 52 - 1) with (Z.ones 52) by reflexivity.
    rewrite Z.land_ones by lia.
    symmetry. apply (Z.mod_unique _ _ (sz * 2 ^ 11 + E)); lia. }
  unfold F64.decode. cbv zeta. rewrite Hbit, Hexp, Hfrac.
  destruct (Z.eqb_spec E 0x7FF) as [-> | _]; [lia |].
  by destruct sgn.
Qed.

(** The binade and significand of a magnitude of 2^52 units or more. *)
Lemma binade_bounds (m : Z) :
  2 ^ 52 <= m ->
  0 <= Z.log2 m - 52 ∧ 2 ^ 52 <= m / 2 ^ (Z.log2 m - 52) < 2 ^ 53.
Proof.
  intros Hm.
  assert (H52 : 52 <= Z.log2 m) by (apply Z.log2_le_pow2; lia).
  split; [lia |].
  set (j := Z.log2 m - 52).
  destruct (log2_bounds m ltac:(lia)) as [Hlo Hhi].
  replace (Z.log2 m) with (52 + j) in Hlo, Hhi by (unfold j; lia).
  rewrite Z.pow_add_r in Hlo, Hhi by lia.
  assert (0 < 2 ^ j) by (apply Z.pow_pos_nonneg; lia).
  split.
  - apply Z.div_le_lower_bound; lia.
  - apply Z.div_lt_upper_bound; lia.
Qed.

Lemma decode_encode (neg : bool) (m : Z) :
  representable m ->
  F64.decode (f64_encode neg m) = F64.Fin (if neg then - m else m).
Proof.
  intros [[Hm0 Hmax] Hrep]. unfold f64_encode.
  destruct (Z.ltb_spec m (2 ^ 52)) as [Hsub | Hnorm].
  - pose proof (decode_fields neg 0 m ltac:(lia) ltac:(lia)) as H.
    replace (0 * 2 ^ 52 + m) with m in H by lia.
    rewrite H. by rewrite Z.eqb_refl.
  - destruct Hrep as [? | Hrep]; [lia |]. cbv zeta.
    destruct (binade_bounds m Hnorm) as (Hj & Hq).
    set (j := Z.log2 m - 52) in *. set (q := m / 2 ^ j) in *.
    assert (Hlog : Z.log2 m < 2098) by (apply Z.log2_lt_pow2; lia).
    rewrite (decode_fields neg (j + 1) (q - 2 ^ 52)) by (unfold j in *; lia).
    destruct (Z.eqb_spec (j + 1) 0) as [? | _]; [lia |].
    replace (j + 1 - 1) with j by lia.
    replace (2 ^ 52 + (q - 2 ^ 52)) with q by lia.
    assert (Hm : q * 2 ^ j = m).
    { pose proof (Z.div_mod m (2 ^ j) ltac:(apply Z.pow_nonzero; lia)) as Hdm.
      fold q in Hdm. lia. }
    by rewrite Hm.
Qed.

(** Rounding produces a magnitude that a double can have. *)
Lemma representable_round_mag (n : Z) :
  0 <= n < 2 ^ 2097 -> representable (F64.round_mag n).
Proof.
  intros [Hn0 Hn].
  destruct (Z.le_gt_cases (Z.log2 n - 52) 0) as [Hk | Hk].
  - rewrite round_mag_small by done.
    assert (n < 2 ^ 53).
    { destruct (Z.eq_dec n 0) as [-> | ?]; [lia |].
      apply Z.log2_lt_pow2; lia. }
    split; [lia |].
    destruct (Z.lt_ge_cases n (2 ^ 52)) as [? | Hge]; [by left | right].
    assert (52 <= Z.log2 n) by (apply Z.log2_le_pow2; lia).
    replace (Z.log2 n - 52) with 0 by lia. apply Z.mod_1_r.
  - rewrite round_mag_big by lia.
    set (k := Z.log2 n - 52) in *.
    assert (Hpos : 0 < n) by (by apply log2_pos_of_big).
    pose proof (significand_bounds n k Hpos eq_refl Hk) as Hsig.
    pose proof (round_quot_bounds k n Hk) as Hrq.
    set (rq := F64.round_quot k n) in *.
    assert (Hlogn : Z.log2 n < 2097) by (apply Z.log2_lt_pow2; lia).
    assert (H2k : 0 < 2 ^ k) by (apply Z.pow_pos_nonneg; lia).
    assert (Hklt : 2 ^ k <= 2 ^ 2044) by (apply Z.pow_le_mono_r; lia).
    assert (Hlog : Z.log2 (rq * 2 ^ k) = k + Z.log2 rq).
    { apply Z.log2_mul_pow2; lia. }
    split.
    + split; [nia |].
      apply Z.le_lt_trans with (2 ^ 53 * 2 ^ 2044); [| reflexivity].
      apply Z.mul_le_mono_nonneg; lia.
    + right. rewrite Hlog.
      destruct (Z.eq_dec rq (2 ^ 53)) as [-> | Hne].
      * replace (Z.log2 (2 ^ 53)) with 53 by reflexivity.
        replace (k + 53 - 52) with (k + 1) by lia.
        rewrite Z.pow_add_r by lia.
        replace (2 ^ 53 * 2 ^ k) with (2 ^ 52 * (2 ^ k * 2 ^ 1)) by lia.
        apply Z.mod_mul. lia.
      * assert (Z.log2 rq = 52) as ->.
        { apply Z.log2_unique; lia. }
        replace (k + 52 - 52) with k by lia.
        apply Z.mod_mul. lia.
Qed.

(** An integer of at most 53 bits is a double. *)
Lemma round_mag_int (a : Z) :
  0 <= a <= 2 ^ 53 -> F64.round_mag (a * F64.unit) = a * F64.unit.
Proof.
  intros Ha. destruct (Z.eq_dec a 0) as [-> | Hne]; [reflexivity |].
  rewrite unit_eq.
  assert (Hlog : Z.log2 (a * 2 ^ 1074) = 1074 + Z.log2 a).
  { apply Z.log2_mul_pow2; lia. }
  assert (Hla : 0 <= Z.log2 a) by apply Z.log2_nonneg.
  rewrite round_mag_big by lia. rewrite Hlog.
  replace (1074 + Z.log2 a - 52) with (Z.log2 a + 1022) by lia.
  set (k := Z.log2 a + 1022).
  assert (H2k : 0 < 2 ^ k) by (apply Z.pow_pos_nonneg; lia).
  assert (Hmod : (a * 2 ^ 1074) mod 2 ^ k = 0).
  { destruct (Z.eq_dec a (2 ^ 53)) as [-> | Hlt].
    - unfold k. replace (Z.log2 (2 ^ 53)) with 53 by reflexivity.
      vm_compute. reflexivity.
    - assert (Z.log2 a < 53) by (apply Z.log2_lt_pow2; lia).
      replace (2 ^ 1074) with (2 ^ (1074 - k) * 2 ^ k)
        by (rewrite <- Z.pow_add_r by lia; f_equal; lia).
      rewrite Z.mul_assoc. apply Z.mod_mul. lia. }
  rewrite round_quot_exact by (done || lia).
  pose proof (Z.div_mod (a * 2 ^ 1074) (2 ^ k) ltac:(lia)). lia.
Qed.

Lemma decode_of_int64 (x : Z) :
  - 2 ^ 63 <= x <= 2 ^ 63 ->
  F64.decode (f64_of_int64 x)
  = F64.Fin (if x <? 0 then - F64.round_mag (Z.abs x * F64.unit)
             else F64.round_mag (Z.abs x * F64.unit)).
Proof.
  intros Hx. unfold f64_of_int64. apply decode_encode.
  apply representable_round_mag. rewrite unit_eq.
  split; [lia |].
  apply Z.le_lt_trans with (2 ^ 63 * 2 ^ 1074); [| reflexivity].
  apply Z.mul_le_mono_nonneg_r; lia.
Qed.

Lemma cast_of_int64 (x : Z) :
  - 2 ^ 53 <= x <= 2 ^ 53 ->
  cast_int64 (F64.decode (f64_of_int64 x)) = Some x.
Proof.
  intros Hx. rewrite decode_of_int64 by lia.
  rewrite round_mag_int by lia.
  assert (Hval : (if x <? 0 then - (Z.abs x * F64.unit) else Z.abs x * F64.unit)
                 = x * F64.unit).
  { destruct (Z.ltb_spec x 0); lia. }
  rewrite Hval. unfold cast_int64. cbv zeta.
  rewrite Z.quot_mul by (pose proof unit_pos; lia).
  destruct (Z.leb_spec (- 2 ^ 63) x); [| lia].
  destruct (Z.ltb_spec x (2 ^ 63)); [done | lia].
Qed.

Lemma le_of_int64 (x y : Z) :
  - 2 ^ 63 <= x -> x <= y -> y <= 2 ^ 63 ->
  F64.le (f64_of_int64 x) (f64_of_int64 y) = true.
Proof.
  intros Hx Hxy Hy. unfold F64.le.
  rewrite !decode_of_int64 by lia. cbn [F64.value_lt F64.value_eq].
  pose proof unit_pos as Hu.
  pose proof (round_mag_nonneg (Z.abs x * F64.unit) ltac:(lia)).
  pose proof (round_mag_nonneg (Z.abs y * F64.unit) ltac:(lia)).
  apply orb_true_iff. rewrite Z.ltb_lt, Z.eqb_eq.
  destruct (Z.ltb_spec x 0), (Z.ltb_spec y 0); try lia.
  - pose proof (round_mag_mono (Z.abs y * F64.unit) (Z.abs x * F64.unit)
                  ltac:(nia)). lia.
  - pose proof (round_mag_mono (Z.abs x * F64.unit) (Z.abs y * F64.unit)
                  ltac:(nia)). lia.
Qed.

End Encoding.

Section ConvertFacts.
Context {A B : Type} (conv : A → option B).

Lemma convert_unrolled_tail (src : list A) (n : nat) :
  ∀ fuel i dst, (n - i ≤ 4 * fuel)%nat ->
  convert_unrolled conv fuel src n i dst = convert_tail conv src (n - i) i dst.
Proof.
  induction fuel as [| fuel IH]; intros i dst Hfuel.
  { cbn [convert_unrolled]. case_decide; [lia | done]. }
  cbn [convert_unrolled]. case_decide as Hi; [| done].
  replace (n - i)%nat with (S (S (S (S (n - (i + 4)))))) by lia.
  cbn [convert_tail].
  destruct (convert_one conv src i dst) as [o1 |]; [| done].
  cbn [mbind option_bind]. replace (i + 1)%nat with (S i) by lia.
  destruct (convert_one conv src (S i) o1) as [o2 |]; [| done].
  cbn [mbind option_bind]. replace (i + 2)%nat with (S (S i)) by lia.
  destruct (convert_one conv src (S (S i)) o2) as [o3 |]; [| done].
  cbn [mbind option_bind]. replace (i + 3)%nat with (S (S (S i))) by lia.
  destruct (convert_one conv src (S (S (S i))) o3) as [o4 |]; [| done].
  cbn [mbind option_bind]. replace (S (S (S (S i)))) with (i + 4)%nat by lia.
  apply IH. lia.
Qed.

Lemma convert_tail_spec (f : A → B) (src : list A) :
  ∀ (todo i : nat) (dst : list B),
  Forall (λ x, conv x = Some (f x)) (take todo (drop i src)) ->
  (i + todo ≤ length src)%nat -> (i + todo ≤ length dst)%nat ->
  convert_tail conv src todo i dst
  = Some (take i dst ++ (f <$> take todo (drop i src)) ++ drop (i + todo) dst).
Proof.
  induction todo as [| todo IH]; intros i dst Hconv Hs Hd.
  { cbn [convert_tail]. rewrite Nat.add_0_r, take_0, fmap_nil.
    cbn [app]. by rewrite take_drop. }
  cbn [convert_tail]. unfold convert_one.
  destruct (lookup_lt_is_Some_2 src i ltac:(lia)) as [x Hx].
  rewrite (drop_S src x i Hx) in Hconv |- *. cbn [take] in Hconv |- *.
  apply Forall_cons in Hconv as [Hcx Hrest].
  rewrite Hx. cbn [mbind option_bind]. rewrite Hcx. cbn [mbind option_bind].
  unfold store. case_decide; [| lia]. cbn [mbind option_bind].
  rewrite IH by (rewrite ?length_insert; done || lia).
  f_equal. rewrite take_S_insert by lia. rewrite drop_insert_lt by lia.
  rewrite fmap_cons, <- app_assoc. cbn [app].
  by replace (S i + todo)%nat with (i + S todo)%nat by lia.
Qed.

Lemma convert_spec (f : A → B) (src : list A) (dst : list B) (n : nat) :
  Forall (λ x, conv x = Some (f x)) (take n src) ->
  (n ≤ length src)%nat -> (n ≤ length dst)%nat ->
  convert conv src dst n = Some ((f <$> take n src) ++ drop n dst).
Proof.
  intros Hconv Hs Hd. unfold convert.
  rewrite convert_unrolled_tail by lia. rewrite Nat.sub_0_r.
  rewrite (convert_tail_spec f) by (rewrite ?drop_0; done || lia).
  by rewrite take_0, drop_0.
Qed.

End ConvertFacts.

Lemma int64_to_f64_spec (src : list Z) (dst : list double) (n : nat) :
  (n ≤ length src)%nat -> (n ≤ length dst)%nat ->
  int64_to_f64 src dst n = Some ((f64_of_int64 <$> take n src) ++ drop n dst).
Proof.
  intros Hs Hd. unfold int64_to_f64. apply convert_spec; [| done | done].
  by apply Forall_forall.
Qed.

(** X10.  Converting a column of integers of at most 53 bits with
    [int64_to_f64] and the result back with [f64_to_int64] returns the
    integers: the first [n] cells of the double buffer are written, the
    rest is left alone, and the second call puts the first [n] source
    values into the first [n] cells of its destination. *)
Theorem int64_f64_roundtrip (src : list Z) (dst : list double)
    (back : list Z) (n : nat) :
  Forall (λ x, - 2 ^ 53 <= x <= 2 ^ 53) (take n src) ->
  (n ≤ length src)%nat -> (n ≤ length dst)%nat -> (n ≤ length back)%nat ->
  ∃ mid : list double,
    int64_to_f64 src dst n = Some mid ∧
    length mid = length dst ∧ drop n mid = drop n dst ∧
    f64_to_int64 mid back n = Some (take n src ++ drop n back).
Proof.
  intros Hsmall Hs Hd Hb.
  assert (Hlen : length (f64_of_int64 <$> take n src) = n).
  { rewrite length_fmap, length_take. lia. }
  exists ((f64_of_int64 <$> take n src) ++ drop n dst). split_and!.
  - by apply int64_to_f64_spec.
  - rewrite length_app, Hlen, length_drop. lia.
  - by rewrite drop_app_length'.
  - unfold f64_to_int64.
    rewrite (convert_spec _ (λ d, default 0 (cast_int64 (F64.decode d)))).
    + rewrite take_app_length' by done. f_equal. f_equal.
      rewrite <- list_fmap_compose.
      rewrite <- (list_fmap_id (take n src)) at 2.
      apply Forall_fmap_ext_1.
      eapply Forall_impl; [exact Hsmall |].
      intros x Hx. cbn. by rewrite cast_of_int64.
    + rewrite take_app_length' by done.
      apply Forall_fmap. eapply Forall_impl; [exact Hsmall |].
      intros x Hx. cbn. by rewrite cast_of_int64.
    + rewrite length_app, Hlen, length_drop. lia.
    + done.
Qed.

Lemma int64_f64_roundtrip_witness :
  ∃ mid : list double,
    int64_to_f64 [5; -3; 0; 9007199254740992; 7] [1; 1; 1; 1; 1; 1] 5 = Some mid ∧
    length mid = length [1; 1; 1; 1; 1; 1] ∧
    drop 5 mid = drop 5 [1; 1; 1; 1; 1; 1] ∧
    f64_to_int64 mid [2; 2; 2; 2; 2] 5
    = Some (take 5 [5; -3; 0; 9007199254740992; 7] ++ drop 5 [2; 2; 2; 2; 2]).
Proof.
  apply (int64_f64_roundtrip [5; -3; 0; 9007199254740992; 7]
           [1; 1; 1; 1; 1; 1] [2; 2; 2; 2; 2] 5).
  - cbn [take]. repeat constructor; lia.
  - cbn [length]. lia.
  - cbn [length]. lia.
  - cbn [length]. lia.
Defined.

(** X11.  [int64_to_f64] keeps the order of the rows, over the whole
    [int64_t] range: a column in non-decreasing order converts to a column
    of doubles sorted ascending (rounding to the nearest double is
    monotone), which is what [find_snapshot_boundaries] expects. *)
Theorem int64_to_f64_ascending (src : list Z) (dst : list double) (n : nat) :
  valid_i64 (take n src) -> sorted_i64 (take n src) ->
  (n ≤ length src)%nat -> (n ≤ length dst)%nat ->
  ∃ out : list double,
    int64_to_f64 src dst n = Some out ∧
    ascending (take n out) ∧ drop n out = drop n dst.
Proof.
  intros Hvalid Hsorted Hs Hd.
  assert (Hlen : length (f64_of_int64 <$> take n src) = n).
  { rewrite length_fmap, length_take. lia. }
  exists ((f64_of_int64 <$> take n src) ++ drop n dst). split_and!.
  - by apply int64_to_f64_spec.
  - rewrite take_app_length' by done.
    intros i j x y Hij Hx Hy.
    apply list_lookup_fmap_Some in Hx as (a & -> & Ha).
    apply list_lookup_fmap_Some in Hy as (b & -> & Hb').
    pose proof (Hsorted i j a b Hij Ha Hb').
    pose proof (proj1 (Forall_lookup _ _) Hvalid i a Ha).
    pose proof (proj1 (Forall_lookup _ _) Hvalid j b Hb').
    apply le_of_int64; cbn in *; lia.
  - by rewrite drop_app_length'.
Qed.

Lemma int64_to_f64_ascending_witness :
  ∃ out : list double,
    int64_to_f64 [-9223372036854775808; -3; 9007199254740993; 9223372036854775807]
      [1; 1; 1; 1; 1] 4 = Some out ∧
    ascending (take 4 out) ∧ drop 4 out = drop 4 [1; 1; 1; 1; 1].
Proof.
  apply (int64_to_f64_ascending
           [-9223372036854775808; -3; 9007199254740993; 9223372036854775807]
           [1; 1; 1; 1; 1] 4).
  - cbn [take]. repeat constructor; lia.
  - apply non_decreasing_sorted. vm_compute. reflexivity.
  - cbn [length]. lia.
  - cbn [length]. lia.
Defined.

(** * Sorting a column: argsort, apply, gather *)

Section Pipeline.
Import F64Facts.

Lemma iota_elem (n : nat) (p : Z) : p ∈ iota n -> 0 <= p < Z.of_nat n.
Proof.
  unfold iota. intros Hp. apply list_elem_of_fmap in Hp as (j & -> & Hj).
  apply elem_of_seq in Hj. lia.
Qed.

Lemma iota_lookup (n i : nat) : (i < n)%nat -> iota n !! i = Some (Z.of_nat i).
Proof.
  intros Hi. unfold iota. rewrite list_lookup_fmap, lookup_seq_lt by done.
  done.
Qed.

Lemma iota_length (n : nat) : length (iota n) = n.
Proof. unfold iota. by rewrite length_fmap, length_seq. Qed.

(** Gathering through a permutation of the row indices permutes the
    column. *)
Lemma gather_permutation {A} (d : A) (src : list A) (indices : list Z)
    (n : nat) (out : list A) :
  length src = n -> length out = n -> indices ≡ₚ iota n ->
  ∃ out', gather src indices n out = Some out' ∧ out' ≡ₚ src ∧
          ∀ i p, indices !! i = Some p -> out' !! i = src !! Z.to_nat p.
Proof.
  intros Hsrc Hout Hperm.
  assert (Hlen : length indices = n).
  { by rewrite (Permutation_length Hperm), iota_length. }
  assert (Hrange : ∀ p, p ∈ indices -> 0 <= p < Z.of_nat n).
  { intros p Hp. apply iota_elem. by rewrite <- Hperm. }
  destruct (gather_spec src indices n out Hsrc Hlen Hout Hrange)
    as (out' & Hrun & Hlen' & Hrows).
  exists out'. split; [done |].
  assert (Heq : out' = (λ p, default d (src !! Z.to_nat p)) <$> indices).
  { apply list_eq. intros i. rewrite list_lookup_fmap.
    destruct (decide (i < n)%nat) as [Hi | Hi].
    - destruct (Hrows i Hi) as (p & v & Hp & Hv & Ho).
      by rewrite Ho, Hp; cbn; rewrite Hv.
    - rewrite !lookup_ge_None_2 by lia. done. }
  split.
  - rewrite Heq, Hperm.
    assert (Hid : (λ p, default d (src !! Z.to_nat p)) <$> iota n = src).
    { apply list_eq. intros i. rewrite list_lookup_fmap.
      destruct (decide (i < n)%nat) as [Hi | Hi].
      - rewrite iota_lookup by done. cbn. rewrite Nat2Z.id.
        destruct (lookup_lt_is_Some_2 src i ltac:(lia)) as [v Hv].
        by rewrite Hv.
      - rewrite !lookup_ge_None_2 by (rewrite ?iota_length; lia). done. }
    by rewrite Hid.
  - intros i p Hp.
    pose proof (lookup_lt_Some _ _ _ Hp) as Hi. rewrite Hlen in Hi.
    destruct (Hrows i Hi) as (p' & v & Hp' & Hv & Ho).
    rewrite Hp in Hp'. injection Hp' as <-. by rewrite Ho, Hv.
Qed.

(** The two sort calls followed by a gather of the timestamp column. *)
Lemma sort_pipeline_spec (data : list double) (out0 count idx : list Z)
    (buf : list double) (r : argsort_result) :
  all_finite data = true ->
  counting_sort_argsort_f64 data out0 = Some r ->
  length count = Z.to_nat (ar_range r) ->
  length idx = length data -> length buf = length data ->
  Z.of_nat (length data) < 2 ^ 31 ->
  ∃ (count' idx' : list Z) (col : list double),
    counting_sort_apply data (ar_min r) count (Z.to_nat (ar_range r)) idx
      = Some (count', idx') ∧
    gather_f64 data idx' (length data) buf = Some col ∧
    col ≡ₚ data ∧
    (∀ (p q : nat) (x y : double),
      (p < q)%nat -> col !! p = Some x -> col !! q = Some y ->
      ∃ bx by' : nat,
        bucket_of (ar_min r) x = Some (Z.of_nat bx) ∧
        bucket_of (ar_min r) y = Some (Z.of_nat by') ∧ (bx ≤ by')%nat) ∧
    ∀ (i j : nat) (x y : double),
      (i < j)%nat -> data !! i = Some x -> data !! j = Some y ->
      bucket_of (ar_min r) x = bucket_of (ar_min r) y ->
      ∃ p q : nat,
        (p < q)%nat ∧
        idx' !! p = Some (Z.of_nat i) ∧ idx' !! q = Some (Z.of_nat j) ∧
        col !! p = Some x ∧ col !! q = Some y.
Proof.
  intros Hfin Hrun Hcount Hidx Hbuf Hn.
  destruct (argsort_buckets data out0 r Hfin Hrun) as (bs & Hbs & Hrange).
  pose proof (Forall2_length _ _ _ Hbs) as Hbslen.
  destruct (counting_sort_apply_slots (ar_min r) data bs _ count idx
              Hbs Hrange Hcount Hidx Hn) as (count' & idx' & Happly & Hlen' & Hslots).
  assert (Hperm : idx' ≡ₚ iota (length data)).
  { rewrite Hbslen. apply slots_permutation; [lia | done]. }
  destruct (gather_permutation (A := double) 0 data idx' (length data) buf eq_refl Hbuf Hperm)
    as (col & Hgather & Hcol & Hrows).
  exists count', idx', col.
  split; [done | split; [done | split; [done |]]].
  assert (Hnodup : NoDup idx').
  { rewrite Hperm. unfold iota.
    apply NoDup_fmap_2; [apply Nat2Z.inj' | apply NoDup_seq]. }
  assert (Hrow : ∀ (p : nat) (x : double), col !! p = Some x ->
            ∃ j b, data !! j = Some x ∧ bs !! j = Some b ∧ slot bs j b = p ∧
                   bucket_of (ar_min r) x = Some (Z.of_nat b)).
  { intros p x Hx.
    assert (Hp : (p < length idx')%nat).
    { pose proof (lookup_lt_Some _ _ _ Hx) as Hlt.
      pose proof (Permutation_length Hcol) as Hpl.
      lia. }
    destruct (lookup_lt_is_Some_2 idx' p Hp) as [z Hz].
    assert (Hzin : z ∈ iota (length data)).
    { rewrite <- Hperm. by eapply list_elem_of_lookup_2. }
    unfold iota in Hzin. apply list_elem_of_fmap in Hzin as (j & -> & Hj).
    rewrite (Hrows p _ Hz), Nat2Z.id in Hx.
    destruct (Forall2_lookup_l _ _ _ _ _ Hbs Hx) as (b & Hb & Hbx).
    exists j, b. split_and!; try done.
    exact (NoDup_lookup _ _ _ _ Hnodup (Hslots j b Hb) Hz). }
  split.
  - intros p q x y Hpq Hx Hy.
    destruct (Hrow p x Hx) as (j1 & b1 & _ & Hb1 & Hs1 & Hbx).
    destruct (Hrow q y Hy) as (j2 & b2 & _ & Hb2 & Hs2 & Hby).
    exists b1, b2. split_and!; try done.
    destruct (decide (b1 ≤ b2)%nat) as [| Hgt]; [done |].
    pose proof (slot_bucket_lt bs j2 j1 b2 b1 Hb2 ltac:(lia)). lia.
  - intros i j x y Hij Hx Hy Hsame.
    destruct (Forall2_lookup_l _ _ _ _ _ Hbs Hx) as (bi & Hbi & Hbx).
    destruct (Forall2_lookup_l _ _ _ _ _ Hbs Hy) as (bj & Hbj & Hby).
    assert (bi = bj) as <-.
    { rewrite Hsame, Hby in Hbx. injection Hbx. lia. }
    exists (slot bs i bi), (slot bs j bi).
    pose proof (Hslots i bi Hbi) as Hpi. pose proof (Hslots j bi Hbj) as Hpj.
    split_and!; [by apply slot_stable | done | done | |].
    + by rewrite (Hrows _ _ Hpi), Nat2Z.id.
    + by rewrite (Hrows _ _ Hpj), Nat2Z.id.
Qed.

(** The bucket of a whole-number timestamp is its distance to the
    minimum. *)
Lemma bucket_of_whole (min_val x : double) (a m : Z) :
  F64.is_finite x = true -> F64.is_finite min_val = true ->
  fin_val x = a * F64.unit -> fin_val min_val = m * F64.unit ->
  0 <= a - m <= 2 ^ 53 ->
  bucket_of min_val x = Some (a - m).
Proof.
  intros Hx Hm Ha Hmm Hd. unfold bucket_of.
  rewrite sub_finite by done. rewrite Ha, Hmm.
  replace (a * F64.unit - m * F64.unit) with ((a - m) * F64.unit) by lia.
  pose proof unit_pos as Hu.
  rewrite round_nonneg by nia. rewrite round_mag_int by lia.
  destruct (Z.leb_spec F64.overflow_threshold ((a - m) * F64.unit)) as [Hov |].
  { unfold F64.overflow_threshold in Hov. rewrite unit_eq in Hov. lia. }
  unfold F64.cast_size_t. cbv zeta. rewrite Z.quot_mul by lia.
  destruct (Z.leb_spec 0 (a - m)); [| lia].
  destruct (Z.ltb_spec (a - m) (2 ^ 64)); [done | lia].
Qed.

Lemma whole_numbers_elem data x :
  whole_numbers data = true -> x ∈ data ->
  F64.is_finite x = true ∧ fin_val x = fin_val x / F64.unit * F64.unit.
Proof.
  unfold whole_numbers. rewrite forallb_forall. intros H Hx.
  apply list_elem_of_In in Hx. specialize (H x Hx).
  apply andb_true_iff in H as [Hf Hmod]. apply Z.eqb_eq in Hmod.
  split; [done |].
  pose proof (Z.div_mod (fin_val x) F64.unit ltac:(pose proof unit_pos; lia)).
  lia.
Qed.

Lemma whole_numbers_finite data :
  whole_numbers data = true -> all_finite data = true.
Proof.
  unfold whole_numbers, all_finite. rewrite !forallb_forall.
  intros H x Hx. specialize (H x Hx). by apply andb_true_iff in H as [? _].
Qed.

Lemma spread_small_elem data x y :
  spread_small data = true -> x ∈ data -> y ∈ data ->
  fin_val x - fin_val y <= 2 ^ 53 * F64.unit.
Proof.
  unfold spread_small. rewrite forallb_forall. intros H Hx Hy.
  apply list_elem_of_In in Hx, Hy.
  specialize (H x Hx). rewrite forallb_forall in H.
  specialize (H y Hy). by apply Z.leb_le in H.
Qed.

End Pipeline.

Lemma le_finite (a b : double) :
  F64.is_finite a = true -> F64.is_finite b = true ->
  fin_val a <= fin_val b -> F64.le a b = true.
Proof.
  intros Ha Hb Hab. unfold F64.le.
  rewrite (F64Facts.decode_finite a Ha), (F64Facts.decode_finite b Hb).
  cbn [F64.value_lt F64.value_eq].
  apply orb_true_iff. rewrite Z.ltb_lt, Z.eqb_eq. lia.
Qed.

(** X12.  The sort pipeline on a column of finite timestamps: with the
    extent computed by [counting_sort_argsort_f64], [counting_sort_apply]
    followed by [gather_f64] through the index buffer it filled yields a
    permutation of the column ordered by bucket, the truncated distance
    [(size_t)(x - min)] to the minimum: a row never comes after a row of a
    greater bucket.  Rows less than one unit apart may share a bucket; two
    rows of the same bucket keep their input order, in the index buffer
    and in the gathered column. *)
Theorem sort_pipeline_orders_by_bucket (data : list double)
    (out0 count idx : list Z) (buf : list double) (r : argsort_result) :
  all_finite data = true ->
  counting_sort_argsort_f64 data out0 = Some r ->
  length count = Z.to_nat (ar_range r) ->
  length idx = length data -> length buf = length data ->
  Z.of_nat (length data) < 2 ^ 31 ->
  ∃ (count' idx' : list Z) (col : list double),
    counting_sort_apply data (ar_min r) count (Z.to_nat (ar_range r)) idx
      = Some (count', idx') ∧
    gather_f64 data idx' (length data) buf = Some col ∧
    col ≡ₚ data ∧
    (∀ (p q : nat) (x y : double),
      (p < q)%nat -> col !! p = Some x -> col !! q = Some y ->
      ∃ bx by' : nat,
        bucket_of (ar_min r) x = Some (Z.of_nat bx) ∧
        bucket_of (ar_min r) y = Some (Z.of_nat by') ∧ (bx ≤ by')%nat) ∧
    ∀ (i j : nat) (x y : double),
      (i < j)%nat -> data !! i = Some x -> data !! j = Some y ->
      bucket_of (ar_min r) x = bucket_of (ar_min r) y ->
      ∃ p q : nat,
        (p < q)%nat ∧
        idx' !! p = Some (Z.of_nat i) ∧ idx' !! q = Some (Z.of_nat j) ∧
        col !! p = Some x ∧ col !! q = Some y.
Proof. apply sort_pipeline_spec. Qed.

Lemma sort_pipeline_orders_by_bucket_witness :
  ∃ (count' idx' : list Z) (col : list double),
    counting_sort_apply ts_example 0x4024000000000000 (replicate 21 7) 21
      [9; 9; 9; 9] = Some (count', idx') ∧
    gather_f64 ts_example idx' 4 [0; 0; 0; 0] = Some col ∧
    col ≡ₚ ts_example ∧
    (∀ (p q : nat) (x y : double),
      (p < q)%nat -> col !! p = Some x -> col !! q = Some y ->
      ∃ bx by' : nat,
        bucket_of 0x4024000000000000 x = Some (Z.of_nat bx) ∧
        bucket_of 0x4024000000000000 y = Some (Z.of_nat by') ∧ (bx ≤ by')%nat) ∧
    ∀ (i j : nat) (x y : double),
      (i < j)%nat -> ts_example !! i = Some x -> ts_example !! j = Some y ->
      bucket_of 0x4024000000000000 x = bucket_of 0x4024000000000000 y ->
      ∃ p q : nat,
        (p < q)%nat ∧
        idx' !! p = Some (Z.of_nat i) ∧ idx' !! q = Some (Z.of_nat j) ∧
        col !! p = Some x ∧ col !! q = Some y.
Proof.
  apply (sort_pipeline_orders_by_bucket ts_example [9; 9; 9; 9]
           (replicate 21 7) [9; 9; 9; 9] [0; 0; 0; 0]
           {| ar_out_indices := [9; 9; 9; 9]; ar_min := 0x4024000000000000;
              ar_max := 0x403E000000000000; ar_range := 21 |}).
  - vm_compute. reflexivity.
  - vm_compute. reflexivity.
  - vm_compute. reflexivity.
  - reflexivity.
  - reflexivity.
  - vm_compute. reflexivity.
Defined.

(** X13.  On whole-number timestamps no further apart than 2^53 (epoch
    milliseconds, for instance) the pipeline sorts: the gathered column is
    a permutation of the input in ascending order.  Every subtraction
    [x - min] is then exact and the bucket of a row is its distance to the
    minimum. *)
Theorem sort_pipeline_sorts_whole_numbers (data : list double)
    (out0 count idx : list Z) (buf : list double) (r : argsort_result) :
  whole_numbers data = true -> spread_small data = true ->
  counting_sort_argsort_f64 data out0 = Some r ->
  length count = Z.to_nat (ar_range r) ->
  length idx = length data -> length buf = length data ->
  Z.of_nat (length data) < 2 ^ 31 ->
  ∃ (count' idx' : list Z) (col : list double),
    counting_sort_apply data (ar_min r) count (Z.to_nat (ar_range r)) idx
      = Some (count', idx') ∧
    gather_f64 data idx' (length data) buf = Some col ∧
    col ≡ₚ data ∧ ascending col.
Proof.
  intros Hwhole Hspread Hrun Hcount Hidx Hbuf Hn.
  pose proof (whole_numbers_finite data Hwhole) as Hfin.
  destruct (sort_pipeline_spec data out0 count idx buf r Hfin Hrun Hcount Hidx
              Hbuf Hn) as (count' & idx' & col & Happly & Hgather & Hperm & Hord & _).
  exists count', idx', col. split_and!; try done.
  intros i j x y Hij Hx Hy.
  assert (Hxin : x ∈ data) by (rewrite <- Hperm; by eapply list_elem_of_lookup_2).
  assert (Hyin : y ∈ data) by (rewrite <- Hperm; by eapply list_elem_of_lookup_2).
  destruct (whole_numbers_elem data x Hwhole Hxin) as [Hfx Hax].
  destruct (whole_numbers_elem data y Hwhole Hyin) as [Hfy Hay].
  destruct (decide (i = j)) as [-> | Hne].
  { rewrite Hx in Hy. injection Hy as <-. apply le_finite; (done || lia). }
  destruct data as [| d0 rest]; [by apply elem_of_nil in Hxin |].
  destruct (argsort_inv d0 rest out0 r Hfin Hrun) as (_ & _ & _ & _ & Hmin & _ & Hext).
  destruct (whole_numbers_elem _ _ Hwhole Hmin) as [Hfm Ham].
  pose proof (Hext x Hxin) as [Hmx _]. pose proof (Hext y Hyin) as [Hmy _].
  pose proof (spread_small_elem _ x (ar_min r) Hspread Hxin Hmin) as Hsx.
  pose proof (spread_small_elem _ y (ar_min r) Hspread Hyin Hmin) as Hsy.
  pose proof F64Facts.unit_pos as Hu.
  set (ax := fin_val x / F64.unit) in *.
  set (ay := fin_val y / F64.unit) in *.
  set (m := fin_val (ar_min r) / F64.unit) in *.
  destruct (Hord i j x y ltac:(lia) Hx Hy) as (bx & by' & Hbx & Hby & Hle).
  rewrite (bucket_of_whole (ar_min r) x ax m) in Hbx by (done || nia).
  rewrite (bucket_of_whole (ar_min r) y ay m) in Hby by (done || nia).
  injection Hbx as Hbx. injection Hby as Hby.
  apply le_finite; [done | done |]. nia.
Qed.

Lemma sort_pipeline_sorts_whole_numbers_witness :
  ∃ (count' idx' : list Z) (col : list double),
    counting_sort_apply ts_example 0x4024000000000000 (replicate 21 7) 21
      [9; 9; 9; 9] = Some (count', idx') ∧
    gather_f64 ts_example idx' 4 [0; 0; 0; 0] = Some col ∧
    col ≡ₚ ts_example ∧ ascending col.
Proof.
  apply (sort_pipeline_sorts_whole_numbers ts_example [9; 9; 9; 9]
           (replicate 21 7) [9; 9; 9; 9] [0; 0; 0; 0]
           {| ar_out_indices := [9; 9; 9; 9]; ar_min := 0x4024000000000000;
              ar_max := 0x403E000000000000; ar_range := 21 |}).
  - vm_compute. reflexivity.
  - vm_compute. reflexivity.
  - vm_compute. reflexivity.
  - vm_compute. reflexivity.
  - reflexivity.
  - reflexivity.
  - vm_compute. reflexivity.
Defined.

(** X14.  [gather_f64] and [gather_i32] through an index buffer that holds
    a permutation of [0, n) return a permutation of the source column: no
    row is lost or duplicated by the reordering. *)
Theorem gather_through_permutation :
  (∀ (src : list double) (indices : list Z) (n : nat) (out : list double),
     length src = n -> length out = n -> indices ≡ₚ iota n ->
     ∃ out', gather_f64 src indices n out = Some out' ∧ out' ≡ₚ src) ∧
  (∀ (src indices : list Z) (n : nat) (out : list Z),
     length src = n -> length out = n -> indices ≡ₚ iota n ->
     ∃ out', gather_i32 src indices n out = Some out' ∧ out' ≡ₚ src).
Proof.
  split; intros src indices n out Hsrc Hout Hperm.
  - destruct (gather_permutation (A := double) 0 src indices n out Hsrc Hout Hperm)
      as (out' & Hrun & Hp & _).
    by exists out'.
  - destruct (gather_permutation 0 src indices n out Hsrc Hout Hperm)
      as (out' & Hrun & Hp & _).
    by exists out'.
Qed.

Lemma gather_through_permutation_witness :
  ∃ out', gather_f64 ts_example [1; 3; 2; 0] 4 [0; 0; 0; 0] = Some out' ∧
          out' ≡ₚ ts_example.
Proof.
  apply (proj1 gather_through_permutation ts_example [1; 3; 2; 0] 4%nat
           [0; 0; 0; 0]).
  - reflexivity.
  - reflexivity.
  - apply (bool_decide_unpack _). vm_compute. exact I.
Defined.

(** * Snapshot boundaries of an arbitrary column *)

Section Boundaries.

Lemma value_eq_same (u v : F64.value) : F64.value_eq u v = true -> u = v.
Proof.
  destruct u as [| s | x], v as [| t | y]; cbn; try done.
  - intros H. apply Bool.eqb_prop in H. by subst.
  - intros H. apply Z.eqb_eq in H. by subst.
Qed.

(** The running value [prev] is the row before [i], up to the sign of
    zero; the scan records the rows that differ from their predecessor. *)
Lemma boundary_scan_cuts (ts : list double) :
  Z.of_nat (length ts) < 2 ^ 31 ->
  ∀ (rest : list double) (i : nat) (prev a : double) (count : nat) (out : list Z),
  drop i ts = rest -> (1 ≤ i)%nat ->
  ts !! (i - 1)%nat = Some a -> F64.decode prev = F64.decode a ->
  (count + length (rows_where (changes_at ts) i (length rest)) ≤ length out)%nat ->
  boundary_scan rest i prev count out
  = Some ((count + length (rows_where (changes_at ts) i (length rest)))%nat,
          take count out
            ++ (Z.of_nat <$> rows_where (changes_at ts) i (length rest))
            ++ drop (count + length (rows_where (changes_at ts) i (length rest))) out).
Proof.
  intros Hn. induction rest as [| x rest IH];
    intros i prev a count out Hdrop Hi Ha Hprev Hcap.
  { cbn. rewrite Nat.add_0_r. by rewrite take_drop. }
  assert (Hx : ts !! i = Some x).
  { pose proof (lookup_drop ts i 0) as H. rewrite Hdrop, Nat.add_0_r in H.
    by rewrite <- H. }
  assert (Hdrop' : drop (S i) ts = rest).
  { rewrite (drop_S ts x i Hx) in Hdrop. by injection Hdrop. }
  pose proof (lookup_lt_Some _ _ _ Hx) as Hlt.
  cbn [length] in Hcap |- *. rewrite rows_where_S in Hcap |- *.
  assert (Hch : changes_at ts i = F64.ne x prev).
  { unfold changes_at. rewrite Ha, Hx. unfold F64.ne, F64.eq. by rewrite Hprev. }
  rewrite Hch in Hcap |- *. cbn [boundary_scan].
  assert (Hnext : ts !! (S i - 1)%nat = Some x).
  { by replace (S i - 1)%nat with i by lia. }
  destruct (F64.ne x prev) eqn:Hne.
  - cbn [length] in Hcap. unfold store. case_decide; [| lia].
    cbn [mbind option_bind]. rewrite to_int32_small by lia.
    rewrite (IH (S i) x x (S count)) by (rewrite ?length_insert; done || lia).
    f_equal. f_equal; [cbn [length]; lia |].
    apply filter_store_step. lia.
  - assert (Hsame : F64.decode prev = F64.decode x).
    { unfold F64.ne, F64.eq in Hne. apply negb_false_iff in Hne.
      symmetry. by apply value_eq_same. }
    by rewrite (IH (S i) prev x count) by (done || lia).
Qed.

Lemma store_in_range {A} (buf : list A) (i : nat) (v : A) :
  (i < length buf)%nat -> store buf i v = Some (<[i := v]> buf).
Proof. intros H. unfold store. by case_decide. Qed.

Lemma find_snapshot_boundaries_spec (t0 : double) (rest : list double)
    (out : list Z) :
  Z.of_nat (length (t0 :: rest)) < 2 ^ 31 ->
  (S (S (length (rows_where (changes_at (t0 :: rest)) 1 (length rest))))
   ≤ length out)%nat ->
  find_snapshot_boundaries (t0 :: rest) out
  = Some (S (length (rows_where (changes_at (t0 :: rest)) 1 (length rest))),
          (Z.of_nat <$> O :: rows_where (changes_at (t0 :: rest)) 1 (length rest)
                          ++ [length (t0 :: rest)])
            ++ drop (S (S (length (rows_where (changes_at (t0 :: rest)) 1
                                     (length rest))))) out).
Proof.
  intros Hn Hcap. unfold find_snapshot_boundaries.
  set (ts := t0 :: rest) in *.
  set (cuts := rows_where (changes_at ts) 1 (length rest)) in *.
  rewrite store_in_range by lia. cbn [mbind option_bind].
  rewrite (boundary_scan_cuts ts Hn rest 1 t0 t0 1)
    by (rewrite ?length_insert; done || fold cuts; lia).
  fold cuts. cbn [mbind option_bind].
  assert (Hcl : (length cuts ≤ length rest)%nat) by apply rows_where_length.
  assert (Hlen : length (take 1 (<[O := 0]> out) ++ (Z.of_nat <$> cuts)
                           ++ drop (1 + length cuts) (<[O := 0]> out))
                 = length out).
  { rewrite !length_app, length_take, length_fmap, length_drop, length_insert. lia. }
  rewrite store_in_range by lia. cbn [mbind option_bind].
  rewrite to_int32_small by lia.
  f_equal. f_equal.
  clear Hlen. destruct out as [| o0 out1]; [cbn [length] in Hcap; lia |].
  cbn [length] in Hcap.
  change (<[O := 0]> (o0 :: out1)) with (0 :: out1).
  change (take 1 (0 :: out1)) with [0].
  change (drop (1 + length cuts) (0 :: out1)) with (drop (length cuts) out1).
  change (drop (S (S (length cuts))) (o0 :: out1))
    with (drop (S (length cuts)) out1).
  change ([0] ++ (Z.of_nat <$> cuts) ++ drop (length cuts) out1)
    with (0 :: ((Z.of_nat <$> cuts) ++ drop (length cuts) out1)).
  change (<[(1 + length cuts)%nat := Z.of_nat (length ts)]>
            (0 :: ((Z.of_nat <$> cuts) ++ drop (length cuts) out1)))
    with (0 :: <[length cuts := Z.of_nat (length ts)]>
                 ((Z.of_nat <$> cuts) ++ drop (length cuts) out1)).
  rewrite fmap_cons, fmap_app. cbn [app]. f_equal.
  rewrite insert_app_r_alt by (rewrite length_fmap; lia).
  rewrite length_fmap, Nat.sub_diag.
  destruct (lookup_lt_is_Some_2 out1 (length cuts) ltac:(lia)) as [y Hy].
  rewrite (drop_S out1 y _ Hy). rewrite <- app_assoc. done.
Qed.

End Boundaries.

(** X15.  [find_snapshot_boundaries] on any non-empty column, sorted or
    not: a snapshot starts at row 0 and at every row that differs ([!=])
    from the row before it.  The function returns the number of these
    rows and leaves their offsets in increasing order, followed by the
    sentinel [n], in the first [count + 1] cells of the buffer; the cells
    after them are not touched.  [count + 1] cells are all the capacity it
    needs. *)
Theorem find_snapshot_boundaries_any_column (ts : list double) (out : list Z) :
  ts ≠ [] -> Z.of_nat (length ts) < 2 ^ 31 ->
  (S (S (length (rows_where (changes_at ts) 1 (length ts - 1)))) ≤ length out)%nat ->
  find_snapshot_boundaries ts out
  = Some (S (length (rows_where (changes_at ts) 1 (length ts - 1))),
          (Z.of_nat <$> O :: rows_where (changes_at ts) 1 (length ts - 1)
                          ++ [length ts])
            ++ drop (S (S (length (rows_where (changes_at ts) 1 (length ts - 1)))))
                 out).
Proof.
  intros Hne Hn Hcap. destruct ts as [| t0 rest]; [done |].
  replace (length (t0 :: rest) - 1)%nat with (length rest) in *
    by (cbn [length]; lia).
  by apply find_snapshot_boundaries_spec.
Qed.

Lemma find_snapshot_boundaries_any_column_witness :
  find_snapshot_boundaries ts_example [9; 9; 9; 9; 9; 9]
  = Some (S (length (rows_where (changes_at ts_example) 1 (length ts_example - 1))),
          (Z.of_nat <$> O :: rows_where (changes_at ts_example) 1
                                 (length ts_example - 1)
                          ++ [length ts_example])
            ++ drop (S (S (length (rows_where (changes_at ts_example) 1
                                     (length ts_example - 1)))))
                 [9; 9; 9; 9; 9; 9]).
Proof.
  apply (find_snapshot_boundaries_any_column ts_example [9; 9; 9; 9; 9; 9]).
  - discriminate.
  - vm_compute. reflexivity.
  - vm_compute. lia.
Defined.

(** X16.  NaN differs from every value, itself included, so a NaN row
    always starts a snapshot and so does the row after it: a column of [n]
    NaN rows is cut into [n] snapshots of one row each. *)
Theorem find_snapshot_boundaries_all_nan (ts : list double) (out : list Z) :
  ts ≠ [] -> Forall (λ d, is_nan d = true) ts ->
  Z.of_nat (length ts) < 2 ^ 31 -> (length ts < length out)%nat ->
  find_snapshot_boundaries ts out
  = Some (length ts, iota (S (length ts)) ++ drop (S (length ts)) out).
Proof.
  intros Hne Hnan Hn Hcap. destruct ts as [| t0 rest]; [done |].
  assert (Hcuts : rows_where (changes_at (t0 :: rest)) 1 (length rest)
                  = seq 1 (length rest)).
  { unfold rows_where. apply filter_all. apply Forall_forall. intros i Hi.
    apply elem_of_seq in Hi. unfold changes_at.
    destruct (lookup_lt_is_Some_2 (t0 :: rest) (i - 1) ltac:(cbn [length]; lia))
      as [a Ha].
    destruct (lookup_lt_is_Some_2 (t0 :: rest) i ltac:(cbn [length]; lia))
      as [b Hb].
    rewrite Ha, Hb.
    pose proof (proj1 (Forall_lookup _ _) Hnan i b Hb) as Hbn.
    unfold is_nan in Hbn. unfold F64.ne, F64.eq.
    by destruct (F64.decode b). }
  rewrite find_snapshot_boundaries_spec; rewrite ?Hcuts, ?length_seq;
    cbn [length] in *; try lia.
  do 3 f_equal. unfold iota. f_equal.
  change (seq 0 (S (S (length rest)))) with (O :: seq 1 (S (length rest))).
  by rewrite seq_S.
Qed.

Lemma find_snapshot_boundaries_all_nan_witness :
  find_snapshot_boundaries [0x7FF8000000000000; 0x7FF8000000000000; 0xFFF8000000000001]
    [9; 9; 9; 9; 9]
  = Some (length [0x7FF8000000000000; 0x7FF8000000000000; 0xFFF8000000000001],
          iota (S (length [0x7FF8000000000000; 0x7FF8000000000000;
                           0xFFF8000000000001]))
            ++ drop (S (length [0x7FF8000000000000; 0x7FF8000000000000;
                                0xFFF8000000000001]))
                 [9; 9; 9; 9; 9]).
Proof.
  apply (find_snapshot_boundaries_all_nan
           [0x7FF8000000000000; 0x7FF8000000000000; 0xFFF8000000000001]
           [9; 9; 9; 9; 9]).
  - discriminate.
  - repeat constructor.
  - vm_compute. reflexivity.
  - cbn [length]. lia.
Defined.

(** * More on the Gorilla codec *)

Section EncoderFrame.
Import Gorilla.

Lemma store_frame {A} (buf buf' : list A) (i : nat) (v : A) :
  store buf i v = Some buf' ->
  (i < length buf)%nat ∧ length buf' = length buf ∧
  ∀ k, k ≠ i -> buf' !! k = buf !! k.
Proof.
  unfold store. case_decide; [| done]. intros [= <-].
  split_and!; [done | by rewrite length_insert |].
  intros k Hk. by rewrite list_lookup_insert_ne.
Qed.

Lemma keeps_rest_refl w : keeps_rest w w.
Proof. intros Hw. split_and!; auto. Qed.

Lemma keeps_rest_trans w1 w2 w3 :
  keeps_rest w1 w2 -> keeps_rest w2 w3 -> keeps_rest w1 w3.
Proof.
  intros H12 H23 Hw1.
  destruct (H12 Hw1) as (Hw2 & Hu12 & Hl12 & Hk12).
  destruct (H23 Hw2) as (Hw3 & Hu23 & Hl23 & Hk23).
  split_and!; [done | lia | congruence |].
  intros k Hk. rewrite Hk23 by done. apply Hk12. lia.
Qed.

Lemma WRITE_BIT_frame b w w' : WRITE_BIT b w = Some w' -> keeps_rest w w'.
Proof.
  unfold WRITE_BIT. intros H [Hwf Hin].
  assert (∃ buf2, w_buffer w' = buf2 ∧
            length buf2 = length (w_buffer w) ∧
            (w_bit_pos w = 0 -> (w_byte_pos w < length (w_buffer w))%nat) ∧
            (∀ k, k ≠ w_byte_pos w -> buf2 !! k = w_buffer w !! k) ∧
            ((w_bit_pos w + 1 = 8 ∧ w_byte_pos w' = S (w_byte_pos w) ∧
              w_bit_pos w' = 0) ∨
             (w_bit_pos w + 1 ≠ 8 ∧ w_byte_pos w' = w_byte_pos w ∧
              w_bit_pos w' = w_bit_pos w + 1)))
    as (buf2 & Hbuf & Hlen & Hfirst & Hother & Hpos).
  { destruct (Z.eqb_spec (w_bit_pos w) 0) as [E0 | E0].
    - destruct (store (w_buffer w) (w_byte_pos w) 0) as [buf1 |] eqn:H1; [| done].
      apply store_frame in H1 as (Hlt & Hl1 & Hk1).
      cbn [mbind option_bind] in H.
      destruct (b =? 0).
      + cbn [mbind option_bind] in H.
        destruct (Z.eqb_spec (w_bit_pos w + 1) 8); injection H as <-;
          cbn [w_buffer w_byte_pos w_bit_pos]; eexists; split_and!; eauto.
      + destruct (buf1 !! w_byte_pos w) as [cur |]; [| done].
        cbn [mbind option_bind] in H.
        destruct (store buf1 (w_byte_pos w) _) as [buf2 |] eqn:H2; [| done].
        apply store_frame in H2 as (_ & Hl2 & Hk2).
        cbn [mbind option_bind] in H.
        destruct (Z.eqb_spec (w_bit_pos w + 1) 8); injection H as <-;
          cbn [w_buffer w_byte_pos w_bit_pos]; eexists; split_and!; eauto;
          try congruence; intros k Hk; rewrite Hk2, Hk1; done.
    - cbn [mbind option_bind] in H.
      destruct (b =? 0).
      + cbn [mbind option_bind] in H.
        destruct (Z.eqb_spec (w_bit_pos w + 1) 8); injection H as <-;
          cbn [w_buffer w_byte_pos w_bit_pos]; eexists; split_and!; eauto;
          done.
      + destruct (w_buffer w !! w_byte_pos w) as [cur |]; [| done].
        cbn [mbind option_bind] in H.
        destruct (store (w_buffer w) (w_byte_pos w) _) as [buf2 |] eqn:H2; [| done].
        apply store_frame in H2 as (_ & Hl2 & Hk2).
        cbn [mbind option_bind] in H.
        destruct (Z.eqb_spec (w_bit_pos w + 1) 8); injection H as <-;
          cbn [w_buffer w_byte_pos w_bit_pos]; eexists; split_and!; eauto;
          done. }
  unfold writer_ok, bytes_used in *. rewrite Hbuf.
  destruct (Z.ltb_spec 0 (w_bit_pos w)) as [Hb | Hb];
    destruct Hpos as [(Hp1 & Hp2 & Hp3) | (Hp1 & Hp2 & Hp3)];
    rewrite Hp2, Hp3;
    (destruct (Z.ltb_spec 0 0) as [? | _]; [lia |]) ||
    (destruct (Z.ltb_spec 0 (w_bit_pos w + 1)) as [_ | ?]; [| lia]);
    split_and!; try lia;
    try (intros k Hk; apply Hother; lia);
    try (specialize (Hfirst ltac:(lia)); lia).
Qed.

Lemma WRITE_BITS_frame v :
  ∀ (bits : nat) w w', WRITE_BITS v bits w = Some w' -> keeps_rest w w'.
Proof.
  induction bits as [| i IH]; intros w w' H; cbn [WRITE_BITS] in H.
  { injection H as <-. apply keeps_rest_refl. }
  destruct (WRITE_BIT _ w) as [w1 |] eqn:H1; [| done].
  cbn [mbind option_bind] in H.
  eapply keeps_rest_trans; [by eapply WRITE_BIT_frame | by eapply IH].
Qed.

Lemma compress_value_frame st d st' :
  compress_value st d = Some st' -> keeps_rest (e_writer st) (e_writer st').
Proof.
  unfold compress_value. cbv zeta. intros H.
  destruct (Z.lxor (double_to_bits d) (e_prev_value st) =? 0).
  { destruct (WRITE_BIT 0 (e_writer st)) as [w1 |] eqn:H1; [| done].
    injection H as <-. cbn [e_writer]. by eapply WRITE_BIT_frame. }
  destruct (WRITE_BIT 1 (e_writer st)) as [w1 |] eqn:H1; [| done].
  cbn [mbind option_bind] in H.
  apply WRITE_BIT_frame in H1.
  destruct (negb (e_prev_leading st =? -1) && _ && _).
  - destruct (WRITE_BIT 0 w1) as [w2 |] eqn:H2; [| done].
    cbn [mbind option_bind] in H.
    destruct (WRITE_BITS _ _ w2) as [w3 |] eqn:H3; [| done].
    injection H as <-. cbn [e_writer].
    apply WRITE_BIT_frame in H2. apply WRITE_BITS_frame in H3.
    eauto using keeps_rest_trans.
  - destruct (WRITE_BIT 1 w1) as [w2 |] eqn:H2; [| done].
    cbn [mbind option_bind] in H.
    destruct (WRITE_BITS _ 6 w2) as [w3 |] eqn:H3; [| done].
    cbn [mbind option_bind] in H.
    destruct (WRITE_BITS _ 6 w3) as [w4 |] eqn:H4; [| done].
    cbn [mbind option_bind] in H.
    destruct (WRITE_BITS _ _ w4) as [w5 |] eqn:H5; [| done].
    injection H as <-. cbn [e_writer].
    apply WRITE_BIT_frame in H2.
    apply WRITE_BITS_frame in H3, H4, H5.
    eauto using keeps_rest_trans.
Qed.

Lemma compress_loop_frame :
  ∀ rest st st',
  compress_loop st rest = Some st' -> keeps_rest (e_writer st) (e_writer st').
Proof.
  induction rest as [| d rest IH]; intros st st' H; cbn [compress_loop] in H.
  { injection H as <-. apply keeps_rest_refl. }
  destruct (compress_value st d) as [st1 |] eqn:H1; [| done].
  cbn [mbind option_bind] in H.
  eapply keeps_rest_trans; [by eapply compress_value_frame | by eapply IH].
Qed.

End EncoderFrame.

Section DecoderCount.
Import Gorilla.

Lemma constant_loop (d : double) :
  ∀ (k : nat) st,
  e_prev_value st = d ->
  0 <= w_bit_pos (e_writer st) < 8 ->
  w_pos (e_writer st) + Z.of_nat k <= 8 * Z.of_nat (length (w_buffer (e_writer st))) ->
  ∃ st', compress_loop st (replicate k d) = Some st' ∧
         0 <= w_bit_pos (e_writer st') < 8 ∧
         w_pos (e_writer st') = w_pos (e_writer st) + Z.of_nat k.
Proof.
  induction k as [| k IH]; intros st Hprev Hwf Hroom.
  { exists st. cbn [replicate compress_loop]. split; [done | split; [done | lia]]. }
  cbn [replicate compress_loop]. unfold compress_value, double_to_bits. cbv zeta.
  rewrite Hprev, Z.lxor_nilpotent. cbn [Z.eqb].
  destruct (WRITE_BIT_ok 0 (e_writer st) Hwf ltac:(lia))
    as (w1 & -> & Hwf1 & Hpos1 & Hlen1).
  cbn [mbind option_bind].
  destruct (IH {| e_writer := w1; e_prev_value := d;
                  e_prev_leading := e_prev_leading st;
                  e_prev_trailing := e_prev_trailing st |})
    as (st' & Hrun & Hwf' & Hpos'); cbn [e_writer e_prev_value]; try done.
  { rewrite Hlen1. lia. }
  exists st'. split; [done | split; [done |]].
  cbn [e_writer] in Hpos'. lia.
Qed.

Lemma constant_narrow (d : double) (k : nat) :
  no_full_width d (replicate k d) = true.
Proof.
  induction k as [| k IH]; [done |].
  cbn [replicate no_full_width]. rewrite Z.lxor_nilpotent, IH. reflexivity.
Qed.

End DecoderCount.

(** X18.  [gorilla_decompress_f64] returns at most [max_count] values,
    except that it returns the first value before it looks at
    [max_count]: the count is bounded by the larger of 1 and
    [max_count]. *)
Theorem gorilla_decompress_count_bound (buffer : list Z) (max_count : nat) :
  (length (Gorilla.gorilla_decompress_f64 buffer max_count)
   ≤ Nat.max 1 max_count)%nat.
Proof.
  unfold Gorilla.gorilla_decompress_f64. case_decide; [cbn; lia |].
  destruct (Gorilla.READ_BITS buffer 64 _) as [[prev r] |]; [| cbn; lia].
  cbn [length].
  pose proof (decompress_loop_length buffer (max_count - 1)
                {| Gorilla.d_reader := r; Gorilla.d_prev_value := prev;
                   Gorilla.d_prev_leading := -1; Gorilla.d_prev_trailing := 0 |}).
  lia.
Qed.

(** X19.  The decoder is incremental in [max_count]: asking for more
    values of the same buffer only appends to what a smaller [max_count]
    returns. *)
Theorem gorilla_decompress_prefix_in_max_count (buffer : list Z) (m1 m2 : nat) :
  (m1 ≤ m2)%nat ->
  Gorilla.gorilla_decompress_f64 buffer m1
    `prefix_of` Gorilla.gorilla_decompress_f64 buffer m2.
Proof.
  intros Hle. unfold Gorilla.gorilla_decompress_f64. case_decide; [done |].
  destruct (Gorilla.READ_BITS buffer 64 _) as [[prev r] |]; [| done].
  apply prefix_cons, decompress_loop_prefix. lia.
Qed.

Lemma gorilla_decompress_prefix_in_max_count_witness :
  Gorilla.gorilla_decompress_f64 [63; 240; 0; 0; 0; 0; 0; 0; 96; 151; 255; 192] 1
    `prefix_of`
  Gorilla.gorilla_decompress_f64 [63; 240; 0; 0; 0; 0; 0; 0; 96; 151; 255; 192] 3.
Proof.
  apply (gorilla_decompress_prefix_in_max_count
           [63; 240; 0; 0; 0; 0; 0; 0; 96; 151; 255; 192] 1 3).
  lia.
Defined.

(** X20.  Whenever [gorilla_compress_f64] returns, the returned length is
    within the buffer and the bytes from that length on are as the caller
    left them: the encoder clears and writes a byte only when it puts the
    first bit into it. *)
Theorem gorilla_compress_keeps_rest (data : list double)
    (out_buffer buf : list Z) (n : nat) :
  Gorilla.gorilla_compress_f64 data out_buffer = Some (buf, n) ->
  length buf = length out_buffer ∧ (n ≤ length out_buffer)%nat ∧
  drop n buf = drop n out_buffer.
Proof.
  unfold Gorilla.gorilla_compress_f64. destruct data as [| d0 rest].
  { intros [= <- <-]. split_and!; [done | lia | done]. }
  cbv zeta. intros H.
  destruct (Gorilla.WRITE_BITS _ 64 _) as [w1 |] eqn:H1; [| done].
  cbn [mbind option_bind] in H.
  destruct (Gorilla.compress_loop _ rest) as [st |] eqn:H2; [| done].
  cbn [mbind option_bind] in H. injection H as <- <-.
  apply WRITE_BITS_frame in H1. apply compress_loop_frame in H2.
  cbn [Gorilla.e_writer] in H2.
  destruct (keeps_rest_trans _ _ _ H1 H2) as ((_ & Hin) & _ & Hlen & Hk).
  { split; cbn; lia. }
  cbn [Gorilla.w_buffer] in Hlen, Hk. fold (bytes_used (Gorilla.e_writer st)).
  split_and!; [done | lia |].
  apply list_eq. intros k. rewrite !lookup_drop. apply Hk. lia.
Qed.

Lemma gorilla_compress_keeps_rest_witness :
  length [64; 9; 33; 251; 84; 68; 45; 24; 0; 7] = length (replicate 10 7) ∧
  (9 ≤ length (replicate 10 7))%nat ∧
  drop 9 [64; 9; 33; 251; 84; 68; 45; 24; 0; 7] = drop 9 (replicate 10 7).
Proof.
  apply (gorilla_compress_keeps_rest (replicate 4 0x400921FB54442D18)
           (replicate 10 7) [64; 9; 33; 251; 84; 68; 45; 24; 0; 7] 9).
  vm_compute. reflexivity.
Defined.

(** X21.  A column that repeats one value costs one bit per repetition:
    [k + 1] copies of a 64-bit pattern compress into [8 + ceil(k / 8)]
    bytes, which is all the capacity the encoder then needs, and the
    decoder gives the column back from these bytes. *)
Theorem gorilla_compress_constant_column (d : double) (k : nat)
    (out_buffer : list Z) :
  0 <= d < 2 ^ 64 ->
  (8 + (k + 7) / 8 ≤ length out_buffer)%nat ->
  ∃ buf,
    Gorilla.gorilla_compress_f64 (replicate (S k) d) out_buffer
      = Some (buf, (8 + (k + 7) / 8)%nat) ∧
    Gorilla.gorilla_decompress_f64 (take (8 + (k + 7) / 8) buf) (S k)
      = replicate (S k) d.
Proof.
  intros Hd Hroom.
  pose proof (Nat.div_mod_eq (k + 7) 8) as Hdm.
  pose proof (Nat.mod_upper_bound (k + 7) 8 ltac:(lia)) as Hmod.
  assert (Hrun : ∃ buf, Gorilla.gorilla_compress_f64 (replicate (S k) d) out_buffer
                        = Some (buf, (8 + (k + 7) / 8)%nat)).
  { cbn [replicate]. unfold Gorilla.gorilla_compress_f64, Gorilla.double_to_bits.
    cbv zeta.
    destruct (WRITE_BITS_ok d 64
                {| Gorilla.w_buffer := out_buffer; Gorilla.w_byte_pos := 0;
                   Gorilla.w_bit_pos := 0 |})
      as (w1 & -> & Hwf1 & Hpos1 & Hlen1);
      [unfold w_pos; cbn; lia | unfold w_pos; cbn; lia |].
    cbn [mbind option_bind].
    unfold w_pos in Hpos1. cbn in Hpos1, Hlen1.
    destruct (constant_loop d k
                {| Gorilla.e_writer := w1; Gorilla.e_prev_value := d;
                   Gorilla.e_prev_leading := -1; Gorilla.e_prev_trailing := 0 |})
      as (st & -> & Hwf & Hpos); [done | done | |].
    { unfold w_pos. cbn [Gorilla.e_writer]. lia. }
    cbn [mbind option_bind]. unfold w_pos in Hpos. cbn [Gorilla.e_writer] in Hpos.
    eexists. f_equal. f_equal.
    destruct (Z.ltb_spec 0 (Gorilla.w_bit_pos (Gorilla.e_writer st))); lia. }
  destruct Hrun as [buf Hrun]. exists buf. split; [done |].
  assert (Hvalid : valid_patterns (replicate (S k) d)).
  { apply Forall_replicate. done. }
  assert (Hnarrow : narrow_blocks (replicate (S k) d) = true).
  { cbn [replicate narrow_blocks]. apply constant_narrow. }
  pose proof (roundtrip_of_compressed _ out_buffer buf _ Hvalid Hnarrow Hrun) as Hback.
  by rewrite length_replicate in Hback.
Qed.

Lemma gorilla_compress_constant_column_witness :
  ∃ buf,
    Gorilla.gorilla_compress_f64 (replicate (S 3) 0x400921FB54442D18)
      (replicate 10 7) = Some (buf, (8 + (3 + 7) / 8)%nat) ∧
    Gorilla.gorilla_decompress_f64 (take (8 + (3 + 7) / 8) buf) (S 3)
      = replicate (S 3) 0x400921FB54442D18.
Proof.
  apply (gorilla_compress_constant_column 0x400921FB54442D18 3 (replicate 10 7)).
  - lia.
  - vm_compute. lia.
Defined.

Lemma gorilla_roundtrip_narrow_blocks_witness :
  ∃ buf n,
    Gorilla.gorilla_compress_f64 special_values (replicate 70 0) = Some (buf, n) ∧
    (n ≤ 10 * length special_values)%nat ∧
    Gorilla.gorilla_decompress_f64 (take n buf) (length special_values)
      = special_values.
Proof.
  apply (gorilla_roundtrip_narrow_blocks special_values (replicate 70 0)).
  - unfold special_values. repeat constructor; lia.
  - vm_compute. reflexivity.
  - vm_compute. lia.
Defined.

(** * Inputs on which the kernels are undefined *)

Section Undefined.

Lemma gather_tail_bad_index {A} (src : list A) (indices : list Z) (j : nat) (p : Z) :
  indices !! j = Some p -> ¬ (0 <= p < Z.of_nat (length src)) ->
  ∀ (todo i : nat) (out : list A),
  (i ≤ j < i + todo)%nat ->
  gather_tail src indices todo i out = None.
Proof.
  intros Hp Hbad. induction todo as [| todo IH]; intros i out Hj; [lia |].
  cbn [gather_tail].
  destruct (decide (i = j)) as [-> | Hne].
  - unfold gather_one. rewrite Hp. cbn [mbind option_bind].
    unfold load_at. destruct (Z.ltb_spec p 0); [done |].
    rewrite lookup_ge_None_2 by lia. done.
  - destruct (gather_one src indices i out) as [out1 |]; [| done].
    cbn [mbind option_bind]. apply IH. lia.
Qed.

Lemma gather_bad_index {A} (src : list A) (indices : list Z) (n j : nat) (p : Z)
    (out : list A) :
  (j < n)%nat -> indices !! j = Some p -> ¬ (0 <= p < Z.of_nat (length src)) ->
  gather src indices n out = None.
Proof.
  intros Hj Hp Hbad. rewrite gather_is_tail.
  apply (gather_tail_bad_index src indices j p Hp Hbad). lia.
Qed.

Lemma bucket_of_nan (min_val x : double) :
  is_nan x = true -> bucket_of min_val x = None.
Proof.
  unfold is_nan, bucket_of, F64.sub. by destruct (F64.decode x).
Qed.

Lemma count_pass_nan (min_val x : double) :
  is_nan x = true ->
  ∀ (data : list double) (count : list Z),
  x ∈ data -> count_pass min_val data count = None.
Proof.
  intros Hx. induction data as [| y rest IH]; intros count Hin.
  { by apply elem_of_nil in Hin. }
  cbn [count_pass]. apply elem_of_cons in Hin as [<- | Hin].
  - by rewrite bucket_of_nan.
  - destruct (bucket_of min_val y) as [b |]; [| done]. cbn [mbind option_bind].
    destruct (count !! Z.to_nat b) as [c |]; [| done]. cbn [mbind option_bind].
    by apply IH.
Qed.

End Undefined.

(** X22.  The gathers do not check the indices they are given: one index
    below 0 or not below the length of the source, anywhere in the first
    [n] cells of the index buffer, makes [gather_f64] and [gather_i32]
    read outside the source column. *)
Theorem gather_reads_outside_on_bad_index :
  (∀ (src : list double) (indices : list Z) (n j : nat) (p : Z) (out : list double),
     (j < n)%nat -> indices !! j = Some p ->
     ¬ (0 <= p < Z.of_nat (length src)) ->
     gather_f64 src indices n out = None) ∧
  (∀ (src indices : list Z) (n j : nat) (p : Z) (out : list Z),
     (j < n)%nat -> indices !! j = Some p ->
     ¬ (0 <= p < Z.of_nat (length src)) ->
     gather_i32 src indices n out = None).
Proof.
  split; intros src indices n j p out Hj Hp Hbad.
  - by apply (gather_bad_index src indices n j p).
  - by apply (gather_bad_index src indices n j p).
Qed.

Lemma gather_reads_outside_on_bad_index_witness :
  gather_f64 ts_example [1; 3; -1; 0] 4 [0; 0; 0; 0] = None.
Proof.
  apply (proj1 gather_reads_outside_on_bad_index ts_example [1; 3; -1; 0]
           4%nat 2%nat (-1) [0; 0; 0; 0]).
  - lia.
  - reflexivity.
  - cbn [ts_example length]. lia.
Defined.

(** X23.  The counting sort is undefined on a column with a NaN.  When the
    first row is NaN, [counting_sort_argsort_f64] takes it for both minimum
    and maximum and converts NaN to [size_t]; a NaN in a later row is
    skipped by the min/max scan, and it is [counting_sort_apply] that
    converts [NaN - min_val] to a bucket index, whatever [min_val] and
    the buffers are. *)
Theorem counting_sort_undefined_on_nan :
  (∀ (d0 : double) (rest : list double) (out : list Z),
     is_nan d0 = true ->
     counting_sort_argsort_f64 (d0 :: rest) out = None) ∧
  (∀ (data : list double) (x min_val : double) (count : list Z) (range : nat)
     (out : list Z),
     x ∈ data -> is_nan x = true ->
     counting_sort_apply data min_val count range out = None).
Proof.
  split.
  - intros d0 rest out H. unfold counting_sort_argsort_f64.
    rewrite minmax_scan_nan_first by done.
    unfold is_nan in H. unfold F64.sub.
    by destruct (F64.decode d0).
  - intros data x min_val count range out Hin Hx. unfold counting_sort_apply.
    destruct (clear_counts count range) as [c0 |]; [| done].
    cbn [mbind option_bind]. by rewrite (count_pass_nan min_val x Hx).
Qed.

Lemma counting_sort_undefined_on_nan_witness :
  counting_sort_apply [0x4024000000000000; 0x7FF8000000000000]
    0x4024000000000000 [0; 0] 2 [0; 0] = None.
Proof.
  apply (proj2 counting_sort_undefined_on_nan
           [0x4024000000000000; 0x7FF8000000000000] 0x7FF8000000000000
           0x4024000000000000 [0; 0] 2%nat [0; 0]).
  - apply list_elem_of_In. simpl. auto.
  - vm_compute. reflexivity.
Defined.

(** * Aggregates *)

Section AggregateFacts.
Variable fadd : double → double → double.
Variable fdiv_size : double → Z → double.

Lemma lt_irrefl (x : double) : F64.lt x x = false.
Proof. unfold F64.lt. apply value_lt_irrefl. Qed.

Lemma gt_irrefl (x : double) : F64.gt x x = false.
Proof. unfold F64.gt. apply value_lt_irrefl. Qed.

Lemma minmax_step_self (x : double) : minmax_step (x, x) x = (x, x).
Proof. unfold minmax_step. cbn [fst snd]. by rewrite lt_irrefl, gt_irrefl. Qed.

(** Scanning a column from its first row, compared with itself, is the
    scan of [minmax_f64]. *)
Lemma minmax_from_first (d0 : double) (rest : list double) :
  fold_left minmax_step (d0 :: rest) (d0, d0) = minmax_f64 (d0 :: rest).
Proof. cbn [fold_left minmax_f64]. by rewrite minmax_step_self. Qed.

Lemma aggregate_fold (data : list double) :
  ∀ (sum min_val max_val : double),
  fold_left (aggregate_step fadd) data (sum, min_val, max_val)
  = (fold_left fadd data sum,
     (fold_left minmax_step data (min_val, max_val)).1,
     (fold_left minmax_step data (min_val, max_val)).2).
Proof.
  induction data as [| v data IH]; intros sum min_val max_val; [done |].
  cbn [fold_left]. unfold aggregate_step at 2. rewrite IH.
  unfold minmax_step at 3 6. cbn [fst snd]. done.
Qed.

Lemma ohlcv_bucket_loop_spec (prices volumes : list double) :
  ∀ (todo i : nat) (cell : OHLCV),
  (i + todo ≤ length prices)%nat -> (i + todo ≤ length volumes)%nat ->
  ohlcv_bucket_loop fadd prices volumes todo i cell
  = Some {| o_open := o_open cell;
            o_high := (fold_left minmax_step (take todo (drop i prices))
                         (o_low cell, o_high cell)).2;
            o_low := (fold_left minmax_step (take todo (drop i prices))
                        (o_low cell, o_high cell)).1;
            o_close := o_close cell;
            o_volume := fold_left fadd (take todo (drop i volumes))
                          (o_volume cell) |}.
Proof.
  induction todo as [| todo IH]; intros i cell Hp Hv.
  { cbn [ohlcv_bucket_loop]. rewrite !take_0. cbn [fold_left fst snd].
    by destruct cell. }
  cbn [ohlcv_bucket_loop].
  destruct (lookup_lt_is_Some_2 prices i ltac:(lia)) as [p Hpi].
  destruct (lookup_lt_is_Some_2 volumes i ltac:(lia)) as [v Hvi].
  rewrite Hpi, Hvi. cbn [mbind option_bind]. cbv zeta.
  rewrite IH by lia. cbn [o_open o_high o_low o_close o_volume].
  rewrite (drop_S prices p i Hpi), (drop_S volumes v i Hvi).
  cbn [take fold_left]. unfold minmax_step at 3 6. cbn [fst snd]. done.
Qed.

End AggregateFacts.

Section OhlcvFacts.
Variable fadd : double → double → double.

Lemma bucket_start_lt (n bs b : nat) :
  (0 < bs)%nat -> (b < bucket_count n bs)%nat -> (b * bs < n)%nat.
Proof.
  unfold bucket_count. intros Hbs Hb.
  pose proof (Nat.div_mod_eq (n + bs - 1) bs) as Hdm.
  pose proof (Nat.mod_upper_bound (n + bs - 1) bs ltac:(lia)) as Hmod.
  nia.
Qed.

Lemma take_min_length {A} (l : list A) (k : nat) :
  take k l = take (k `min` length l) l.
Proof.
  destruct (le_lt_dec k (length l)) as [Hle | Hgt].
  - by rewrite Nat.min_l by done.
  - rewrite Nat.min_r by lia. by rewrite !take_ge by lia.
Qed.

(** The cell the source leaves in [out[b]] is the summary of the rows of
    bucket [b]. *)
Lemma ohlcv_cell_of_bucket (prices volumes : list double) (bs b : nat)
    (first last_ : double) :
  length volumes = length prices -> (b * bs < length prices)%nat ->
  (0 < bs)%nat ->
  prices !! (b * bs)%nat = Some first ->
  prices !! (b * bs + bs `min` (length prices - b * bs) - 1)%nat = Some last_ ->
  {| o_open := first;
     o_high := (fold_left minmax_step
                  (take (bs `min` (length prices - b * bs)) (drop (b * bs) prices))
                  (first, first)).2;
     o_low := (fold_left minmax_step
                 (take (bs `min` (length prices - b * bs)) (drop (b * bs) prices))
                 (first, first)).1;
     o_close := last_;
     o_volume := fold_left fadd
                   (take (bs `min` (length prices - b * bs)) (drop (b * bs) volumes))
                   0 |}
  = ohlcv_cell fadd (bucket_rows prices bs b) (bucket_rows volumes bs b).
Proof.
  intros Hvol Hstart Hbs Hfirst Hlast. unfold ohlcv_cell, bucket_rows.
  rewrite (take_min_length (drop (b * bs) prices) bs).
  rewrite (take_min_length (drop (b * bs) volumes) bs).
  rewrite !length_drop, Hvol.
  set (len := (bs `min` (length prices - b * bs))%nat) in *.
  assert (Hlen : (1 ≤ len)%nat) by (unfold len; lia).
  assert (Hlenle : (len ≤ length prices - b * bs)%nat) by (unfold len; lia).
  assert (Hslice : take len (drop (b * bs) prices)
                   = first :: take (len - 1) (drop (S (b * bs)) prices)).
  { rewrite (drop_S prices first _ Hfirst).
    assert (∃ len', len = S len') as [len' Hl] by (exists (len - 1)%nat; lia).
    rewrite Hl. cbn [take]. by replace (S len' - 1)%nat with len' by lia. }
  assert (Hclose : last (take len (drop (b * bs) prices)) = Some last_).
  { rewrite last_lookup, length_take, length_drop.
    replace (Init.Nat.pred (len `min` (length prices - b * bs)))
      with (len - 1)%nat by lia.
    rewrite lookup_take_lt by lia. rewrite lookup_drop.
    by replace (b * bs + (len - 1))%nat with (b * bs + len - 1)%nat by lia. }
  rewrite Hclose, !Hslice. by rewrite minmax_from_first.
Qed.

Lemma ohlcv_loop_spec (prices volumes : list double) (bs : nat) :
  (0 < bs)%nat -> length volumes = length prices ->
  Z.of_nat (length prices) + Z.of_nat bs <= 2 ^ 64 ->
  ∀ (todo b : nat) (out : list OHLCV),
  (b + todo ≤ bucket_count (length prices) bs)%nat ->
  (b + todo ≤ length out)%nat ->
  ohlcv_loop fadd prices volumes (Z.of_nat (length prices)) (Z.of_nat bs) todo b out
  = Some (take b out
            ++ ((λ b, ohlcv_cell fadd (bucket_rows prices bs b)
                        (bucket_rows volumes bs b)) <$> seq b todo)
            ++ drop (b + todo) out).
Proof.
  intros Hbs Hvol Hfit. induction todo as [| todo IH]; intros b out Hb Hout.
  { cbn [ohlcv_loop seq fmap list_fmap app].
    rewrite Nat.add_0_r. by rewrite take_drop. }
  cbn [ohlcv_loop]. cbv zeta.
  pose proof (bucket_start_lt (length prices) bs b Hbs ltac:(lia)) as Hstart.
  set (len := (bs `min` (length prices - b * bs))%nat).
  assert (E1 : to_uint64 (Z.of_nat b * Z.of_nat bs) = Z.of_nat (b * bs)).
  { rewrite <- Nat2Z.inj_mul. unfold to_uint64. apply Z.mod_small. lia. }
  rewrite E1.
  assert (E2 : to_uint64 (Z.of_nat (b * bs) + Z.of_nat bs)
               = Z.of_nat (b * bs + bs)).
  { unfold to_uint64. rewrite Z.mod_small by lia. lia. }
  rewrite E2.
  assert (E3 : (if Z.of_nat (length prices) <? Z.of_nat (b * bs + bs)
                then Z.of_nat (length prices) else Z.of_nat (b * bs + bs))
               = Z.of_nat (b * bs + len)).
  { unfold len.
    destruct (Z.ltb_spec (Z.of_nat (length prices)) (Z.of_nat (b * bs + bs))); lia. }
  rewrite E3.
  assert (E4 : to_uint64 (Z.of_nat (b * bs + len) - 1)
               = Z.of_nat (b * bs + len - 1)).
  { unfold to_uint64. rewrite Z.mod_small by (unfold len; lia).
    unfold len. lia. }
  rewrite E4, !Nat2Z.id.
  replace (Z.to_nat (Z.of_nat (b * bs + len) - Z.of_nat (b * bs))) with len by lia.
  destruct (lookup_lt_is_Some_2 prices (b * bs) Hstart) as [first Hfirst].
  destruct (lookup_lt_is_Some_2 out b ltac:(lia)) as [old Hold].
  destruct (lookup_lt_is_Some_2 prices (b * bs + len - 1)
              ltac:(unfold len; lia)) as [last_ Hlast].
  rewrite Hfirst, Hold, Hlast. cbn [mbind option_bind].
  rewrite ohlcv_bucket_loop_spec by (unfold len; lia).
  cbn [mbind option_bind o_open o_high o_low o_close o_volume].
  rewrite store_in_range by lia. cbn [mbind option_bind].
  rewrite IH by (rewrite ?length_insert; lia).
  f_equal. rewrite take_S_insert by lia. rewrite drop_insert_lt by lia.
  cbn [seq]. rewrite fmap_cons, <- app_assoc. cbn [app].
  replace (S b + todo)%nat with (b + S todo)%nat by lia.
  do 2 f_equal. by apply ohlcv_cell_of_bucket.
Qed.

End OhlcvFacts.

(** X24.  [ohlcv_aggregate] with a positive bucket size cuts the [n] rows
    into [ceil(n / bucket_size)] consecutive buckets, the last one
    possibly shorter, writes one cell per bucket and leaves the rest of
    the output array alone.  The cell of a bucket holds the first and last
    price of its rows, the low and high that [minmax_f64] finds on them,
    and the volumes of its rows added up in order from +0.  (The additions
    wrap when [n + bucket_size] exceeds 2^64, which is excluded here.) *)
Theorem ohlcv_aggregate_buckets (fadd : double → double → double)
    (prices volumes : list double) (bucket_size : nat) (out : list OHLCV) :
  prices ≠ [] -> (0 < bucket_size)%nat -> length volumes = length prices ->
  Z.of_nat (length prices) + Z.of_nat bucket_size <= 2 ^ 64 ->
  (bucket_count (length prices) bucket_size ≤ length out)%nat ->
  ohlcv_aggregate fadd prices volumes (Z.of_nat bucket_size) out
  = Some (((λ b, ohlcv_cell fadd (bucket_rows prices bucket_size b)
                   (bucket_rows volumes bucket_size b))
             <$> seq 0 (bucket_count (length prices) bucket_size))
            ++ drop (bucket_count (length prices) bucket_size) out,
          Z.of_nat (bucket_count (length prices) bucket_size)).
Proof.
  intros Hne Hbs Hvol Hfit Hout. unfold ohlcv_aggregate. cbv zeta.
  assert (Hn : (0 < length prices)%nat) by (destruct prices; [done | cbn; lia]).
  destruct (Z.eqb_spec (Z.of_nat (length prices)) 0) as [? | _]; [lia |].
  destruct (Z.eqb_spec (Z.of_nat bucket_size) 0) as [? | _]; [lia |].
  cbn [orb].
  assert (Hb : to_uint64 (Z.of_nat (length prices) + Z.of_nat bucket_size - 1)
                 / Z.of_nat bucket_size
               = Z.of_nat (bucket_count (length prices) bucket_size)).
  { unfold to_uint64, bucket_count. rewrite Z.mod_small by lia.
    rewrite Nat2Z.inj_div. f_equal. lia. }
  rewrite Hb, Nat2Z.id.
  rewrite ohlcv_loop_spec by (done || lia).
  cbn [mbind option_bind]. by rewrite take_0.
Qed.

Lemma ohlcv_aggregate_buckets_witness :
  ohlcv_aggregate (λ a _, a) ts_example ts_example (Z.of_nat 3)
    (replicate 3 {| o_open := 7; o_high := 7; o_low := 7; o_close := 7;
                    o_volume := 7 |})
  = Some (((λ b, ohlcv_cell (λ a _, a) (bucket_rows ts_example 3 b)
                   (bucket_rows ts_example 3 b))
             <$> seq 0 (bucket_count (length ts_example) 3))
            ++ drop (bucket_count (length ts_example) 3)
                 (replicate 3 {| o_open := 7; o_high := 7; o_low := 7;
                                 o_close := 7; o_volume := 7 |}),
          Z.of_nat (bucket_count (length ts_example) 3)).
Proof.
  apply (ohlcv_aggregate_buckets (λ a _, a) ts_example ts_example 3).
  - discriminate.
  - lia.
  - reflexivity.
  - cbn [ts_example length]. lia.
  - vm_compute. lia.
Defined.

(** X25.  The bucket count of [ohlcv_aggregate] is computed as
    [(n + bucket_size - 1) / bucket_size] in [size_t]: when
    [n + bucket_size] exceeds 2^64 the sum wraps to less than
    [bucket_size], the count comes out 0 and no cell is written, although
    the column has rows.  A bucket size of [SIZE_MAX], meant as one bucket
    for everything, does this as soon as there are two rows. *)
Theorem ohlcv_aggregate_wraps_to_no_bucket (fadd : double → double → double)
    (prices volumes : list double) (bucket_size : Z) (out : list OHLCV) :
  prices ≠ [] -> Z.of_nat (length prices) < 2 ^ 64 ->
  0 < bucket_size < 2 ^ 64 ->
  2 ^ 64 < Z.of_nat (length prices) + bucket_size ->
  ohlcv_aggregate fadd prices volumes bucket_size out = Some (out, 0).
Proof.
  intros Hne Hn Hbs Hwrap. unfold ohlcv_aggregate. cbv zeta.
  assert (Hpos : (0 < length prices)%nat) by (destruct prices; [done | cbn; lia]).
  destruct (Z.eqb_spec (Z.of_nat (length prices)) 0) as [? | _]; [lia |].
  destruct (Z.eqb_spec bucket_size 0) as [? | _]; [lia |].
  cbn [orb].
  assert (Hb : to_uint64 (Z.of_nat (length prices) + bucket_size - 1) / bucket_size
               = 0).
  { apply Z.div_small. unfold to_uint64.
    replace (Z.of_nat (length prices) + bucket_size - 1)
      with ((Z.of_nat (length prices) + bucket_size - 1 - 2 ^ 64) + 1 * 2 ^ 64)
      by lia.
    rewrite Z_mod_plus_full. rewrite Z.mod_small by lia. lia. }
  rewrite Hb. reflexivity.
Qed.

Lemma ohlcv_aggregate_wraps_to_no_bucket_witness :
  ohlcv_aggregate (λ a _, a) ts_example ts_example (2 ^ 64 - 1) []
  = Some ([], 0).
Proof.
  apply (ohlcv_aggregate_wraps_to_no_bucket (λ a _, a) ts_example ts_example
           (2 ^ 64 - 1) []).
  - discriminate.
  - cbn [ts_example length]. lia.
  - lia.
  - cbn [ts_example length]. lia.
Defined.

(** X26.  [aggregate_f64] reports as minimum and maximum what [minmax_f64]
    reports on the same column, NaN rows and the empty column included;
    its sum is the rows added in order from +0, and its [uint32_t] count
    is the row count reduced modulo 2^32. *)
Theorem aggregate_f64_agrees_with_minmax (fadd : double → double → double)
    (fdiv_size : double → Z → double) (data : list double) :
  (a_min (aggregate_f64 fadd fdiv_size data),
   a_max (aggregate_f64 fadd fdiv_size data)) = minmax_f64 data ∧
  a_sum (aggregate_f64 fadd fdiv_size data) = fold_left fadd data 0 ∧
  a_count (aggregate_f64 fadd fdiv_size data)
  = Z.of_nat (length data) mod 2 ^ 32.
Proof.
  destruct data as [| d0 rest]; [done |].
  unfold aggregate_f64. rewrite aggregate_fold.
  cbn [a_min a_max a_sum a_count]. rewrite minmax_from_first.
  split_and!; [by destruct (minmax_f64 (d0 :: rest)) | done | done].
Qed.
